(** * mcp-openapi: the spec catalog and retrieval engine

    A shallow embedding of [src/core/SpecService.ts]
    ([FileSystemSpecService]) together with the properties its
    specification states about it.

    Modelling conventions.
    - A JavaScript object used as a dictionary is a finite map on its own
      properties: [gmap string _] where only lookup matters
      ([this.specs]), an association list in enumeration order where the
      code iterates with [for ... in] ([paths], path items, schemas).
    - [async] methods are state transformers over the service fields and
      the outside world (file system, clock, logger, scanner), returning
      either a value or the thrown error.  State changes made before a
      [throw] stay, as in JavaScript.
    - Reads go through the prototype chain: [obj[key]] on a plain object
      finds the own property or else the member of [Object.prototype] of
      that name ([js_get], [store_get]).  Writes add own properties; the
      one key whose assignment does something else, [__proto__], is
      recorded like the others: a later read of it gives the assigned
      document in the code too, through the accessor, but it is then no
      own property, and the statements about whole builds leave that
      specId out.
    - [Promise.all] starts every call before any of them is resumed; the
      awaited file system operations then complete in an order the world
      chooses ([completes]).  The promise is rejected at the first
      rejection, with the other calls still in flight: they stay in the
      world ([inflight]) and finish later ([settle]).  A method awaited
      on its own runs without anything else in between. *)

From Stdlib Require Import ZArith Ascii String List Bool Lia.
From stdpp Require Import base option list strings gmap fin_maps.

Set Warnings "-register-all".

Local Open Scope string_scope.
Local Open Scope list_scope.
Local Open Scope Z_scope.

(** ** JavaScript values used by the service *)

(** A [number] as far as the service looks at it: an integer or [NaN].
    The constructor tests truthiness, false at [0] and [NaN]; the cache
    compares. *)
Inductive number :=
| Num (z : Z)
| NaN.

Definition truthy_number (n : number) : bool :=
  match n with
  | Num z => negb (z =? 0)
  | NaN => false
  end.

Definition truthy_string (s : string) : bool :=
  match s with
  | EmptyString => false
  | String _ _ => true
  end.

(** [x || d] for an optional property [x]. *)
Definition or_else {A} (truthy : A -> bool) (x : option A) (d : A) : A :=
  match x with
  | Some v => if truthy v then v else d
  | None => d
  end.

(** [`${x}`] for a possibly undefined string. *)
Definition interpolate (x : option string) : string :=
  match x with
  | Some s => s
  | None => "undefined"
  end.

(** [path.join(a, b)] on segments that need no normalisation. *)
Definition path_join (a b : string) : string := a +:+ "/" +:+ b.

(** ** Configuration (interfaces/ISpecService.ts) *)

Record CacheOptions := {
  maxSize : option number;
  ttl : option number
}.

Record SpecServiceConfig := {
  basePath : string;
  catalogDir : option string;
  dereferencedDir : option string;
  retryAttempts : option number;
  retryDelay : option number;
  cache : option CacheOptions
}.

(** [Required<SpecServiceConfig>]: what the constructor stores. *)
Record RequiredCacheOptions := {
  r_maxSize : number;
  r_ttl : number
}.

Record RequiredConfig := {
  r_basePath : string;
  r_catalogDir : string;
  r_dereferencedDir : string;
  r_retryAttempts : number;
  r_retryDelay : number;
  r_cache : RequiredCacheOptions
}.

(** [config.cache?.maxSize] and [config.cache?.ttl]. *)
Definition cache_maxSize (c : SpecServiceConfig) : option number :=
  match cache c with
  | Some o => maxSize o
  | None => None
  end.

Definition cache_ttl (c : SpecServiceConfig) : option number :=
  match cache c with
  | Some o => ttl o
  | None => None
  end.

Definition make_config (c : SpecServiceConfig) : RequiredConfig :=
  {| r_basePath := basePath c;
     r_catalogDir := or_else truthy_string (catalogDir c) "_catalog";
     r_dereferencedDir := or_else truthy_string (dereferencedDir c) "_dereferenced";
     r_retryAttempts := or_else truthy_number (retryAttempts c) (Num 3);
     r_retryDelay := or_else truthy_number (retryDelay c) (Num 1000);
     r_cache :=
       {| r_maxSize := or_else truthy_number (cache_maxSize c) (Num 500);
          r_ttl := or_else truthy_number (cache_ttl c) (Num (60 * 60 * 1000)) |} |}.

(** ** Documents (openapi-types, as far as the service reads them) *)

Record OperationObject := {
  op_operationId : option string;
  op_summary : option string;
  op_description : option string;
  op_tags : option (list string)
}.

(** What [pathItem[method]] can be.  A key of a path item holds an
    operation under an HTTP method, a string under [$ref], [summary] and
    [description], an array under [parameters] and [servers].  A name
    that is no key of the item can still find a built-in on the
    prototype chain: [chain] lists the property names followed from
    [Object.prototype].  No parsed document holds a built-in. *)
Inductive PathItemValue :=
| VOperation (o : OperationObject)
| VString (s : string)
| VArray
| VBuiltin (chain : list string).

(** Own keys in [for ... in] order. *)
Definition PathItemObject := list (string * PathItemValue).
Definition PathsObject := list (string * PathItemObject).

Record SchemaObject := {
  sch_description : option string;
  sch_type : option string
}.

Record Document := {
  info_description : option string;
  paths : PathsObject;
  components_schemas : option (list (string * SchemaObject))
}.

(** Truthiness of [pathItem[method]]; the lookups below build truthy
    built-ins only. *)
Definition truthy_value (v : PathItemValue) : bool :=
  match v with
  | VOperation _ => true
  | VString s => truthy_string s
  | VArray => true
  | VBuiltin _ => true
  end.

(** Property reads on [pathItem[method] as OperationObject]: a string,
    an array or a built-in has none of the four properties. *)
Definition get_operationId (v : PathItemValue) : option string :=
  match v with VOperation o => op_operationId o | _ => None end.
Definition get_summary (v : PathItemValue) : option string :=
  match v with VOperation o => op_summary o | _ => None end.
Definition get_description (v : PathItemValue) : option string :=
  match v with VOperation o => op_description o | _ => None end.
Definition get_tags (v : PathItemValue) : option (list string) :=
  match v with VOperation o => op_tags o | _ => None end.

(** The own property [key] of an object given by its own properties. *)
Fixpoint prop {A} (obj : list (string * A)) (key : string) : option A :=
  match obj with
  | [] => None
  | (k, v) :: rest => if String.eqb k key then Some v else prop rest key
  end.

(** *** The prototype chain *)

(** The objects the service indexes are plain objects: [this.specs] is
    created by [{}], documents by [JSON.parse] or by the scanner.  Their
    prototype is [Object.prototype], whose members are functions, but
    for [__proto__], an accessor that gives [Object.prototype] itself:
    all of them truthy. *)
Definition Object_prototype : list string :=
  ["constructor"; "__defineGetter__"; "__defineSetter__"; "hasOwnProperty";
   "__lookupGetter__"; "__lookupSetter__"; "isPrototypeOf";
   "propertyIsEnumerable"; "toString"; "valueOf"; "__proto__";
   "toLocaleString"].

Definition inherited (key : string) : bool :=
  existsb (String.eqb key) Object_prototype.

(** What [obj[key]] finds: an own property, the member of
    [Object.prototype] called [key], or [undefined]. *)
Inductive Property (A : Type) :=
| Own (a : A)
| Inherited
| Undefined.
Arguments Own {A} a.
Arguments Inherited {A}.
Arguments Undefined {A}.

Definition lookup_chain {A} (own : option A) (key : string) : Property A :=
  match own with
  | Some a => Own a
  | None => if inherited key then Inherited else Undefined
  end.

(** [obj[key]] on an object given by its own properties. *)
Definition js_get {A} (obj : list (string * A)) (key : string) : Property A :=
  lookup_chain (prop obj key) key.

(** [this.specs[key]] *)
Definition store_get {A} (m : gmap string A) (key : string) : Property A :=
  lookup_chain (m !! key) key.

(** What a test for truthiness sees of [Object.prototype[member][key]],
    a property of a built-in: a truthy value (the [name] of a function),
    a falsy one ([undefined], the [length] of [toString]), or a
    [TypeError] thrown by the read (the [caller] of a built-in
    function). *)
Inductive Builtin := Truthy | Falsy | Throws.

(** ** Catalog records (interfaces/ISpecService.ts) *)

(** The string literals ["specification"], ["operation"], ["schema"]. *)
Inductive UriType := Specification | Operation | Schema.

Record SpecUri := {
  specId : string;
  type : UriType;
  identifier : string
}.

Record SpecOperationEntry := {
  oe_path : string;
  oe_method : string;
  oe_title : option string;
  oe_description : option string;
  oe_group : option string;
  oe_operationId : option string
}.

(** [se_specId] is the property [searchSchemas] adds to its candidates. *)
Record SpecSchemaEntry := {
  se_name : string;
  se_description : option string;
  se_specId : option string
}.

Record SpecCatalogEntry := {
  uri : SpecUri;
  ce_description : option string;
  operations : list SpecOperationEntry;
  schemas : list SpecSchemaEntry
}.

(** What [schemas[schemaName]] can be: a schema of the document, or the
    member of [Object.prototype] of that name. *)
Inductive SchemaValue :=
| SSchema (s : SchemaObject)
| SBuiltin (member : string).

Record LoadSchemaResult := {
  ls_name : string;
  ls_description : option string;
  ls_schema : SchemaValue;
  ls_uri : string
}.

Record LoadOperationResult := {
  lo_path : string;
  lo_method : string;
  lo_operation : PathItemValue;
  lo_specId : string;
  lo_uri : string
}.

(** ** Errors *)

Inductive ErrorCode := INIT_ERROR | PERSIST_ERROR | LOAD_ERROR | SCAN_ERROR.

(** Thrown values.  Everything thrown in the model is an [Error], so
    [error instanceof Error ? error : new Error(String(error))] is
    [error]. *)
Inductive JsError :=
| ErrnoException (code : string)
| SyntaxError
| TypeError
| Error (message : string)
| SpecServiceError (message : string) (code : ErrorCode) (cause : option JsError).

(** [(error as NodeJS.ErrnoException).code === "ENOENT"]. *)
Definition is_ENOENT (e : JsError) : bool :=
  match e with
  | ErrnoException c => String.eqb c "ENOENT"
  | _ => false
  end.

Definition error_code (e : JsError) : option ErrorCode :=
  match e with
  | SpecServiceError _ c _ => Some c
  | _ => None
  end.

Definition error_cause (e : JsError) : option JsError :=
  match e with
  | SpecServiceError _ _ c => c
  | _ => None
  end.

(** How a call ends, and what a promise is settled with: a value or a
    thrown error. *)
Inductive Result (A : Type) :=
| Ok (a : A)
| Throw (e : JsError).
Arguments Ok {A} a.
Arguments Throw {A} e.

(** ** The bounded TTL cache *)

(** Modelled from the spec: the class [SimpleCache] of [src/core/Cache.ts],
    which is not among the sources.  Section 4.1 gives its contract:
    [get], [set] and [clear]; inserting beyond [maxSize] evicts the
    least recently inserted entry; an entry is absent once
    [now - insertedAt > ttl], and [get] purges it. *)
Module SimpleCache.

Record t := {
  c_maxSize : number;
  c_ttl : number;
  (* oldest insertion first *)
  entries : list (string * (Document * Z))
}.

Definition create (maxSize ttl : number) : t :=
  {| c_maxSize := maxSize; c_ttl := ttl; entries := [] |}.

Definition with_entries (c : t) (es : list (string * (Document * Z))) : t :=
  {| c_maxSize := c_maxSize c; c_ttl := c_ttl c; entries := es |}.

(** [x > n] on numbers; every comparison with [NaN] is false. *)
Definition gt (x : Z) (n : number) : bool :=
  match n with
  | Num z => z <? x
  | NaN => false
  end.

Definition remove (k : string) (es : list (string * (Document * Z))) :=
  List.filter (fun e => negb (String.eqb (fst e) k)) es.

Definition get (now : Z) (k : string) (c : t) : option Document * t :=
  match prop (entries c) k with
  | None => (None, c)
  | Some (v, insertedAt) =>
      if gt (now - insertedAt) (c_ttl c)
      then (None, with_entries c (remove k (entries c)))
      else (Some v, c)
  end.

Definition set (now : Z) (k : string) (v : Document) (c : t) : t :=
  let es := remove k (entries c) in
  let es := if gt (Z.of_nat (S (length es))) (c_maxSize c) then tail es else es in
  with_entries c (es ++ [(k, (v, now))]).

Definition clear (c : t) : t := with_entries c [].

End SimpleCache.

(** ** The outside world *)

Inductive FsOp :=
| Mkdir (dir : string)
| WriteFile (file : string)
| ReadFile (file : string).

(** What a file holds after [JSON.parse]: a document, a catalog, or text
    that does not parse to what the reader expects. *)
Inductive FileContent :=
| FSpec (d : Document)
| FCatalog (c : list SpecCatalogEntry)
| FCorrupt.

Inductive Level := Debug | Info | Warn | Err.

(** A logger call: level, message, and the [specId] or [filename] logged
    with it. *)
Definition LogEntry : Type := Level * string * option string.

(** One item yielded by [scanner.scan]. *)
Record ScanResult := {
  filename : string;
  spec : option Document;
  sr_specId : string;
  error : option JsError
}.

(** A whole scan: the items yielded, and the error thrown by the
    generator after them, if any. *)
Record ScanStream := {
  yielded : list ScanResult;
  failure : option JsError
}.

(** *** Calls in flight *)

(** An [async] call runs until it awaits a file system operation: the
    operation is issued, and the call is resumed once the operation has
    completed.  The operation takes effect on the disk, or fails, when
    it is issued; what comes later is the settling of its promise.  A
    suspended call is what it needs to go on: its arguments and the
    outcome of the operation it waits for. *)

(** [ensureDirectory(dir)] at [await fs.mkdir]. *)
Record DirCall := {
  dc_dir : string;
  dc_mkdir : Result unit
}.

(** [saveSpec(spec, specId)] at [await this.ensureDirectory], then at
    [await fs.writeFile]. *)
Inductive SaveCall :=
| SaveAwaitsDir (spec : Document) (specId : string) (inner : DirCall)
| SaveAwaitsWrite (spec : Document) (specId : string) (written : Result unit).

(** [loadSpec(specId)] at [await fs.readFile]. *)
Record LoadCall := {
  lc_specId : string;
  lc_read : Result FileContent
}.

Inductive InFlight :=
| FlightDir (c : DirCall)
| FlightSave (c : SaveCall)
| FlightLoad (c : LoadCall).

Record World := {
  files : gmap string FileContent;
  (** the error, if any, with which the [n]-th file system call fails *)
  fault : nat -> FsOp -> option JsError;
  (** the file system calls made so far, latest first *)
  trace : list FsOp;
  (** [Date.now()] *)
  clock : Z;
  (** logger calls so far, latest first *)
  log : list LogEntry;
  (** what [scanner.scan(folder)] yields *)
  scanner : string -> ScanStream;
  (** the properties of the built-ins, which the runtime fixes *)
  builtin : string -> string -> Builtin;
  (** the order in which pending operations complete: each number picks
      one of the calls that wait, counted from the oldest; once the list
      is used up the oldest completes first *)
  completes : list nat;
  (** the calls left in flight by a rejected [Promise.all] *)
  inflight : list InFlight
}.

(** ** The service object *)

Record Service := {
  config : RequiredConfig;
  specCache : SimpleCache.t;
  folderPath : string;
  catalogPath : string;
  dereferencedPath : string;
  specs : gmap string Document;
  catalog : list SpecCatalogEntry
}.

Record State := {
  this : Service;
  world : World
}.

(** The constructor. *)
Definition new_FileSystemSpecService (c : SpecServiceConfig) : Service :=
  let cfg := make_config c in
  {| config := cfg;
     specCache := SimpleCache.create (r_maxSize (r_cache cfg)) (r_ttl (r_cache cfg));
     folderPath := r_basePath cfg;
     catalogPath := path_join (r_basePath cfg) (r_catalogDir cfg);
     dereferencedPath := path_join (r_basePath cfg) (r_dereferencedDir cfg);
     specs := ∅;
     catalog := [] |}.

(** ** Computations: state, results and exceptions *)

Definition M (A : Type) : Type := State -> Result A * State.

Definition ret {A} (a : A) : M A := fun st => (Ok a, st).

Definition throw {A} (e : JsError) : M A := fun st => (Throw e, st).

Definition bind {A B} (m : M A) (k : A -> M B) : M B :=
  fun st =>
    match m st with
    | (Ok a, st') => k a st'
    | (Throw e, st') => (Throw e, st')
    end.

(** [try { m } catch (e) { h e }] *)
Definition try_catch {A} (m : M A) (h : JsError -> M A) : M A :=
  fun st =>
    match m st with
    | (Ok a, st') => (Ok a, st')
    | (Throw e, st') => h e st'
    end.

Definition gets {A} (f : State -> A) : M A := fun st => (Ok (f st), st).

Definition modify (f : State -> State) : M unit := fun st => (Ok tt, f st).

Declare Scope js_scope.
Delimit Scope js_scope with js.
Notation "x <- m ;; k" := (bind m (fun x => k))
  (at level 100, m at next level, right associativity) : js_scope.
Notation "m ;; k" := (bind m (fun _ => k))
  (at level 100, right associativity) : js_scope.
Local Open Scope js_scope.

(** The outcome of a computation as a value: what the promise of an
    [async] call made without [await] is settled with. *)
Definition attempt {A} (m : M A) : M (Result A) :=
  fun st => let (r, st') := m st in (Ok r, st').

(** [await p] on a promise settled with [r]. *)
Definition settled {A} (r : Result A) : M A := fun st => (r, st).

(** A synchronous loop with side effects only. *)
Fixpoint for_each {A} (l : list A) (body : A -> M unit) : M unit :=
  match l with
  | [] => ret tt
  | x :: rest => body x ;; for_each rest body
  end.

(** A pure loop that updates local variables [S]. *)
Definition for_of {A S} (l : list A) (init : S) (body : S -> A -> S) : S :=
  fold_left body l init.

(** *** Field updates *)

Definition with_this (f : Service -> Service) (st : State) : State :=
  {| this := f (this st); world := world st |}.

Definition with_world (f : World -> World) (st : State) : State :=
  {| this := this st; world := f (world st) |}.

Definition set_catalog (c : list SpecCatalogEntry) (s : Service) : Service :=
  {| config := config s; specCache := specCache s; folderPath := folderPath s;
     catalogPath := catalogPath s; dereferencedPath := dereferencedPath s;
     specs := specs s; catalog := c |}.

Definition set_specs (m : gmap string Document) (s : Service) : Service :=
  {| config := config s; specCache := specCache s; folderPath := folderPath s;
     catalogPath := catalogPath s; dereferencedPath := dereferencedPath s;
     specs := m; catalog := catalog s |}.

Definition set_specCache (c : SimpleCache.t) (s : Service) : Service :=
  {| config := config s; specCache := c; folderPath := folderPath s;
     catalogPath := catalogPath s; dereferencedPath := dereferencedPath s;
     specs := specs s; catalog := catalog s |}.

Definition set_files (f : gmap string FileContent) (w : World) : World :=
  {| files := f; fault := fault w; trace := trace w; clock := clock w;
     log := log w; scanner := scanner w; builtin := builtin w;
     completes := completes w; inflight := inflight w |}.

Definition set_trace (t : list FsOp) (w : World) : World :=
  {| files := files w; fault := fault w; trace := t; clock := clock w;
     log := log w; scanner := scanner w; builtin := builtin w;
     completes := completes w; inflight := inflight w |}.

Definition set_log (l : list LogEntry) (w : World) : World :=
  {| files := files w; fault := fault w; trace := trace w; clock := clock w;
     log := l; scanner := scanner w; builtin := builtin w;
     completes := completes w; inflight := inflight w |}.

Definition set_clock (t : Z) (w : World) : World :=
  {| files := files w; fault := fault w; trace := trace w; clock := t;
     log := log w; scanner := scanner w; builtin := builtin w;
     completes := completes w; inflight := inflight w |}.

Definition set_completes (l : list nat) (w : World) : World :=
  {| files := files w; fault := fault w; trace := trace w; clock := clock w;
     log := log w; scanner := scanner w; builtin := builtin w;
     completes := l; inflight := inflight w |}.

Definition set_inflight (l : list InFlight) (w : World) : World :=
  {| files := files w; fault := fault w; trace := trace w; clock := clock w;
     log := log w; scanner := scanner w; builtin := builtin w;
     completes := completes w; inflight := l |}.

(** *** Promise.all *)

(** How a stretch of an [async] call ends: with [return], or at the next
    [await] of a file system operation. *)
Inductive Step (C B : Type) :=
| Return (b : B)
| Await (c : C).
Arguments Return {C B} b.
Arguments Await {C B} c.

(** An [async] function as [Promise.all] sees it: [start] runs a call up
    to its first [await], [resume] runs a suspended call from the
    completion of its operation up to the next one; [awaits] bounds the
    operations a suspended call still waits for, and [park] records it
    among the calls in flight. *)
Record Async (A C B : Type) := {
  start : A -> M (Step C B);
  resume : C -> M (Step C B);
  awaits : C -> nat;
  park : C -> InFlight
}.
Arguments start {A C B} _ _ _.
Arguments resume {A C B} _ _ _.
Arguments awaits {A C B} _ _.
Arguments park {A C B} _ _.

(** One promise of the array. *)
Inductive Slot (C B : Type) :=
| Fulfilled (b : B)
| Rejected (e : JsError)
| Suspended (c : C).
Arguments Fulfilled {C B} b.
Arguments Rejected {C B} e.
Arguments Suspended {C B} c.

Definition slot_of {C B} (r : Result (Step C B)) : Slot C B :=
  match r with
  | Ok (Return b) => Fulfilled b
  | Ok (Await c) => Suspended c
  | Throw e => Rejected e
  end.

Definition fulfilled {C B} (s : Slot C B) : option B :=
  match s with Fulfilled b => Some b | _ => None end.

Definition rejected {C B} (s : Slot C B) : option JsError :=
  match s with Rejected e => Some e | _ => None end.

(** The value a finished stretch adds to the values in completion
    order. *)
Definition returned {C B} (r : Result (Step C B)) : list B :=
  match r with Ok (Return b) => [b] | _ => [] end.

(** The suspended calls, oldest first, each with its index. *)
Fixpoint waiting {C B} (i : nat) (slots : list (Slot C B)) : list (nat * C) :=
  match slots with
  | [] => []
  | Suspended c :: rest => (i, c) :: waiting (S i) rest
  | _ :: rest => waiting (S i) rest
  end.

(** The operations the suspended calls still wait for. *)
Definition slot_awaits {A C B} (f : Async A C B) (s : Slot C B) : nat :=
  match s with Suspended c => awaits f c | _ => 0%nat end.

Definition pending_awaits {A C B} (f : Async A C B) (slots : list (Slot C B)) : nat :=
  list_sum (map (slot_awaits f) slots).

(** [awaits] is a bound: every suspended call waits for an operation,
    and for fewer of them after each completion. *)
Definition bounded {A C B} (f : Async A C B) : Prop :=
  (forall c, (0 < awaits f c)%nat) /\
  (forall c st c' st',
     resume f c st = (Ok (Await c'), st') -> (awaits f c' < awaits f c)%nat).

(** Which of [n] pending operations completes next. *)
Definition next_completion (n : nat) : M nat :=
  w <- gets world ;;
  match completes w with
  | [] => ret 0%nat
  | k :: rest =>
      modify (with_world (set_completes rest)) ;;
      ret (k mod n)%nat
  end.

(** [l.map(f)]: every call is started, in order. *)
Fixpoint start_all {A C B} (f : Async A C B) (l : list A) : M (list (Slot C B)) :=
  match l with
  | [] => ret []
  | x :: rest =>
      r <- attempt (start f x) ;;
      slots <- start_all f rest ;;
      ret (slot_of r :: slots)
  end.

(** One completion: nothing once a promise is rejected or when no call
    waits; otherwise the world picks a suspended call, which is resumed.
    [order] collects the returned values in completion order. *)
Definition complete_one {A C B} (f : Async A C B)
    (pool : list (Slot C B) * list B) : M (list (Slot C B) * list B) :=
  let (slots, order) := pool in
  match omap rejected slots, waiting 0 slots with
  | [], oldest :: others =>
      k <- next_completion (S (length others)) ;;
      let (i, c) := nth k (oldest :: others) oldest in
      r <- attempt (resume f c) ;;
      ret (<[i := slot_of r]> slots, order ++ returned r)
  | _, _ => ret pool
  end.

Fixpoint completions {A C B} (f : Async A C B) (n : nat)
    (pool : list (Slot C B) * list B) : M (list (Slot C B) * list B) :=
  match n with
  | O => ret pool
  | S n' =>
      pool' <- complete_one f pool ;;
      completions f n' pool'
  end.

(** [await Promise.all(l.map(f))]: the values by index, and the values
    in the order in which the calls returned.  On the first rejection
    the calls still suspended are left in flight.  As many completions
    as there are operations to wait for settle the promise
    ([completions_settle]). *)
Definition promise_all {A C B} (f : Async A C B) (l : list A)
    : M (list B * list B) :=
  slots <- start_all f l ;;
  pool <- completions f (pending_awaits f slots) (slots, omap fulfilled slots) ;;
  let (slots', order) := pool in
  match omap rejected slots' with
  | e :: _ =>
      modify (with_world (fun w =>
        set_inflight (inflight w ++ map (fun ic => park f (snd ic))
                                        (waiting 0 slots')) w)) ;;
      throw e
  | [] => ret (omap fulfilled slots', order)
  end.

(** *** Collaborators: logger and [fs/promises] *)

Definition logger (lvl : Level) (msg : string) (subject : option string) : M unit :=
  modify (with_world (fun w => set_log ((lvl, msg, subject) :: log w) w)).

(** Every file system call is recorded, then fails if the world says so. *)
Definition fs_call (op : FsOp) : M unit :=
  fun st =>
    let w := world st in
    let st' := with_world (set_trace (op :: trace w)) st in
    match fault w (length (trace w)) op with
    | Some e => (Throw e, st')
    | None => (Ok tt, st')
    end.

(** [fs.mkdir(dir, { recursive: true })] *)
Definition fs_mkdir (dir : string) : M unit := fs_call (Mkdir dir).

(** [fs.writeFile(file, JSON.stringify(content))] *)
Definition fs_writeFile (file : string) (content : FileContent) : M unit :=
  fs_call (WriteFile file) ;;
  modify (with_world (fun w => set_files (<[file := content]> (files w)) w)).

(** [JSON.parse(await fs.readFile(file, "utf-8"))] up to the parse. *)
Definition fs_readFile (file : string) : M FileContent :=
  fs_call (ReadFile file) ;;
  fs <- gets (fun st => files (world st)) ;;
  match fs !! file with
  | Some content => ret content
  | None => throw (ErrnoException "ENOENT")
  end.

(** ** FileSystemSpecService: storage and lifecycle *)

Definition ensureDirectory (dir : string) : M unit :=
  try_catch (fs_mkdir dir)
    (fun e => throw (SpecServiceError ("Failed to create directory " +:+ dir)
                       INIT_ERROR (Some e))).

(** The same call in two stretches: up to [await fs.mkdir], and from
    there. *)
Definition ensureDirectory_start (dir : string) : M DirCall :=
  r <- attempt (fs_mkdir dir) ;;
  ret {| dc_dir := dir; dc_mkdir := r |}.

Definition ensureDirectory_resume (c : DirCall) : M unit :=
  try_catch (settled (dc_mkdir c))
    (fun e => throw (SpecServiceError ("Failed to create directory " +:+ dc_dir c)
                       INIT_ERROR (Some e))).

Definition ensureDirectory_async : Async string DirCall unit :=
  {| start := fun dir => c <- ensureDirectory_start dir ;; ret (Await c);
     resume := fun c => ensureDirectory_resume c ;; ret (Return tt);
     awaits := fun _ => 1%nat;
     park := FlightDir |}.

Definition ensureDirectories : M unit :=
  logger Debug "Ensuring required directories exist" None ;;
  s <- gets this ;;
  promise_all ensureDirectory_async
    [folderPath s; catalogPath s; dereferencedPath s] ;;
  ret tt.

Definition resetState : M unit :=
  logger Debug "Resetting service state" None ;;
  modify (with_this (set_catalog [])) ;;
  modify (with_this (set_specs ∅)) ;;
  modify (with_this (fun s => set_specCache (SimpleCache.clear (specCache s)) s)).

(** [this.specCache.set(specId, spec)] *)
Definition specCache_set (specId : string) (spec : Document) : M unit :=
  now <- gets (fun st => clock (world st)) ;;
  modify (with_this (fun s =>
    set_specCache (SimpleCache.set now specId spec (specCache s)) s)).

(** [this.specCache.get(specId)] *)
Definition specCache_get (specId : string) : M (option Document) :=
  now <- gets (fun st => clock (world st)) ;;
  c <- gets (fun st => specCache (this st)) ;;
  let (hit, c') := SimpleCache.get now specId c in
  modify (with_this (set_specCache c')) ;;
  ret hit.

Definition loadSpec (specId : string) : M Document :=
  logger Debug "Loading specification" (Some specId) ;;
  cached <- specCache_get specId ;;
  match cached with
  | Some d =>
      logger Debug "Returning cached specification" (Some specId) ;;
      ret d
  | None =>
      try_catch
        (specPath <- gets (fun st =>
           path_join (dereferencedPath (this st)) (specId +:+ ".json")) ;;
         content <- fs_readFile specPath ;;
         spec <- match content with
                 | FSpec d => ret d
                 | _ => throw SyntaxError
                 end ;;
         specCache_set specId spec ;;
         logger Info "Successfully loaded specification" (Some specId) ;;
         ret spec)
        (fun e =>
           logger Err "Failed to load specification" (Some specId) ;;
           if is_ENOENT e
           then throw (SpecServiceError ("Specification not found: " +:+ specId)
                         LOAD_ERROR None)
           else throw (SpecServiceError ("Failed to load specification " +:+ specId)
                         LOAD_ERROR (Some e)))
  end.

(** The [catch] of [loadSpec]. *)
Definition loadSpec_failed {A} (specId : string) (e : JsError) : M A :=
  logger Err "Failed to load specification" (Some specId) ;;
  if is_ENOENT e
  then throw (SpecServiceError ("Specification not found: " +:+ specId)
                LOAD_ERROR None)
  else throw (SpecServiceError ("Failed to load specification " +:+ specId)
                LOAD_ERROR (Some e)).

(** [loadSpec] in two stretches: up to [await fs.readFile], if the cache
    does not answer, and from there. *)
Definition loadSpec_start (specId : string) : M (Step LoadCall Document) :=
  logger Debug "Loading specification" (Some specId) ;;
  cached <- specCache_get specId ;;
  match cached with
  | Some d =>
      logger Debug "Returning cached specification" (Some specId) ;;
      ret (Return d)
  | None =>
      specPath <- gets (fun st =>
        path_join (dereferencedPath (this st)) (specId +:+ ".json")) ;;
      r <- attempt (fs_readFile specPath) ;;
      ret (Await {| lc_specId := specId; lc_read := r |})
  end.

Definition loadSpec_resume (c : LoadCall) : M (Step LoadCall Document) :=
  try_catch
    (content <- settled (lc_read c) ;;
     spec <- match content with
             | FSpec d => ret d
             | _ => throw SyntaxError
             end ;;
     specCache_set (lc_specId c) spec ;;
     logger Info "Successfully loaded specification" (Some (lc_specId c)) ;;
     ret (Return spec))
    (loadSpec_failed (lc_specId c)).

Definition loadSpec_async : Async string LoadCall Document :=
  {| start := loadSpec_start;
     resume := loadSpec_resume;
     awaits := fun _ => 1%nat;
     park := FlightLoad |}.

Definition saveSpec (spec : Document) (specId : string) : M unit :=
  logger Debug "Persisting specification" (Some specId) ;;
  try_catch
    (dir <- gets (fun st => dereferencedPath (this st)) ;;
     ensureDirectory dir ;;
     fs_writeFile (path_join dir (specId +:+ ".json")) (FSpec spec) ;;
     modify (with_this (fun s => set_specs (<[specId := spec]> (specs s)) s)) ;;
     specCache_set specId spec ;;
     logger Info "Successfully persisted specification" (Some specId))
    (fun e =>
       logger Err "Failed to persist specification" (Some specId) ;;
       throw (SpecServiceError ("Failed to persist specification " +:+ specId)
                PERSIST_ERROR (Some e))).

(** The [catch] of [saveSpec]. *)
Definition saveSpec_failed {A} (specId : string) (e : JsError) : M A :=
  logger Err "Failed to persist specification" (Some specId) ;;
  throw (SpecServiceError ("Failed to persist specification " +:+ specId)
           PERSIST_ERROR (Some e)).

(** [saveSpec] in three stretches: up to the [await] in
    [ensureDirectory], from there to [await fs.writeFile], and from
    there. *)
Definition saveSpec_start (spec : Document) (specId : string) : M SaveCall :=
  logger Debug "Persisting specification" (Some specId) ;;
  dir <- gets (fun st => dereferencedPath (this st)) ;;
  inner <- ensureDirectory_start dir ;;
  ret (SaveAwaitsDir spec specId inner).

Definition saveSpec_resume (c : SaveCall) : M (Step SaveCall unit) :=
  match c with
  | SaveAwaitsDir spec specId inner =>
      try_catch
        (ensureDirectory_resume inner ;;
         dir <- gets (fun st => dereferencedPath (this st)) ;;
         written <- attempt (fs_writeFile (path_join dir (specId +:+ ".json"))
                               (FSpec spec)) ;;
         ret (Await (SaveAwaitsWrite spec specId written)))
        (saveSpec_failed specId)
  | SaveAwaitsWrite spec specId written =>
      try_catch
        (settled written ;;
         modify (with_this (fun s => set_specs (<[specId := spec]> (specs s)) s)) ;;
         specCache_set specId spec ;;
         logger Info "Successfully persisted specification" (Some specId) ;;
         ret (Return tt))
        (saveSpec_failed specId)
  end.

Definition saveSpec_awaits (c : SaveCall) : nat :=
  match c with
  | SaveAwaitsDir _ _ _ => 2%nat
  | SaveAwaitsWrite _ _ _ => 1%nat
  end.

Definition saveSpecCatalog (c : list SpecCatalogEntry) : M unit :=
  dir <- gets (fun st => catalogPath (this st)) ;;
  if negb (truthy_string dir)
  then throw (Error "FileSystemSpecService not initialized")
  else fs_writeFile (path_join dir "catalog.json") (FCatalog c).

Definition loadSpecCatalog : M (list SpecCatalogEntry) :=
  try_catch
    (dir <- gets (fun st => catalogPath (this st)) ;;
     content <- fs_readFile (path_join dir "catalog.json") ;;
     match content with
     | FCatalog c => ret c
     | _ => throw SyntaxError
     end)
    (fun e => if is_ENOENT e then ret [] else throw e).

Definition loadExistingCatalog : M bool :=
  try_catch
    (logger Debug "Loading existing catalog" None ;;
     c <- loadSpecCatalog ;;
     modify (with_this (set_catalog c)) ;;
     loaded <- promise_all loadSpec_async (map (fun e => specId (uri e)) c) ;;
     for_each (combine c (fst loaded)) (fun '(e, spec) =>
       let specId := specId (uri e) in
       modify (with_this (fun s => set_specs (<[specId := spec]> (specs s)) s)) ;;
       specCache_set specId spec) ;;
     logger Info "Successfully loaded existing catalog" None ;;
     ret true)
    (fun e =>
       logger Warn "Failed to load existing catalog" None ;;
       resetState ;;
       ret false).

(** *** Catalog extraction in [scanAndSave] *)

Definition is_pseudo_method (method : string) : bool :=
  String.eqb method "parameters" || String.eqb method "$ref".

Definition extract_operations (d : Document) : list SpecOperationEntry :=
  for_of (paths d) [] (fun ops '(path, pathItem) =>
    for_of pathItem ops (fun ops '(method, operation) =>
      if is_pseudo_method method then ops
      else ops ++ [{| oe_path := path;
                      oe_method := method;
                      oe_title := get_summary operation;
                      oe_description := get_description operation;
                      oe_group := match get_tags operation with
                                  | Some (t :: _) => Some t
                                  | _ => None
                                  end;
                      oe_operationId := get_operationId operation |}])).

Definition extract_schemas (d : Document) : list SpecSchemaEntry :=
  match components_schemas d with
  | Some ss =>
      for_of ss [] (fun acc '(name, sch) =>
        acc ++ [{| se_name := name;
                   se_description := sch_description sch;
                   se_specId := None |}])
  | None => []
  end.

Definition make_entry (specId : string) (d : Document) : SpecCatalogEntry :=
  {| uri := {| specId := specId; type := Specification; identifier := specId |};
     ce_description := info_description d;
     operations := extract_operations d;
     schemas := extract_schemas d |}.

(** *** The catalog builder *)

(** The loop over the scanner's items: [pending] is the local array
    [pendingOperations].  With [spec] undefined, [spec.paths] throws a
    [TypeError], which the inner [try] catches. *)
Fixpoint scan_loop (items : list ScanResult)
    (pending : list (Document * SpecCatalogEntry))
    : M (list (Document * SpecCatalogEntry)) :=
  match items with
  | [] => ret pending
  | r :: rest =>
      match error r with
      | Some _ =>
          logger Warn "Error scanning file" (Some (filename r)) ;;
          scan_loop rest pending
      | None =>
          pending' <- try_catch
            (match spec r with
             | Some d => ret (pending ++ [(d, make_entry (sr_specId r) d)])
             | None => throw TypeError
             end)
            (fun _ =>
               logger Warn "Error processing specification" (Some (filename r)) ;;
               ret pending) ;;
          scan_loop rest pending'
      end
  end.

(** The function mapped over [pendingOperations]:
    [async ({ spec, entry }) => { await this.saveSpec(spec, entry.uri.specId);
    tempCatalog.push(entry); }].  It returns where [saveSpec] returns,
    and the entry it pushes is the value collected in completion
    order. *)
Definition persist_async
    : Async (Document * SpecCatalogEntry) (SpecCatalogEntry * SaveCall)
            SpecCatalogEntry :=
  {| start := fun '(spec, entry) =>
       c <- saveSpec_start spec (specId (uri entry)) ;;
       ret (Await (entry, c));
     resume := fun '(entry, c) =>
       r <- saveSpec_resume c ;;
       ret (match r with
            | Return _ => Return entry
            | Await c' => Await (entry, c')
            end);
     awaits := fun '(_, c) => saveSpec_awaits c;
     park := fun '(_, c) => FlightSave c |}.

(** The [try] block of [scanAndSave]. *)
Definition scanAndSave_try (folder : string) : M unit :=
  stream <- gets (fun st => scanner (world st) folder) ;;
  pending <- scan_loop (yielded stream) [] ;;
  match failure stream with
  | Some e => throw e
  | None => ret tt
  end ;;
  ensureDirectories ;;
  saved <- promise_all persist_async pending ;;
  let tempCatalog := snd saved in
  saveSpecCatalog tempCatalog ;;
  modify (with_this (set_catalog tempCatalog)) ;;
  logger Info "Successfully completed scan and persist operation" None.

Definition scanAndSave (folder : string) : M unit :=
  logger Debug "Starting scan and persist operation" (Some folder) ;;
  try_catch (scanAndSave_try folder)
    (fun e =>
       logger Err "Failed to scan and persist specifications" None ;;
       throw (SpecServiceError "Failed to scan and persist specifications"
                SCAN_ERROR (Some e))).

Definition getApiCatalog : M (list SpecCatalogEntry) :=
  gets (fun st => catalog (this st)).

Definition initialize : M unit :=
  logger Debug "Initializing FileSystemSpecService" None ;;
  try_catch
    (ensureDirectories ;;
     loadExistingCatalog ;;
     folder <- gets (fun st => folderPath (this st)) ;;
     scanAndSave folder ;;
     logger Info "Successfully initialized FileSystemSpecService" None)
    (fun e =>
       logger Err "Failed to initialize FileSystemSpecService" None ;;
       resetState ;;
       throw (SpecServiceError "Failed to initialize FileSystemSpecService"
                INIT_ERROR (Some e))).

Definition refresh : M unit :=
  folder <- gets (fun st => folderPath (this st)) ;;
  if negb (truthy_string folder)
  then throw (Error "FileSystemSpecService not initialized")
  else initialize.

(** *** After a rejected [Promise.all] *)

(** A call left in flight goes on when its operation completes; nothing
    awaits it any more, so what it returns or throws is dropped. *)
Definition resume_inflight (c : InFlight) : M (option InFlight) :=
  match c with
  | FlightDir c =>
      attempt (ensureDirectory_resume c) ;;
      ret None
  | FlightSave c =>
      r <- attempt (saveSpec_resume c) ;;
      ret (match r with
           | Ok (Await c') => Some (FlightSave c')
           | _ => None
           end)
  | FlightLoad c =>
      attempt (loadSpec_resume c) ;;
      ret None
  end.

Definition inflight_awaits (c : InFlight) : nat :=
  match c with
  | FlightSave c => saveSpec_awaits c
  | _ => 1%nat
  end.

Fixpoint settle_loop (n : nat) : M unit :=
  match n with
  | O => ret tt
  | S n' =>
      calls <- gets (fun st => inflight (world st)) ;;
      match calls with
      | [] => ret tt
      | oldest :: others =>
          k <- next_completion (S (length others)) ;;
          next <- resume_inflight (nth k calls oldest) ;;
          modify (with_world (fun w =>
            set_inflight (take k (inflight w) ++ option_list next
                          ++ drop (S k) (inflight w)) w)) ;;
          settle_loop n'
      end
  end.

(** Every call in flight runs to its end. *)
Definition settle : M unit :=
  calls <- gets (fun st => inflight (world st)) ;;
  settle_loop (list_sum (map inflight_awaits calls)).

(** ** FileSystemSpecService: queries *)

(** [String.prototype.toLowerCase] on ASCII text. *)
Definition lower_ascii (c : ascii) : ascii :=
  let n := nat_of_ascii c in
  if ((65 <=? n) && (n <=? 90))%nat then ascii_of_nat (n + 32) else c.

Fixpoint toLowerCase (s : string) : string :=
  match s with
  | EmptyString => EmptyString
  | String c rest => String (lower_ascii c) (toLowerCase rest)
  end.

(** [s.includes(q)] *)
Fixpoint includes (s q : string) : bool :=
  String.prefix q s ||
  match s with
  | EmptyString => false
  | String _ rest => includes rest q
  end.

(** [.filter(Boolean)] on an array of possibly undefined strings. *)
Fixpoint filter_Boolean (l : list (option string)) : list string :=
  match l with
  | [] => []
  | Some s :: rest =>
      if truthy_string s then s :: filter_Boolean rest else filter_Boolean rest
  | None :: rest => filter_Boolean rest
  end.

(** The text [searchOperations] searches in. *)
Definition searchText (operation : PathItemValue) : string :=
  toLowerCase
    (String.concat " "
       (filter_Boolean
          ([get_operationId operation; get_summary operation;
            get_description operation]
           ++ map Some (default [] (get_tags operation))))).

(** The catalog entries a query looks at: [if (specId)] is false for an
    absent and for an empty [specId]. *)
Definition targetSpecs (s : Service) (id : option string) : list SpecCatalogEntry :=
  match id with
  | Some i =>
      if truthy_string i
      then match List.find (fun e => String.eqb (specId (uri e)) i) (catalog s) with
           | Some e => [e]
           | None => []
           end
      else catalog s
  | None => catalog s
  end.

Definition operation_uri (id : string) (operation : PathItemValue) : string :=
  "apis://" +:+ id +:+ "/operations/" +:+ interpolate (get_operationId operation).

Definition searchOperations (query : string) (id : option string)
    : M (list LoadOperationResult) :=
  s <- gets this ;;
  ret (for_of (targetSpecs s id) [] (fun results e =>
    match store_get (specs s) (specId (uri e)) with
    | Inherited | Undefined => results
    | Own specDoc =>
        for_of (paths specDoc) results (fun results '(path, pathItem) =>
          for_of pathItem results (fun results '(method, operation) =>
            if is_pseudo_method method then results
            else if negb (truthy_value operation) then results
            else if includes (searchText operation) (toLowerCase query)
            then results ++ [{| lo_path := path;
                                lo_method := method;
                                lo_operation := operation;
                                lo_specId := specId (uri e);
                                lo_uri := operation_uri (specId (uri e)) operation |}]
            else results))
    end)).

(** The candidates [searchSchemas] hands to Fuse. *)
Definition schemaEntries (s : Service) (id : option string) : list SpecSchemaEntry :=
  for_of (targetSpecs s id) [] (fun acc e =>
    acc ++ map (fun sch => {| se_name := se_name sch;
                              se_description := se_description sch;
                              se_specId := Some (specId (uri e)) |})
               (schemas e)).

Section Fuse.

(** [new Fuse(list, { includeScore: true, threshold: 0.2,
    keys: ["name", "description"] }).search(query)], mapped to the
    items: the package fuse.js is a dependency, not part of the
    sources. *)
Variable fuse_search : list SpecSchemaEntry -> string -> list SpecSchemaEntry.

Definition searchSchemas (query : string) (id : option string)
    : M (list SpecSchemaEntry) :=
  s <- gets this ;;
  ret (fuse_search (schemaEntries s id) query).

End Fuse.

(** A loop whose body may [return]. *)
Fixpoint for_return {A R} (l : list A) (body : A -> option R) : option R :=
  match l with
  | [] => None
  | x :: rest =>
      match body x with
      | Some r => Some r
      | None => for_return rest body
      end
  end.

(** [this.specs[specId]] may be a built-in: it is truthy, and has no
    [components]; a built-in found under [schemaName] is truthy too, and
    has no [description]. *)
Definition findSchemaByName (id schemaName : string) : M (option LoadSchemaResult) :=
  s <- gets this ;;
  match store_get (specs s) id with
  | Undefined => ret None
  | Inherited => ret None
  | Own spec =>
      match components_schemas spec with
      | None => ret None
      | Some ss =>
          match js_get ss schemaName with
          | Undefined => ret None
          | Inherited =>
              ret (Some {| ls_name := schemaName;
                           ls_description := None;
                           ls_schema := SBuiltin schemaName;
                           ls_uri := "apis://" +:+ id +:+ "/schemas/" +:+ schemaName |})
          | Own sch =>
              ret (Some {| ls_name := schemaName;
                           ls_description := sch_description sch;
                           ls_schema := SSchema sch;
                           ls_uri := "apis://" +:+ id +:+ "/schemas/" +:+ schemaName |})
          end
      end
  end.

(** [x === y] for a possibly undefined [x] and a string [y]. *)
Definition strict_eq (x : option string) (y : string) : bool :=
  match x with
  | Some s => String.eqb s y
  | None => false
  end.

(** A built-in under [specId] has no [paths]: [for ... in] over
    [undefined] runs no iteration. *)
Definition findOperationById (id operationId : string) : M (option LoadOperationResult) :=
  s <- gets this ;;
  match store_get (specs s) id with
  | Undefined => ret None
  | Inherited => ret None
  | Own spec =>
      ret (for_return (paths spec) (fun '(path, pathItem) =>
             for_return pathItem (fun '(method, v) =>
               if strict_eq (get_operationId v) operationId
               then Some {| lo_path := path;
                            lo_method := method;
                            lo_operation := v;
                            lo_specId := id;
                            lo_uri := "apis://" +:+ id +:+ "/operations/" +:+ operationId |}
               else None)))
  end.

(** A built-in under [specId] has no [paths], and [spec.paths[path]]
    then reads a property of [undefined].  A built-in under [path] or
    under [method] is an operation like any other truthy value. *)
Definition findOperationByPathAndMethod (id path method : string)
    : M (option LoadOperationResult) :=
  s <- gets this ;;
  let found operation :=
    ret (Some {| lo_path := path;
                 lo_method := method;
                 lo_operation := operation;
                 lo_specId := id;
                 lo_uri := operation_uri id operation |}) in
  match store_get (specs s) id with
  | Undefined => ret None
  | Inherited => throw TypeError
  | Own spec =>
      match js_get (paths spec) path with
      | Undefined => ret None
      | Inherited =>
          known <- gets (fun st => builtin (world st) path method) ;;
          match known with
          | Truthy => found (VBuiltin [path; method])
          | Falsy => ret None
          | Throws => throw TypeError
          end
      | Own pathItem =>
          match js_get pathItem method with
          | Undefined => ret None
          | Inherited => found (VBuiltin [method])
          | Own operation =>
              if negb (truthy_value operation) then ret None
              else found operation
          end
      end
  end.

(** ** Sample data *)

Definition listPets : OperationObject :=
  {| op_operationId := Some "listPets";
     op_summary := Some "List all pets";
     op_description := None;
     op_tags := Some ["pets"] |}.

Definition createPet : OperationObject :=
  {| op_operationId := Some "createPet";
     op_summary := Some "Create a pet";
     op_description := None;
     op_tags := Some ["pets"] |}.

Definition petstore : Document :=
  {| info_description := Some "Pet store";
     paths := [("/pets", [("parameters", VArray);
                          ("get", VOperation listPets);
                          ("post", VOperation createPet)])];
     components_schemas :=
       Some [("Pet", {| sch_description := Some "A pet";
                        sch_type := Some "object" |})] |}.

Definition orders : Document :=
  {| info_description := None;
     paths := [("/orders", [("get", VOperation
                 {| op_operationId := Some "listOrders";
                    op_summary := None;
                    op_description := None;
                    op_tags := None |})])];
     components_schemas := None |}.

Definition sample_config : SpecServiceConfig :=
  {| basePath := "specs";
     catalogDir := None;
     dereferencedDir := None;
     retryAttempts := None;
     retryDelay := None;
     cache := None |}.

(** A configuration with every optional value falsy. *)
Definition zero_config : SpecServiceConfig :=
  {| basePath := "specs";
     catalogDir := Some "";
     dereferencedDir := Some "";
     retryAttempts := Some (Num 0);
     retryDelay := Some (Num 0);
     cache := Some {| maxSize := Some (Num 0); ttl := Some (Num 0) |} |}.

Definition no_scan : ScanStream := {| yielded := []; failure := None |}.

(** The static methods of [Object] in ECMAScript 2019. *)
Definition Object_static : list string :=
  ["assign"; "create"; "defineProperties"; "defineProperty"; "entries";
   "freeze"; "fromEntries"; "getOwnPropertyDescriptor";
   "getOwnPropertyDescriptors"; "getOwnPropertyNames";
   "getOwnPropertySymbols"; "getPrototypeOf"; "is"; "isExtensible";
   "isFrozen"; "isSealed"; "keys"; "preventExtensions"; "seal";
   "setPrototypeOf"; "values"].

(** The built-ins as ECMAScript 2019 defines them.  Under [__proto__]
    is [Object.prototype] itself, whose own [__proto__] is [null].  The
    other members are functions: each has a [name], a [length] that is
    [0] for three of them, [apply], [bind] and [call], and what it
    inherits from [Object.prototype]; reading [caller] or [arguments]
    throws; the constructor [Object] has a [prototype] and its static
    methods. *)
Definition node_builtin (member key : string) : Builtin :=
  if String.eqb member "__proto__"
  then if inherited key && negb (String.eqb key "__proto__")
       then Truthy else Falsy
  else if inherited key then Truthy
  else if String.eqb key "name" then Truthy
  else if String.eqb key "length"
  then if existsb (String.eqb member) ["toString"; "valueOf"; "toLocaleString"]
       then Falsy else Truthy
  else if existsb (String.eqb key) ["apply"; "bind"; "call"] then Truthy
  else if existsb (String.eqb key) ["caller"; "arguments"] then Throws
  else if String.eqb member "constructor"
  then if String.eqb key "prototype" || existsb (String.eqb key) Object_static
       then Truthy else Falsy
  else Falsy.

(** An empty disk on which nothing fails. *)
Definition quiet_world : World :=
  {| files := ∅;
     fault := fun _ _ => None;
     trace := [];
     clock := 0;
     log := [];
     scanner := fun _ => no_scan;
     builtin := node_builtin;
     completes := [];
     inflight := [] |}.

Definition fresh_state : State :=
  {| this := new_FileSystemSpecService sample_config; world := quiet_world |}.

(** A service holding [petstore] in catalog and store. *)
Definition petstore_state : State :=
  with_this (fun s =>
    set_catalog [make_entry "petstore" petstore]
      (set_specs {[ "petstore" := petstore ]} s)) fresh_state.

(** ** The search contract, as a filter *)

(** The operations of a document in its own enumeration order: every
    key of every path item except [parameters] and [$ref], with the
    value under it when that value is truthy. *)
Definition document_operations (d : Document)
    : list (string * string * PathItemValue) :=
  flat_map (fun '(path, pathItem) =>
    flat_map (fun '(method, v) =>
      if is_pseudo_method method || negb (truthy_value v)
      then []
      else [(path, method, v)]) pathItem) (paths d).

Definition operation_result (id : string) (x : string * string * PathItemValue)
    : LoadOperationResult :=
  let '(path, method, v) := x in
  {| lo_path := path;
     lo_method := method;
     lo_operation := v;
     lo_specId := id;
     lo_uri := "apis://" +:+ id +:+ "/operations/"
               +:+ interpolate (get_operationId v) |}.

(** The fields a corpus is built from, tags last. *)
Definition corpus_parts (operation : PathItemValue) : list (option string) :=
  [get_operationId operation; get_summary operation; get_description operation]
  ++ map Some (default [] (get_tags operation)).

(** The corpus in the words of the specification: the concatenation of
    the fields that are present. *)
Definition corpus_concatenated (operation : PathItemValue) : string :=
  String.concat "" (omap id (corpus_parts operation)).

(** The corpus of the code: the fields that are present and not empty,
    joined by single spaces. *)
Definition corpus_joined (operation : PathItemValue) : string :=
  String.concat " " (filter_Boolean (corpus_parts operation)).

(** Substring match after case folding of both sides. *)
Definition matches (corpus : PathItemValue -> string) (query : string)
    (x : string * string * PathItemValue) : bool :=
  includes (toLowerCase (corpus (snd x))) (toLowerCase query).

(** Exactly the matching operations: per document in enumeration order,
    documents one after the other in catalog order. *)
Definition search_by (corpus : PathItemValue -> string) (s : Service)
    (query : string) (id : option string) : list LoadOperationResult :=
  flat_map (fun e =>
    match specs s !! specId (uri e) with
    | None => []
    | Some d =>
        map (operation_result (specId (uri e)))
            (List.filter (matches corpus query) (document_operations d))
    end) (targetSpecs s id).

(** The claim as written, with the concatenated corpus. *)
Definition searchOperations_by_concatenation : Prop :=
  forall st query id,
    searchOperations query id st
    = (Ok (search_by corpus_concatenated (this st) query id), st).

(** ** Sample scans and worlds *)

Definition scanned (name : string) (d : Document) : ScanResult :=
  {| filename := name +:+ ".json";
     spec := Some d;
     sr_specId := name;
     error := None |}.

Definition unreadable (name : string) : ScanResult :=
  {| filename := name +:+ ".yaml";
     spec := None;
     sr_specId := name;
     error := Some SyntaxError |}.

Definition with_scanner (f : string -> ScanStream) (w : World) : World :=
  {| files := files w; fault := fault w; trace := trace w; clock := clock w;
     log := log w; scanner := f; builtin := builtin w;
     completes := completes w; inflight := inflight w |}.

Definition with_scan (items : list ScanResult) (w : World) : World :=
  with_scanner (fun _ => {| yielded := items; failure := None |}) w.

Definition with_fault (f : nat -> FsOp -> option JsError) (w : World) : World :=
  {| files := files w; fault := f; trace := trace w; clock := clock w;
     log := log w; scanner := scanner w; builtin := builtin w;
     completes := completes w; inflight := inflight w |}.

(** The catalog file cannot be written. *)
Definition catalog_write_fails (n : nat) (op : FsOp) : option JsError :=
  match op with
  | WriteFile f =>
      if String.eqb f "specs/_catalog/catalog.json"
      then Some (ErrnoException "EACCES")
      else None
  | _ => None
  end.

(** A disk that holds the dereferenced [petstore] only. *)
Definition stored_state : State :=
  with_world (set_files {[ "specs/_dereferenced/petstore.json" := FSpec petstore ]})
    fresh_state.

(** A service that committed [orders] earlier; the scanner now yields
    [petstore], and the catalog file cannot be written. *)
Definition orders_state : State :=
  with_this (fun s =>
    set_catalog [make_entry "orders" orders]
      (set_specs {[ "orders" := orders ]} s)) fresh_state.

Definition failing_commit_state : State :=
  with_world (fun w =>
    with_fault catalog_write_fails (with_scan [scanned "petstore" petstore] w))
    orders_state.

(** A new service over a disk that holds the catalog and the document
    of an earlier build of [orders]; [orders] is gone from the source
    folder, where the scanner now finds [petstore]. *)
Definition restart_state : State :=
  with_world (fun w =>
    with_scan [scanned "petstore" petstore]
      (set_files
         (<[ "specs/_catalog/catalog.json" := FCatalog [make_entry "orders" orders] ]>
            {[ "specs/_dereferenced/orders.json" := FSpec orders ]}) w))
    fresh_state.

(** Three scanned files, the second of which could not be read. *)
Definition three_files : list ScanResult :=
  [scanned "petstore" petstore; unreadable "broken"; scanned "orders" orders].

Definition three_files_state : State :=
  with_world (with_scan three_files) fresh_state.

(** ** Invariants used by the proofs *)

(** What no method but the catalog swap and [resetState] changes: the
    readonly fields, the catalog, and how the world answers; the log
    only grows. *)
Record frame (st st' : State) : Prop := {
  frame_config : config (this st') = config (this st);
  frame_folderPath : folderPath (this st') = folderPath (this st);
  frame_catalogPath : catalogPath (this st') = catalogPath (this st);
  frame_dereferencedPath : dereferencedPath (this st') = dereferencedPath (this st);
  frame_catalog : catalog (this st') = catalog (this st);
  frame_fault : fault (world st') = fault (world st);
  frame_scanner : scanner (world st') = scanner (world st);
  frame_log : exists l, log (world st') = l ++ log (world st)
}.

(** A computation keeps [R] whether it returns or throws. *)
Definition preserves (R : State -> State -> Prop) {A} (m : M A) : Prop :=
  forall st r st', m st = (r, st') -> R st st'.

(** No file system call fails. *)
Definition fault_free (st : State) : Prop :=
  forall n op, fault (world st) n op = None.

(** The paths are the ones the constructor computes. *)
Definition constructed (s : Service) : Prop :=
  catalogPath s = path_join (folderPath s) (r_catalogDir (config s)) /\
  dereferencedPath s = path_join (folderPath s) (r_dereferencedDir (config s)).

(** The items of a scan that reach the pending list, with the catalog
    entry built for each. *)
Fixpoint accepted (items : list ScanResult) : list (Document * SpecCatalogEntry) :=
  match items with
  | [] => []
  | r :: rest =>
      match error r, spec r with
      | None, Some d => (d, make_entry (sr_specId r) d) :: accepted rest
      | _, _ => accepted rest
      end
  end.

(** The store after the pending documents have been saved in order. *)
Definition store_all (pending : list (Document * SpecCatalogEntry))
    (m : gmap string Document) : gmap string Document :=
  fold_left (fun m '(d, e) => <[specId (uri e) := d]> m) pending m.

(** A computation keeps [R] whenever it throws. *)
Definition on_throw (R : State -> State -> Prop) {A} (m : M A) : Prop :=
  forall st e st', m st = (Throw e, st') -> R st st'.

Definition has_error (r : ScanResult) : bool :=
  match error r with
  | Some _ => true
  | None => false
  end.

(** The warning logged for a scanned item whose [error] is set. *)
Definition scan_warning (r : ScanResult) : LogEntry :=
  (Warn, "Error scanning file", Some (filename r)).

Definition catalog_ids (c : list SpecCatalogEntry) : list string :=
  map (fun e => specId (uri e)) c.

(** The store is left as it was. *)
Definition same_store (st st' : State) : Prop :=
  specs (this st') = specs (this st).

(** The same calls are in flight. *)
Definition same_inflight (st st' : State) : Prop :=
  inflight (world st') = inflight (world st).

(** ** Notions used by the further properties *)

(** A JavaScript object has each key once. *)
Definition unique_keys {A} (obj : list (string * A)) : Prop :=
  NoDup (map fst obj).

Definition well_keyed (d : Document) : Prop :=
  unique_keys (paths d) /\
  forall path pathItem, (path, pathItem) ∈ paths d -> unique_keys pathItem.

(** The file of a document and the file of the catalog. *)
Definition spec_file (s : Service) (id : string) : string :=
  path_join (dereferencedPath s) (id +:+ ".json").

Definition catalog_file (s : Service) : string :=
  path_join (catalogPath s) "catalog.json".

(** Every operation of every document in scope, unfiltered. *)
Definition all_operations (s : Service) (id : option string)
    : list LoadOperationResult :=
  flat_map (fun e =>
    match specs s !! specId (uri e) with
    | None => []
    | Some d => map (operation_result (specId (uri e))) (document_operations d)
    end) (targetSpecs s id).

(** The catalog entry of one key of a path item. *)
Definition operation_entry (path method : string) (v : PathItemValue)
    : SpecOperationEntry :=
  {| oe_path := path;
     oe_method := method;
     oe_title := get_summary v;
     oe_description := get_description v;
     oe_group := match get_tags v with
                 | Some (t :: _) => Some t
                 | _ => None
                 end;
     oe_operationId := get_operationId v |}.

(** What stays fixed over the whole life of a service: the readonly
    fields and how the world answers. *)
Record setting (st st' : State) : Prop := {
  setting_config : config (this st') = config (this st);
  setting_folderPath : folderPath (this st') = folderPath (this st);
  setting_catalogPath : catalogPath (this st') = catalogPath (this st);
  setting_dereferencedPath :
    dereferencedPath (this st') = dereferencedPath (this st);
  setting_fault : fault (world st') = fault (world st);
  setting_scanner : scanner (world st') = scanner (world st)
}.

(** Nothing but the log has changed. *)
Definition only_logged (st st' : State) : Prop :=
  this st' = this st /\
  files (world st') = files (world st) /\
  trace (world st') = trace (world st) /\
  clock (world st') = clock (world st) /\
  fault (world st') = fault (world st) /\
  scanner (world st') = scanner (world st).

(** More sample worlds. *)

(** No directory can be created. *)
Definition mkdir_fails (n : nat) (op : FsOp) : option JsError :=
  match op with
  | Mkdir _ => Some (ErrnoException "EACCES")
  | _ => None
  end.

Definition readonly_state : State :=
  with_world (with_fault mkdir_fails) fresh_state.

(** The scanner yields [petstore] and then throws. *)
Definition broken_scan_state : State :=
  with_world
    (with_scanner (fun _ => {| yielded := [scanned "petstore" petstore];
                               failure := Some (ErrnoException "EIO") |}))
    fresh_state.

Definition petstore_scan_state : State :=
  with_world (with_scan [scanned "petstore" petstore]) fresh_state.

(** The document of [petstore] cannot be written. *)
Definition petstore_write_fails (n : nat) (op : FsOp) : option JsError :=
  match op with
  | WriteFile f =>
      if String.eqb f "specs/_dereferenced/petstore.json"
      then Some (ErrnoException "EACCES")
      else None
  | _ => None
  end.

(** The scanner yields [petstore] and [orders], and the document of
    [petstore] cannot be written.  The directories asked for by the two
    calls of [ensureDirectories] are there in the order asked.  Of the
    two calls of [saveSpec], the directory of the first is there first,
    then the one of the second; then the write of the first completes:
    it has failed. *)
Definition half_written_state : State :=
  with_world (fun w =>
    set_completes [0; 0; 0; 0; 0; 0; 0; 1; 0]%nat
      (with_fault petstore_write_fails
         (with_scan [scanned "petstore" petstore; scanned "orders" orders] w)))
    fresh_state.

(** ** Invariants of the calls in flight *)

(** How the promise of [ensureDirectory(dir)] stands, when its
    [fs.mkdir] was the [n]-th file system call of a world that fails as
    [failing] says. *)
Definition dir_slot (failing : nat -> FsOp -> option JsError) (n : nat)
    (dir : string) (s : Slot DirCall unit) : Prop :=
  match s with
  | Suspended c =>
      dc_dir c = dir /\
      dc_mkdir c = match failing n (Mkdir dir) with
                   | Some e => Throw e
                   | None => Ok tt
                   end
  | Fulfilled _ => failing n (Mkdir dir) = None
  | Rejected e =>
      exists cause,
        failing n (Mkdir dir) = Some cause /\
        e = SpecServiceError ("Failed to create directory " +:+ dir)
              INIT_ERROR (Some cause)
  end.

(** The pending item a suspended call of [persist_async] works on. *)
Definition call_item (s : Slot (SpecCatalogEntry * SaveCall) SpecCatalogEntry)
    : option (Document * SpecCatalogEntry) :=
  match s with
  | Suspended (entry, SaveAwaitsDir spec _ _) => Some (spec, entry)
  | Suspended (entry, SaveAwaitsWrite spec _ _) => Some (spec, entry)
  | _ => None
  end.

(** The call saves under the specId of its entry. *)
Definition call_keyed (s : Slot (SpecCatalogEntry * SaveCall) SpecCatalogEntry)
    : Prop :=
  match s with
  | Suspended (entry, SaveAwaitsDir _ id _) => id = specId (uri entry)
  | Suspended (entry, SaveAwaitsWrite _ id _) => id = specId (uri entry)
  | _ => True
  end.

(** No operation of the call has failed. *)
Definition call_ok (s : Slot (SpecCatalogEntry * SaveCall) SpecCatalogEntry)
    : Prop :=
  match s with
  | Suspended (_, SaveAwaitsDir _ _ inner) => dc_mkdir inner = Ok tt
  | Suspended (_, SaveAwaitsWrite _ _ written) => written = Ok tt
  | Fulfilled _ => True
  | Rejected _ => False
  end.

(** The directories [ensureDirectories] asks for, in the order asked. *)
Definition directories (s : Service) : list string :=
  [folderPath s; catalogPath s; dereferencedPath s].

(** A service that committed a document under [broken] earlier; the
    scanner now yields three files, and the one of [broken] cannot be
    read. *)
Definition stale_state : State :=
  with_world (with_scan three_files)
    (with_this (fun s =>
       set_catalog [make_entry "broken" orders]
         (set_specs {[ "broken" := orders ]} s)) fresh_state).

(** ** A call awaited on its own *)

(** The next stretch of a call, if it has not returned. *)
Definition finish {C B} (resume : C -> M (Step C B)) (r : Step C B)
    : M (Step C B) :=
  match r with
  | Return b => ret (Return b)
  | Await c => resume c
  end.

(** How a call that has run all its stretches ended. *)
Definition outcome {C B} (r : Result (Step C B)) : option (Result B) :=
  match r with
  | Ok (Return b) => Some (Ok b)
  | Ok (Await _) => None
  | Throw e => Some (Throw e)
  end.

(** * Properties *)

(** ** Construction *)

(** C10: a zero [cache.maxSize], [cache.ttl], [retryAttempts] or
    [retryDelay] and an empty [catalogDir] or [dereferencedDir] are
    replaced by 500, 3600000, 3, 1000, ["_catalog"] and
    ["_dereferenced"]; the stored configuration, the cache and the two
    directory paths never hold a zero or an empty value for them. *)
Theorem constructor_substitutes_defaults (c : SpecServiceConfig) :
  let s := new_FileSystemSpecService c in
  (cache_maxSize c = Some (Num 0) ->
     r_maxSize (r_cache (config s)) = Num 500 /\
     SimpleCache.c_maxSize (specCache s) = Num 500) /\
  (cache_ttl c = Some (Num 0) ->
     r_ttl (r_cache (config s)) = Num 3600000 /\
     SimpleCache.c_ttl (specCache s) = Num 3600000) /\
  (retryAttempts c = Some (Num 0) -> r_retryAttempts (config s) = Num 3) /\
  (retryDelay c = Some (Num 0) -> r_retryDelay (config s) = Num 1000) /\
  (catalogDir c = Some "" ->
     r_catalogDir (config s) = "_catalog" /\
     catalogPath s = path_join (basePath c) "_catalog") /\
  (dereferencedDir c = Some "" ->
     r_dereferencedDir (config s) = "_dereferenced" /\
     dereferencedPath s = path_join (basePath c) "_dereferenced") /\
  r_maxSize (r_cache (config s)) <> Num 0 /\
  r_ttl (r_cache (config s)) <> Num 0 /\
  r_retryAttempts (config s) <> Num 0 /\
  r_retryDelay (config s) <> Num 0 /\
  r_catalogDir (config s) <> "" /\
  r_dereferencedDir (config s) <> "".
Proof.
  assert (Hn : forall x d, d <> Num 0 -> or_else truthy_number x d <> Num 0).
  { intros [[z|]|] d Hd; simpl; auto.
    destruct (Z.eqb_spec z 0); simpl; auto; congruence. }
  assert (Hs : forall x d, d <> "" -> or_else truthy_string x d <> "").
  { intros [[|a r]|] d Hd; simpl; auto; discriminate. }
  simpl. unfold cache_maxSize, cache_ttl.
  repeat split;
    try (apply Hn; discriminate);
    try (apply Hs; discriminate);
    try (intros ->; reflexivity);
    try (intros H; rewrite H; reflexivity);
    try match goal with H : _ = Some _ |- _ => rewrite H; reflexivity end.
Qed.

Lemma constructor_substitutes_defaults_witness :
  cache_maxSize zero_config = Some (Num 0) /\
  r_maxSize (r_cache (config (new_FileSystemSpecService zero_config))) = Num 500 /\
  catalogDir zero_config = Some "" /\
  catalogPath (new_FileSystemSpecService zero_config) = "specs/_catalog".
Proof.
  destruct (constructor_substitutes_defaults zero_config)
    as (Hm & _ & _ & _ & Hc & _).
  split; [reflexivity | split; [| split; [reflexivity |]]].
  - apply Hm. reflexivity.
  - apply Hc. reflexivity.
Defined.

(** ** Property reads and loops *)

Lemma prop_Some_elem {A} (obj : list (string * A)) (k : string) (v : A) :
  prop obj k = Some v -> (k, v) ∈ obj.
Proof.
  induction obj as [|[k' v'] rest IH]; simpl; [discriminate |].
  destruct (String.eqb_spec k' k) as [->|Hne].
  - intros [= ->]. apply list_elem_of_here.
  - intros H. apply list_elem_of_further, IH, H.
Qed.

Lemma prop_None_iff {A} (obj : list (string * A)) (k : string) :
  prop obj k = None <-> forall v, (k, v) ∉ obj.
Proof.
  induction obj as [|[k' v'] rest IH]; simpl.
  - split; [intros _ v Hin; inversion Hin | reflexivity].
  - destruct (String.eqb_spec k' k) as [->|Hne].
    + split; [discriminate |].
      intros H. exfalso. apply (H v'), list_elem_of_here.
    + rewrite IH. split; intros H v Hin.
      * apply elem_of_cons in Hin as [[= ? ?]|Hin]; [congruence |].
        exact (H v Hin).
      * apply (H v), list_elem_of_further, Hin.
Qed.

Lemma for_return_None {A R} (l : list A) (body : A -> option R) :
  for_return l body = None <-> forall x, x ∈ l -> body x = None.
Proof.
  induction l as [|x rest IH]; simpl.
  - split; [intros _ y Hin; inversion Hin | reflexivity].
  - destruct (body x) as [r|] eqn:Hx.
    + split; [discriminate |].
      intros H. rewrite (H x) in Hx; [discriminate | apply list_elem_of_here].
    + rewrite IH. split; intros H y Hin.
      * apply elem_of_cons in Hin as [->|Hin]; [exact Hx | exact (H y Hin)].
      * apply H, list_elem_of_further, Hin.
Qed.

Lemma strict_eq_true (x : option string) (y : string) :
  strict_eq x y = true <-> x = Some y.
Proof.
  destruct x as [s|]; simpl; [| split; discriminate].
  destruct (String.eqb_spec s y); split; congruence.
Qed.

(** ** Point lookups *)

(** The part of C6 that holds: a name that [Object.prototype] does not
    have finds nothing where the store, the paths, the path item or the
    schemas have no such key, and [findOperationById] finds nothing in a
    document without the operation, whatever the names. *)
Lemma point_lookups_null_off_prototype (st : State) (id : string) :
  (specs (this st) !! id = None ->
   (forall x, findOperationById id x st = (Ok None, st) /\
              findSchemaByName id x st = (Ok None, st)) /\
   (inherited id = false ->
    forall x y, findOperationByPathAndMethod id x y st = (Ok None, st))) /\
  (forall d, specs (this st) !! id = Some d ->
     (forall operationId,
        (forall path pathItem method v,
           (path, pathItem) ∈ paths d -> (method, v) ∈ pathItem ->
           get_operationId v <> Some operationId) ->
        findOperationById id operationId st = (Ok None, st)) /\
     (forall path method,
        inherited path = false -> inherited method = false ->
        (forall pathItem v,
           (path, pathItem) ∈ paths d -> (method, v) ∉ pathItem) ->
        findOperationByPathAndMethod id path method st = (Ok None, st)) /\
     (forall name,
        inherited name = false ->
        (forall ss sch, components_schemas d = Some ss -> (name, sch) ∉ ss) ->
        findSchemaByName id name st = (Ok None, st))).
Proof.
  unfold findOperationById, findOperationByPathAndMethod, findSchemaByName,
    bind, gets, ret, store_get, js_get, lookup_chain.
  split.
  - intros ->. split.
    + intros x. destruct (inherited id); auto.
    + intros ->. auto.
  - intros d ->. split; [| split].
    + intros operationId Hno. f_equal. f_equal.
      apply for_return_None. intros [path pathItem] Hp.
      apply for_return_None. intros [method v] Hm.
      destruct (strict_eq (get_operationId v) operationId) eqn:E; [| reflexivity].
      apply strict_eq_true in E. exfalso. exact (Hno _ _ _ _ Hp Hm E).
    + intros path method -> Hmethod Hno.
      destruct (prop (paths d) path) as [pathItem|] eqn:Hp; [| reflexivity].
      apply prop_Some_elem in Hp.
      destruct (prop pathItem method) as [v|] eqn:Hm;
        [| rewrite Hmethod; reflexivity].
      apply prop_Some_elem in Hm. exfalso. exact (Hno _ _ Hp Hm).
    + intros name -> Hno.
      destruct (components_schemas d) as [ss|]; [| reflexivity].
      destruct (prop ss name) as [sch|] eqn:Hs; [| reflexivity].
      apply prop_Some_elem in Hs. exfalso. exact (Hno _ _ eq_refl Hs).
Qed.

(** C6 at failing inputs: the service holds [petstore] only.  The store
    has no document under ["constructor"], yet
    [findOperationByPathAndMethod] throws a [TypeError] for that specId
    instead of returning [null]; [petstore] has no schema called
    ["constructor"] and no operation under the method ["constructor"],
    yet both lookups return a result. *)
Theorem point_lookups_fail_on_prototype_names :
  specs (this petstore_state) !! "constructor" = None /\
  findOperationByPathAndMethod "constructor" "/pets" "get" petstore_state
  = (Throw TypeError, petstore_state) /\
  components_schemas petstore
  = Some [("Pet", {| sch_description := Some "A pet";
                     sch_type := Some "object" |})] /\
  findSchemaByName "petstore" "constructor" petstore_state
  = (Ok (Some {| ls_name := "constructor";
                 ls_description := None;
                 ls_schema := SBuiltin "constructor";
                 ls_uri := "apis://petstore/schemas/constructor" |}),
     petstore_state) /\
  (exists res,
     findOperationByPathAndMethod "petstore" "/pets" "toString" petstore_state
     = (Ok (Some res), petstore_state)).
Proof.
  split; [reflexivity |]. split; [reflexivity |]. split; [reflexivity |].
  split; [reflexivity |]. eexists. reflexivity.
Qed.

(** The part of C8 that holds: what [findOperationByPathAndMethod] does
    on a stored document, case by case.  Own keys are compared with the
    given strings by equality, and the [uri] of a result is
    ["apis://" + specId + "/operations/" + operationId], with
    ["undefined"] where the value found has no [operationId]. *)
Lemma findOperationByPathAndMethod_cases (st : State) (id path method : string)
    (d : Document) :
  specs (this st) !! id = Some d ->
  let found v :=
    (Ok (Some {| lo_path := path;
                 lo_method := method;
                 lo_operation := v;
                 lo_specId := id;
                 lo_uri := "apis://" +:+ id +:+ "/operations/"
                           +:+ interpolate (get_operationId v) |}), st) in
  (forall pathItem v,
     prop (paths d) path = Some pathItem -> prop pathItem method = Some v ->
     findOperationByPathAndMethod id path method st
     = if truthy_value v then found v else (Ok None, st)) /\
  (forall pathItem,
     prop (paths d) path = Some pathItem -> prop pathItem method = None ->
     findOperationByPathAndMethod id path method st
     = if inherited method then found (VBuiltin [method]) else (Ok None, st)) /\
  (prop (paths d) path = None -> inherited path = false ->
   findOperationByPathAndMethod id path method st = (Ok None, st)) /\
  (prop (paths d) path = None -> inherited path = true ->
   findOperationByPathAndMethod id path method st
   = match builtin (world st) path method with
     | Truthy => found (VBuiltin [path; method])
     | Falsy => (Ok None, st)
     | Throws => (Throw TypeError, st)
     end).
Proof.
  intros Hd found.
  unfold findOperationByPathAndMethod, bind, gets, ret, throw, store_get, js_get,
    lookup_chain.
  rewrite Hd. repeat split.
  - intros pathItem v -> ->. destruct (truthy_value v); reflexivity.
  - intros pathItem -> ->. destruct (inherited method); reflexivity.
  - intros -> ->. reflexivity.
  - intros -> ->. destruct (builtin (world st) path method); reflexivity.
Qed.

Lemma findOperationByPathAndMethod_cases_witness :
  findOperationByPathAndMethod "petstore" "/pets" "post" petstore_state
  = (Ok (Some {| lo_path := "/pets";
                 lo_method := "post";
                 lo_operation := VOperation createPet;
                 lo_specId := "petstore";
                 lo_uri := "apis://petstore/operations/createPet" |}),
     petstore_state).
Proof.
  destruct (findOperationByPathAndMethod_cases petstore_state "petstore" "/pets"
              "post" petstore eq_refl) as (H & _).
  exact (H _ (VOperation createPet) eq_refl eq_refl).
Defined.

(** C8 at failing inputs: the service holds [petstore], whose one path
    ["/pets"] has the keys [parameters], [get] and [post].  The method
    ["constructor"] misses, and so does the path ["constructor"], yet
    each lookup returns a result, whose [uri] ends in ["undefined"]. *)
Theorem findOperationByPathAndMethod_hits_prototype :
  prop (paths petstore) "constructor" = None /\
  (forall pathItem, prop (paths petstore) "/pets" = Some pathItem ->
                    prop pathItem "constructor" = None) /\
  findOperationByPathAndMethod "petstore" "/pets" "constructor" petstore_state
  = (Ok (Some {| lo_path := "/pets";
                 lo_method := "constructor";
                 lo_operation := VBuiltin ["constructor"];
                 lo_specId := "petstore";
                 lo_uri := "apis://petstore/operations/undefined" |}),
     petstore_state) /\
  findOperationByPathAndMethod "petstore" "constructor" "name" petstore_state
  = (Ok (Some {| lo_path := "constructor";
                 lo_method := "name";
                 lo_operation := VBuiltin ["constructor"; "name"];
                 lo_specId := "petstore";
                 lo_uri := "apis://petstore/operations/undefined" |}),
     petstore_state).
Proof.
  split; [reflexivity |]. split; [intros pathItem [= <-]; reflexivity |].
  split; reflexivity.
Qed.

Example findOperationByPathAndMethod_case_sensitive :
  findOperationByPathAndMethod "petstore" "/pets" "GET" petstore_state
    = (Ok None, petstore_state) /\
  exists res,
    findOperationByPathAndMethod "petstore" "/pets" "get" petstore_state
      = (Ok (Some res), petstore_state) /\
    lo_uri res = "apis://petstore/operations/listPets".
Proof. split; [reflexivity |]. eexists. split; reflexivity. Qed.

(** ** Operation search *)

Lemma for_of_flat_map {A B} (body : list B -> A -> list B) (g : A -> list B) :
  (forall acc x, body acc x = acc ++ g x) ->
  forall l init, for_of l init body = init ++ flat_map g l.
Proof.
  intros Hbody. unfold for_of.
  induction l as [|x rest IH]; intros init; simpl.
  - symmetry. apply app_nil_r.
  - rewrite IH, Hbody. symmetry. apply app_assoc.
Qed.

Lemma append_cons (c : ascii) (a b : string) :
  String c a +:+ b = String c (a +:+ b).
Proof. reflexivity. Qed.

Lemma append_nil (b : string) : "" +:+ b = b.
Proof. reflexivity. Qed.

Lemma prefix_iff (q s : string) :
  String.prefix q s = true <-> exists b, s = q +:+ b.
Proof.
  revert s. induction q as [|c q IH]; intros [|c' s]; simpl.
  - split; [intros _; exists ""; reflexivity | reflexivity].
  - split; [intros _; eexists; reflexivity | reflexivity].
  - split; [discriminate | intros [b [=]]].
  - setoid_rewrite append_cons.
    destruct (Ascii.ascii_dec c c') as [->|Hne].
    + rewrite IH. split; intros [b Hb]; exists b; congruence.
    + split; [discriminate |]. intros [b Hb]. congruence.
Qed.

Lemma includes_iff (s q : string) :
  includes s q = true <-> exists a b, s = a +:+ q +:+ b.
Proof.
  induction s as [|c s IH].
  - change (includes "" q) with (String.prefix q "" || false).
    rewrite orb_false_r, prefix_iff. split.
    + intros [b Hb]. exists "", b. exact Hb.
    + intros ([|? a] & b & Hb); [exists b; exact Hb | discriminate].
  - change (includes (String c s) q)
      with (String.prefix q (String c s) || includes s q).
    rewrite orb_true_iff, prefix_iff, IH. split.
    + intros [[b Hb]|(a & b & Hab)].
      * exists "", b. exact Hb.
      * exists (String c a), b. rewrite append_cons. congruence.
    + intros ([|c' a] & b & Hab).
      * left. exists b. exact Hab.
      * right. exists a, b. rewrite append_cons in Hab. congruence.
Qed.

Lemma map_filter_flat_map {A B C} (f : B -> C) (p : B -> bool)
    (h : A -> list B) (l : list A) :
  map f (List.filter p (flat_map h l))
  = flat_map (fun x => map f (List.filter p (h x))) l.
Proof.
  induction l as [|x rest IH]; simpl; [reflexivity |].
  rewrite List.filter_app, map_app, IH. reflexivity.
Qed.

(** The two inner loops of [searchOperations] append, for one document,
    exactly its matching operations. *)
Lemma searchOperations_document (id query : string) (d : Document)
    (results : list LoadOperationResult) :
  for_of (paths d) results (fun results '(path, pathItem) =>
    for_of pathItem results (fun results '(method, operation) =>
      if is_pseudo_method method then results
      else if negb (truthy_value operation) then results
      else if includes (searchText operation) (toLowerCase query)
      then results ++ [{| lo_path := path;
                          lo_method := method;
                          lo_operation := operation;
                          lo_specId := id;
                          lo_uri := operation_uri id operation |}]
      else results))
  = results ++ map (operation_result id)
                 (List.filter (matches corpus_joined query) (document_operations d)).
Proof.
  unfold document_operations. rewrite map_filter_flat_map.
  apply for_of_flat_map. intros acc [path pathItem].
  rewrite map_filter_flat_map.
  apply for_of_flat_map. intros acc' [method v].
  destruct (is_pseudo_method method); simpl; [symmetry; apply app_nil_r |].
  destruct (truthy_value v); simpl; [| symmetry; apply app_nil_r].
  unfold matches, searchText, corpus_joined, corpus_parts. simpl.
  match goal with |- context [includes ?a ?b] => destruct (includes a b) end;
    simpl; [reflexivity | symmetry; apply app_nil_r].
Qed.

(** C5, with the corpus as the code builds it: [searchOperations]
    returns exactly the operations in scope whose corpus (the present,
    non-empty values of operationId, summary, description and the tags,
    joined by single spaces) contains the query as a substring after
    both are lower-cased, per document in enumeration order and
    document after document in catalog order. *)
Theorem searchOperations_exact (st : State) (query : string) (id : option string) :
  searchOperations query id st
  = (Ok (search_by corpus_joined (this st) query id), st) /\
  (forall x,
     matches corpus_joined query x = true <->
     exists a b,
       toLowerCase (corpus_joined (snd x)) = a +:+ toLowerCase query +:+ b).
Proof.
  split; [| intros x; apply includes_iff].
  unfold searchOperations, bind, gets, ret, search_by. do 2 f_equal.
  change (for_of (targetSpecs (this st) id) [] ?body
          = flat_map ?g (targetSpecs (this st) id))
    with (for_of (targetSpecs (this st) id) [] body
          = [] ++ flat_map g (targetSpecs (this st) id)).
  apply for_of_flat_map. intros acc e.
  unfold store_get, lookup_chain.
  destruct (specs (this st) !! specId (uri e)) as [d|].
  - apply searchOperations_document.
  - destruct (inherited _); symmetry; apply app_nil_r.
Qed.

(** C5 as written fails: with the fields concatenated without a
    separator, the query ["pet create"] would not find [createPet], which
    the code returns. *)
Lemma searchOperations_by_concatenation_fails :
  ~ searchOperations_by_concatenation.
Proof.
  intros H. specialize (H petstore_state "pet create" None).
  vm_compute in H. discriminate H.
Qed.

Example searchOperations_ignores_case :
  searchOperations "PET" None petstore_state
    = searchOperations "pet" None petstore_state /\
  exists r1 r2,
    searchOperations "pet" None petstore_state = (Ok [r1; r2], petstore_state) /\
    lo_operation r1 = VOperation listPets /\
    lo_operation r2 = VOperation createPet.
Proof. split; [reflexivity |]. do 2 eexists. repeat split. Qed.

(** ** The cache *)

Lemma prop_remove (k : string) (es : list (string * (Document * Z))) :
  prop (SimpleCache.remove k es) k = None.
Proof.
  induction es as [|[k' v] rest IH]; simpl; [reflexivity |].
  destruct (String.eqb_spec k' k) as [->|Hne]; simpl; [exact IH |].
  destruct (String.eqb_spec k' k); [contradiction | exact IH].
Qed.

Lemma prop_tail_None {A} (k : string) (es : list (string * A)) :
  prop es k = None -> prop (tail es) k = None.
Proof.
  destruct es as [|[k' v] rest]; simpl; [auto |].
  destruct (String.eqb k' k); [discriminate | auto].
Qed.

Lemma prop_app_fresh {A} (k : string) (v : A) (es : list (string * A)) :
  prop es k = None -> prop (es ++ [(k, v)]) k = Some v.
Proof.
  induction es as [|[k' v'] rest IH]; simpl.
  - intros _. rewrite String.eqb_refl. reflexivity.
  - destruct (String.eqb k' k); [discriminate | exact IH].
Qed.

(** After [set], the key holds the new value, stamped with the time of
    the call, whatever the capacity. *)
Lemma SimpleCache_set_lookup (now : Z) (k : string) (v : Document)
    (c : SimpleCache.t) :
  prop (SimpleCache.entries (SimpleCache.set now k v c)) k = Some (v, now).
Proof.
  unfold SimpleCache.set. simpl. apply prop_app_fresh.
  destruct (SimpleCache.gt _ _); [apply prop_tail_None |]; apply prop_remove.
Qed.

Lemma SimpleCache_set_ttl (now : Z) (k : string) (v : Document)
    (c : SimpleCache.t) :
  SimpleCache.c_ttl (SimpleCache.set now k v c) = SimpleCache.c_ttl c.
Proof. reflexivity. Qed.

(** [get] answers with an entry exactly while it has not expired. *)
Lemma SimpleCache_get_fresh (now t0 : Z) (k : string) (v : Document)
    (c : SimpleCache.t) :
  prop (SimpleCache.entries c) k = Some (v, t0) ->
  SimpleCache.gt (now - t0) (SimpleCache.c_ttl c) = false ->
  SimpleCache.get now k c = (Some v, c).
Proof. unfold SimpleCache.get. intros -> ->. reflexivity. Qed.

Lemma SimpleCache_get_hit (now : Z) (k : string) (v : Document)
    (c : SimpleCache.t) :
  fst (SimpleCache.get now k c) = Some v ->
  SimpleCache.get now k c = (Some v, c) /\
  exists t0, prop (SimpleCache.entries c) k = Some (v, t0).
Proof.
  unfold SimpleCache.get.
  destruct (prop (SimpleCache.entries c) k) as [[v' t0]|]; [| discriminate].
  destruct (SimpleCache.gt _ _); simpl; [discriminate |].
  intros [= ->]. eauto.
Qed.

(** ** Loading a document *)

Ltac run :=
  unfold loadSpec, specCache_get, specCache_set, fs_readFile, fs_call, logger,
    bind, try_catch, gets, modify, ret, throw; simpl.

(** C4: [loadSpec] answers from the cache on a hit, without touching
    storage; on a miss it reads the file of the document, stores the
    document in the cache and returns it; a missing file gives
    [LOAD_ERROR] without a cause, any other failure of the read or of
    the parse gives [LOAD_ERROR] with that failure as its cause; after a
    successful call the document is cached, and a second call made
    before the entry expires returns the same document and makes no
    file system call. *)
Theorem loadSpec_cache_then_storage (st : State) (id : string) :
  let file := path_join (dereferencedPath (this st)) (id +:+ ".json") in
  let cached := fst (SimpleCache.get (clock (world st)) id (specCache (this st))) in
  let reading := fault (world st) (length (trace (world st))) (ReadFile file) in
  (forall d, cached = Some d ->
     exists st', loadSpec id st = (Ok d, st') /\
                 trace (world st') = trace (world st)) /\
  (cached = None ->
     (forall d, reading = None -> files (world st) !! file = Some (FSpec d) ->
        exists st', loadSpec id st = (Ok d, st') /\
                    trace (world st') = ReadFile file :: trace (world st) /\
                    prop (SimpleCache.entries (specCache (this st'))) id
                    = Some (d, clock (world st))) /\
     (reading = None -> files (world st) !! file = None ->
        exists st', loadSpec id st
                    = (Throw (SpecServiceError ("Specification not found: " +:+ id)
                                LOAD_ERROR None), st')) /\
     (forall e, reading = Some e -> is_ENOENT e = false ->
        exists st', loadSpec id st
                    = (Throw (SpecServiceError ("Failed to load specification " +:+ id)
                                LOAD_ERROR (Some e)), st')) /\
     (reading = None ->
      files (world st) !! file = Some FCorrupt ->
        exists st', loadSpec id st
                    = (Throw (SpecServiceError ("Failed to load specification " +:+ id)
                                LOAD_ERROR (Some SyntaxError)), st'))) /\
  (forall d st1, loadSpec id st = (Ok d, st1) ->
     exists t0,
       prop (SimpleCache.entries (specCache (this st1))) id = Some (d, t0) /\
       forall t,
         SimpleCache.gt (t - t0) (SimpleCache.c_ttl (specCache (this st1))) = false ->
         exists st2,
           loadSpec id (with_world (set_clock t) st1) = (Ok d, st2) /\
           trace (world st2) = trace (world st1)).
Proof.
  intros file cached reading.
  assert (Hhit : forall s d,
    fst (SimpleCache.get (clock (world s)) id (specCache (this s))) = Some d ->
    exists s', loadSpec id s = (Ok d, s') /\
               trace (world s') = trace (world s) /\
               specCache (this s') = specCache (this s)).
  { intros s d H. apply SimpleCache_get_hit in H as [H _].
    run. rewrite H. simpl. eexists. repeat split. }
  split; [| split].
  - intros d H. destruct (Hhit st d H) as (s' & ? & ? & _). eauto.
  - subst cached reading file. intros Hmiss.
    destruct (SimpleCache.get (clock (world st)) id (specCache (this st)))
      as [hit c'] eqn:Hget.
    simpl in Hmiss. subst hit.
    repeat split.
    + intros d Hf Hfile. run. rewrite Hget. simpl. rewrite Hf. simpl.
      rewrite Hfile. simpl. eexists. repeat split.
      apply SimpleCache_set_lookup.
    + intros Hf Hfile. run. rewrite Hget. simpl. rewrite Hf. simpl.
      rewrite Hfile. simpl. eexists. reflexivity.
    + intros e Hf He. run. rewrite Hget. simpl. rewrite Hf. simpl.
      rewrite He. eexists. reflexivity.
    + intros Hf Hfile. run. rewrite Hget. simpl. rewrite Hf. simpl.
      rewrite Hfile. simpl. eexists. reflexivity.
  - intros d st1 Hload.
    assert (Hcached : exists t0,
      prop (SimpleCache.entries (specCache (this st1))) id = Some (d, t0)).
    { revert Hload. run.
      destruct (SimpleCache.get (clock (world st)) id (specCache (this st)))
        as [[d'|] c'] eqn:Hget; simpl.
      - intros [= -> <-]. simpl.
        assert (H : fst (SimpleCache.get (clock (world st)) id
                           (specCache (this st))) = Some d)
          by (rewrite Hget; reflexivity).
        apply SimpleCache_get_hit in H as [H [t0 Ht0]].
        rewrite Hget in H. injection H as ->. eauto.
      - destruct (fault _ _ _); simpl.
        + destruct (is_ENOENT _); discriminate.
        + destruct (files (world st) !! _) as [[d'|c|]|]; simpl;
            try discriminate.
          intros [= -> <-]. simpl. eexists. apply SimpleCache_set_lookup. }
    destruct Hcached as [t0 Ht0]. exists t0. split; [exact Ht0 |].
    intros t Ht.
    destruct (Hhit (with_world (set_clock t) st1) d) as (s' & Hs' & Htr & _).
    + simpl. rewrite (SimpleCache_get_fresh _ _ _ _ _ Ht0 Ht). reflexivity.
    + eauto.
Qed.

Lemma loadSpec_cache_then_storage_witness :
  exists st',
    loadSpec "petstore" stored_state = (Ok petstore, st') /\
    trace (world st') = [ReadFile "specs/_dereferenced/petstore.json"].
Proof.
  destruct (loadSpec_cache_then_storage stored_state "petstore")
    as (_ & Hmiss & _).
  destruct (Hmiss eq_refl) as (Hread & _).
  destruct (Hread petstore eq_refl eq_refl) as (st' & H1 & H2 & _).
  exists st'. split; [exact H1 | exact H2].
Defined.

(** ** Lifecycle *)

Lemma try_catch_Throw {A} (m : M A) (h : JsError -> M A) st e st' :
  try_catch m h st = (Throw e, st') ->
  exists e0 s, m st = (Throw e0, s) /\ h e0 s = (Throw e, st').
Proof.
  unfold try_catch. destruct (m st) as [[a|e0] s]; [discriminate | eauto].
Qed.

Lemma resetState_run (st : State) :
  exists st',
    resetState st = (Ok tt, st') /\
    catalog (this st') = [] /\
    specs (this st') = ∅ /\
    SimpleCache.entries (specCache (this st')) = [].
Proof. eexists. repeat split. Qed.

(** The part of C2 that holds: a failing [initialize] throws
    [INIT_ERROR], and at the moment it does, catalog, store and cache
    are empty; [refresh] is [initialize] on a service with a base
    path. *)
Lemma initialize_rejects_after_reset (st st' : State) (e : JsError) :
  initialize st = (Throw e, st') ->
  error_code e = Some INIT_ERROR /\
  catalog (this st') = [] /\
  specs (this st') = ∅ /\
  SimpleCache.entries (specCache (this st')) = [] /\
  (truthy_string (folderPath (this st)) = true ->
   refresh st = (Throw e, st')).
Proof.
  intros Hinit.
  assert (Hrefresh : truthy_string (folderPath (this st)) = true ->
                     refresh st = (Throw e, st')).
  { intros H. unfold refresh, bind, gets. rewrite H. exact Hinit. }
  unfold initialize in Hinit. unfold bind at 1 in Hinit.
  unfold logger at 1, modify at 1 in Hinit.
  apply try_catch_Throw in Hinit as (e0 & s & _ & Hh).
  unfold bind at 1 in Hh. unfold logger at 1, modify at 1 in Hh.
  unfold bind at 1 in Hh.
  destruct (resetState_run (with_world
              (fun w => set_log ((Err, "Failed to initialize FileSystemSpecService",
                                  None) :: log w) w) s))
    as (s' & Hr & Hc & Hs & Hk).
  rewrite Hr in Hh. injection Hh as <- <-.
  repeat split; auto.
Qed.

(** C2 at a failing input: the scanner yields [petstore] and [orders],
    and the document of [petstore] cannot be written.  Both writes are
    in flight when the one of [petstore] fails: [initialize] resets the
    state and throws [INIT_ERROR] while [saveSpec] of [orders] still
    waits for its write.  When that write completes, [saveSpec] goes on
    and puts [orders] in the store and in the cache: the service that
    failed to initialize answers lookups from a document, with an empty
    catalog. *)
Theorem initialize_failure_leaves_writes_in_flight :
  exists e st' st'',
    initialize half_written_state = (Throw e, st') /\
    error_code e = Some INIT_ERROR /\
    catalog (this st') = [] /\
    specs (this st') = ∅ /\
    SimpleCache.entries (specCache (this st')) = [] /\
    inflight (world st') = [FlightSave (SaveAwaitsWrite orders "orders" (Ok tt))] /\
    settle st' = (Ok tt, st'') /\
    catalog (this st'') = [] /\
    specs (this st'') !! "orders" = Some orders /\
    prop (SimpleCache.entries (specCache (this st''))) "orders" = Some (orders, 0) /\
    exists res,
      findOperationById "orders" "listOrders" st'' = (Ok (Some res), st'').
Proof.
  pose (failed := initialize half_written_state).
  pose (later := settle (snd failed)).
  exists (match fst failed with Throw e => e | Ok _ => TypeError end),
    (snd failed), (snd later).
  split; [vm_compute; reflexivity |].
  split; [vm_compute; reflexivity |].
  split; [vm_compute; reflexivity |].
  split; [vm_compute; reflexivity |].
  split; [vm_compute; reflexivity |].
  split; [vm_compute; reflexivity |].
  split; [vm_compute; reflexivity |].
  split; [vm_compute; reflexivity |].
  split; [vm_compute; reflexivity |].
  split; [vm_compute; reflexivity |].
  eexists. vm_compute. reflexivity.
Qed.

(** ** The commit phase *)

(** C1 at a failing input: the service has committed [orders]; a build
    scans [petstore], writes its document, then fails to write the
    catalog file.  The build fails with [SCAN_ERROR] and the catalog is
    the one from before, but the store has gained [petstore]. *)
Theorem scanAndSave_failure_changes_store :
  exists e st',
    scanAndSave "specs" failing_commit_state = (Throw e, st') /\
    error_code e = Some SCAN_ERROR /\
    catalog (this st') = catalog (this failing_commit_state) /\
    specs (this failing_commit_state) !! "petstore" = None /\
    specs (this st') !! "petstore" = Some petstore /\
    specs (this st') <> specs (this failing_commit_state).
Proof.
  destruct (scanAndSave "specs" failing_commit_state) as [r st'] eqn:H.
  vm_compute in H. injection H as <- <-.
  eexists _, _. split; [reflexivity |].
  split; [reflexivity |]. split; [reflexivity |].
  split; [reflexivity |]. split; [reflexivity |].
  intros Heq.
  apply (f_equal (fun m : gmap string Document => m !! "petstore")) in Heq.
  vm_compute in Heq. discriminate Heq.
Qed.

(** C3 at a failing input: the disk holds the catalog and the document
    of an earlier build of [orders]; the scanner finds [petstore] only.
    [initialize] succeeds, the catalog has the one entry [petstore], and
    the store holds both [petstore] and [orders]. *)
Theorem initialize_keeps_stale_documents :
  exists st',
    initialize restart_state = (Ok tt, st') /\
    map (fun e => specId (uri e)) (catalog (this st')) = ["petstore"] /\
    specs (this st') !! "petstore" = Some petstore /\
    specs (this st') !! "orders" = Some orders /\
    size (specs (this st')) = 2%nat /\
    length (catalog (this st')) = 1%nat.
Proof.
  destruct (initialize restart_state) as [r st'] eqn:H.
  vm_compute in H. injection H as <- <-.
  eexists. split; [reflexivity |].
  repeat split; vm_compute; reflexivity.
Qed.

(** *** Preservation through the combinators *)

Section Preservation.

Variable R : State -> State -> Prop.
Hypothesis R_refl : forall st, R st st.
Hypothesis R_trans : forall a b c, R a b -> R b c -> R a c.

Lemma preserves_ret {A} (a : A) : preserves R (ret a).
Proof. intros st r st' [= <- <-]. apply R_refl. Qed.

Lemma preserves_throw {A} (e : JsError) : preserves R (@throw A e).
Proof. intros st r st' [= <- <-]. apply R_refl. Qed.

Lemma preserves_gets {A} (f : State -> A) : preserves R (gets f).
Proof. intros st r st' [= <- <-]. apply R_refl. Qed.

Lemma preserves_modify (f : State -> State) :
  (forall st, R st (f st)) -> preserves R (modify f).
Proof. intros H st r st' [= <- <-]. apply H. Qed.

Lemma preserves_bind {A B} (m : M A) (k : A -> M B) :
  preserves R m -> (forall a, preserves R (k a)) -> preserves R (bind m k).
Proof.
  intros Hm Hk st r st'. unfold bind.
  destruct (m st) as [[a|e] s] eqn:E.
  - intros H. exact (R_trans _ _ _ (Hm _ _ _ E) (Hk _ _ _ _ H)).
  - intros [= <- <-]. exact (Hm _ _ _ E).
Qed.

Lemma preserves_try_catch {A} (m : M A) (h : JsError -> M A) :
  preserves R m -> (forall e, preserves R (h e)) -> preserves R (try_catch m h).
Proof.
  intros Hm Hh st r st'. unfold try_catch.
  destruct (m st) as [[a|e] s] eqn:E.
  - intros [= <- <-]. exact (Hm _ _ _ E).
  - intros H. exact (R_trans _ _ _ (Hm _ _ _ E) (Hh _ _ _ _ H)).
Qed.

Lemma preserves_attempt {A} (m : M A) : preserves R m -> preserves R (attempt m).
Proof.
  intros Hm st r st'. unfold attempt. destruct (m st) as [r0 s] eqn:E.
  intros [= <- <-]. exact (Hm _ _ _ E).
Qed.

Lemma preserves_settled {A} (r : Result A) : preserves R (settled r).
Proof. intros st r' st' [= <- <-]. apply R_refl. Qed.

(** What the scheduler and the list of calls in flight do not touch. *)
Hypothesis R_completes : forall st l, R st (with_world (set_completes l) st).
Hypothesis R_inflight : forall st l, R st (with_world (set_inflight l) st).

Lemma preserves_next_completion (n : nat) : preserves R (next_completion n).
Proof.
  unfold next_completion. apply preserves_bind; [apply preserves_gets |].
  intros w. destruct (completes w) as [|k rest]; [apply preserves_ret |].
  apply preserves_bind; [| intros _; apply preserves_ret].
  apply preserves_modify. intros st. apply R_completes.
Qed.

Lemma preserves_start_all {A C B} (f : Async A C B) (l : list A) :
  (forall x, preserves R (start f x)) -> preserves R (start_all f l).
Proof.
  intros Hf. induction l as [|x rest IH]; simpl.
  - apply preserves_ret.
  - apply preserves_bind; [apply preserves_attempt, Hf | intros r].
    apply preserves_bind; [exact IH | intros slots]. apply preserves_ret.
Qed.

Lemma preserves_complete_one {A C B} (f : Async A C B)
    (pool : list (Slot C B) * list B) :
  (forall c, preserves R (resume f c)) -> preserves R (complete_one f pool).
Proof.
  intros Hf. destruct pool as [slots order]. unfold complete_one.
  destruct (omap rejected slots); [| apply preserves_ret].
  destruct (waiting 0 slots) as [|oldest others]; [apply preserves_ret |].
  apply preserves_bind; [apply preserves_next_completion | intros k].
  destruct (nth k (oldest :: others) oldest) as [i c].
  apply preserves_bind; [apply preserves_attempt, Hf | intros r].
  apply preserves_ret.
Qed.

Lemma preserves_completions {A C B} (f : Async A C B) (n : nat)
    (pool : list (Slot C B) * list B) :
  (forall c, preserves R (resume f c)) -> preserves R (completions f n pool).
Proof.
  intros Hf. revert pool. induction n as [|n IH]; intros pool; simpl.
  - apply preserves_ret.
  - apply preserves_bind; [apply preserves_complete_one, Hf | exact IH].
Qed.

(** A fulfilled [Promise.all] has done nothing but start and resume its
    calls. *)
Lemma promise_all_Ok_keeps {A C B} (f : Async A C B) (l : list A)
    (st st' : State) (v : list B * list B) :
  (forall x, preserves R (start f x)) ->
  (forall c, preserves R (resume f c)) ->
  promise_all f l st = (Ok v, st') -> R st st'.
Proof.
  intros Hs Hr. unfold promise_all, bind.
  destruct (start_all f l st) as [[slots|e] s1] eqn:E1; [| discriminate].
  destruct (completions f _ _ s1) as [[[slots' order]|e] s2] eqn:E2;
    [| discriminate].
  destruct (omap rejected slots'); [| discriminate].
  intros [= <- <-].
  exact (R_trans _ _ _ (preserves_start_all f l Hs _ _ _ E1)
           (preserves_completions f _ _ Hr _ _ _ E2)).
Qed.

Lemma preserves_promise_all {A C B} (f : Async A C B) (l : list A) :
  (forall x, preserves R (start f x)) ->
  (forall c, preserves R (resume f c)) ->
  preserves R (promise_all f l).
Proof.
  intros Hs Hr. unfold promise_all.
  apply preserves_bind; [apply preserves_start_all, Hs | intros slots].
  apply preserves_bind; [apply preserves_completions, Hr | intros [slots' order]].
  destruct (omap rejected slots'); [apply preserves_ret |].
  apply preserves_bind; [| intros _; apply preserves_throw].
  apply preserves_modify. intros st. apply R_inflight.
Qed.

Lemma preserves_for_each {A} (l : list A) (body : A -> M unit) :
  (forall x, preserves R (body x)) -> preserves R (for_each l body).
Proof.
  intros Hb. induction l as [|x rest IH]; simpl.
  - apply preserves_ret.
  - apply preserves_bind; [apply Hb | intros _; exact IH].
Qed.

End Preservation.

(** *** What [Promise.all] keeps *)

Lemma list_sum_map_insert {X} (g : X -> nat) (l : list X) (i : nat) (x y : X) :
  l !! i = Some x ->
  (list_sum (map g (<[i := y]> l)) + g x = list_sum (map g l) + g y)%nat.
Proof.
  revert i. induction l as [|a l IH]; intros [|i]; simpl; try discriminate.
  - intros [= ->]. lia.
  - intros H. specialize (IH _ H). lia.
Qed.

Lemma nth_elem {X} (k : nat) (x : X) (l : list X) : nth k (x :: l) x ∈ x :: l.
Proof.
  destruct (nth_in_or_default k (x :: l) x) as [H|H].
  - apply list_elem_of_In, H.
  - rewrite H. apply list_elem_of_here.
Qed.

Lemma omap_insert_Some {X Y} (g : X -> option Y) (l : list X) (i : nat) (x y : X)
    (v : Y) :
  l !! i = Some x -> g y = Some v -> omap g (<[i := y]> l) <> [].
Proof.
  revert i. induction l as [|a l IH]; intros [|i]; simpl; try discriminate.
  - intros _ ->. discriminate.
  - intros H Hy. destruct (g a); [discriminate | exact (IH _ H Hy)].
Qed.

Section Pool.

Context {A C B : Type} (f : Async A C B).

Lemma waiting_elem (slots : list (Slot C B)) (i0 i : nat) (c : C) :
  (i, c) ∈ waiting i0 slots ->
  exists j, i = (i0 + j)%nat /\ slots !! j = Some (Suspended c).
Proof.
  revert i0. induction slots as [|s rest IH]; intros i0; simpl.
  - intros H. inversion H.
  - assert (Hrest : (i, c) ∈ waiting (S i0) rest ->
                    exists j, i = (i0 + j)%nat /\ (s :: rest) !! j = Some (Suspended c)).
    { intros H. destruct (IH _ H) as (j & -> & Hj). exists (S j).
      split; [lia | exact Hj]. }
    destruct s as [b|e|c']; try exact Hrest.
    intros H. apply elem_of_cons in H as [[= -> ->]|H]; [| exact (Hrest H)].
    exists 0%nat. split; [lia | reflexivity].
Qed.

Lemma waiting_nil_awaits (slots : list (Slot C B)) (i0 : nat) :
  waiting i0 slots = [] -> pending_awaits f slots = 0%nat.
Proof.
  unfold pending_awaits. revert i0.
  induction slots as [|s rest IH]; intros i0; simpl; [reflexivity |].
  destruct s as [b|e|c]; simpl; try discriminate; apply IH.
Qed.

Lemma pending_awaits_zero (slots : list (Slot C B)) (i0 : nat) :
  bounded f -> pending_awaits f slots = 0%nat -> waiting i0 slots = [].
Proof.
  intros [Hpos _]. unfold pending_awaits. revert i0.
  induction slots as [|s rest IH]; intros i0; simpl; [reflexivity |].
  destruct s as [b|e|c]; simpl; try (intros H; exact (IH _ H)).
  pose proof (Hpos c). lia.
Qed.

(** Without a rejection and without a suspended call, every promise is
    fulfilled. *)
Lemma all_fulfilled (slots : list (Slot C B)) :
  omap rejected slots = [] -> waiting 0 slots = [] ->
  length (omap fulfilled slots) = length slots /\
  forall i s, slots !! i = Some s -> exists b, s = Fulfilled b.
Proof.
  generalize 0%nat as i0.
  induction slots as [|s rest IH]; intros i0; simpl.
  - intros _ _. split; [reflexivity |]. intros i s. destruct i; discriminate.
  - destruct s as [b|e|c]; simpl; try discriminate.
    intros Hr Hw. destruct (IH _ Hr Hw) as [Hlen Hall]. split.
    + simpl. f_equal. exact Hlen.
    + intros [|i] s; simpl; [intros [= <-]; eauto | apply Hall].
Qed.

Lemma start_all_Ok (l : list A) (st : State) :
  exists slots st',
    start_all f l st = (Ok slots, st') /\ length slots = length l.
Proof.
  revert st. induction l as [|x rest IH]; intros st; simpl.
  - eexists _, _. split; reflexivity.
  - unfold bind at 1. unfold attempt at 1.
    destruct (start f x st) as [r s1].
    destruct (IH s1) as (slots & s2 & E & Hlen).
    unfold bind at 1. rewrite E. eexists _, _. split; [reflexivity |].
    simpl. f_equal. exact Hlen.
Qed.

(** What one completion does. *)
Lemma complete_one_run (slots : list (Slot C B)) (order : list B) (st : State) :
  (complete_one f (slots, order) st = (Ok (slots, order), st) /\
   (omap rejected slots <> [] \/ waiting 0 slots = [])) \/
  (exists i c s1 r st',
     omap rejected slots = [] /\
     slots !! i = Some (Suspended c) /\
     (s1 = st \/ exists l, s1 = with_world (set_completes l) st) /\
     resume f c s1 = (r, st') /\
     complete_one f (slots, order) st
     = (Ok (<[i := slot_of r]> slots, order ++ returned r), st')).
Proof.
  unfold complete_one.
  destruct (omap rejected slots) as [|e rest] eqn:Hrej;
    [| left; split; [reflexivity | left; discriminate]].
  destruct (waiting 0 slots) as [|oldest others] eqn:Hw;
    [left; split; [reflexivity | right; reflexivity] |].
  right.
  assert (Hpick : forall k, exists i c,
            nth k (oldest :: others) oldest = (i, c) /\
            slots !! i = Some (Suspended c)).
  { intros k. pose proof (nth_elem k oldest others) as Hin.
    destruct (nth k (oldest :: others) oldest) as [i c].
    rewrite <- Hw in Hin. apply waiting_elem in Hin as (j & -> & Hj).
    exists j, c. split; [reflexivity | exact Hj]. }
  unfold next_completion, bind, gets, modify, ret, attempt.
  destruct (completes (world st)) as [|k rest].
  - destruct (Hpick 0%nat) as (i & c & -> & Hi).
    destruct (resume f c st) as [r st'] eqn:Hr.
    exists i, c, st, r, st'. repeat split; auto.
  - destruct (Hpick (k mod S (length others))%nat) as (i & c & -> & Hi).
    destruct (resume f c (with_world (set_completes rest) st)) as [r st'] eqn:Hr.
    exists i, c, (with_world (set_completes rest) st), r, st'.
    repeat split; eauto.
Qed.

Lemma pending_awaits_step (slots : list (Slot C B)) (i : nat) (c : C)
    (r : Result (Step C B)) (st st' : State) :
  bounded f -> slots !! i = Some (Suspended c) -> resume f c st = (r, st') ->
  (pending_awaits f (<[i := slot_of r]> slots) < pending_awaits f slots)%nat.
Proof.
  intros [Hpos Hdec] Hi Hr. unfold pending_awaits.
  pose proof (list_sum_map_insert (slot_awaits f) slots i _ (slot_of r) Hi) as Hsum.
  simpl in Hsum. pose proof (Hpos c).
  destruct r as [[b|c']|e]; simpl in Hsum |- *; try lia.
  pose proof (Hdec _ _ _ _ Hr). lia.
Qed.

(** After as many completions as there were operations to wait for,
    the promise is settled. *)
Lemma completions_settle (n : nat) (slots : list (Slot C B)) (order : list B)
    (st : State) (slots' : list (Slot C B)) (order' : list B) (st' : State) :
  bounded f ->
  omap rejected slots <> [] \/ (pending_awaits f slots <= n)%nat ->
  completions f n (slots, order) st = (Ok (slots', order'), st') ->
  omap rejected slots' <> [] \/ waiting 0 slots' = [].
Proof.
  intros Hb. revert slots order st.
  induction n as [|n IH]; intros slots order st Hn; cbn [completions].
  - intros [= <- <- <-]. destruct Hn as [Hn|Hn]; [left; exact Hn | right].
    apply pending_awaits_zero; [exact Hb | lia].
  - unfold bind at 1.
    destruct (complete_one_run slots order st)
      as [[-> Hdone]|(i & c & s1 & r & s2 & Hrej & Hi & _ & Hr & ->)].
    + intros H. apply (IH _ _ _) in H; [exact H |].
      destruct Hdone as [Hdone|Hdone]; [left; exact Hdone | right].
      rewrite (waiting_nil_awaits _ _ Hdone). lia.
    + intros H. apply (IH _ _ _) in H; [exact H |]. right.
      pose proof (pending_awaits_step _ _ _ _ _ _ Hb Hi Hr).
      destruct Hn as [Hn|Hn]; [congruence | lia].
Qed.

Section Invariant.

(** A property of the promises, of the values returned so far and of
    the state that every completion keeps holds when [Promise.all]
    settles. *)
Variable P : list (Slot C B) -> list B -> State -> Prop.

Hypothesis P_completes : forall slots order st l,
  P slots order st -> P slots order (with_world (set_completes l) st).

Hypothesis P_step : forall slots order st i c r st',
  P slots order st ->
  omap rejected slots = [] ->
  slots !! i = Some (Suspended c) ->
  resume f c st = (r, st') ->
  P (<[i := slot_of r]> slots) (order ++ returned r) st'.

Lemma completions_invariant (n : nat) (slots : list (Slot C B))
    (order : list B) (st : State) :
  P slots order st ->
  exists slots' order' st',
    completions f n (slots, order) st = (Ok (slots', order'), st') /\
    P slots' order' st'.
Proof.
  revert slots order st.
  induction n as [|n IH]; intros slots order st HP; cbn [completions].
  - eexists _, _, _. split; [reflexivity | exact HP].
  - unfold bind at 1.
    destruct (complete_one_run slots order st)
      as [[-> _]|(i & c & s1 & r & s2 & Hrej & Hi & Hs1 & Hr & ->)].
    + apply IH, HP.
    + apply IH. apply (P_step slots order s1 i c r s2); auto.
      destruct Hs1 as [->|[l ->]]; [exact HP | apply P_completes, HP].
Qed.

Lemma promise_all_invariant (l : list A) (st : State)
    (slots0 : list (Slot C B)) (s0 : State) :
  bounded f ->
  start_all f l st = (Ok slots0, s0) ->
  P slots0 (omap fulfilled slots0) s0 ->
  exists slots order s1,
    P slots order s1 /\
    ((omap rejected slots = [] /\ waiting 0 slots = [] /\
      promise_all f l st = (Ok (omap fulfilled slots, order), s1)) \/
     (exists e rest,
        omap rejected slots = e :: rest /\
        promise_all f l st
        = (Throw e,
           with_world (fun w =>
             set_inflight (inflight w ++ map (fun ic => park f (snd ic))
                                             (waiting 0 slots)) w) s1))).
Proof.
  intros Hb Hstart HP.
  destruct (completions_invariant (pending_awaits f slots0) _ _ _ HP)
    as (slots & order & s1 & Hrun & HP1).
  exists slots, order, s1. split; [exact HP1 |].
  pose proof (completions_settle _ _ _ _ _ _ _ Hb (or_intror (le_n _)) Hrun)
    as Hsettled.
  destruct (omap rejected slots) as [|e rest] eqn:Hrej.
  - left. destruct Hsettled as [Hs|Hs]; [congruence |].
    split; [reflexivity |]. split; [exact Hs |].
    unfold promise_all, bind. rewrite Hstart, Hrun, Hrej. reflexivity.
  - right. exists e, rest. split; [reflexivity |].
    unfold promise_all, bind, modify, throw. rewrite Hstart, Hrun, Hrej.
    reflexivity.
Qed.

End Invariant.

Lemma promise_all_length (l : list A) (st st' : State) (values order : list B) :
  bounded f ->
  promise_all f l st = (Ok (values, order), st') ->
  length values = length l.
Proof.
  intros Hb Hrun.
  destruct (start_all_Ok l st) as (slots0 & s0 & Hstart & Hlen).
  destruct (promise_all_invariant (fun slots _ _ => length slots = length l)
              (fun _ _ _ _ H => H)) with (l := l) (st := st) (slots0 := slots0)
              (s0 := s0)
    as (slots & order' & s1 & Hslots & [(Hrej & Hw & E)|(e & rest & _ & E)]);
    auto.
  - intros slots order0 s i c r s' H _ _ _. rewrite length_insert. exact H.
  - rewrite E in Hrun. injection Hrun as <- _ _.
    rewrite (proj1 (all_fulfilled _ Hrej Hw)). exact Hslots.
  - rewrite E in Hrun. discriminate Hrun.
Qed.

End Pool.


Lemma frame_refl (st : State) : frame st st.
Proof. constructor; try reflexivity. exists []. reflexivity. Qed.

Lemma frame_trans (a b c : State) : frame a b -> frame b c -> frame a c.
Proof.
  intros [? ? ? ? ? ? ? [l1 H1]] [? ? ? ? ? ? ? [l2 H2]].
  constructor; try congruence.
  exists (l2 ++ l1). rewrite H2, H1. apply app_assoc.
Qed.

Lemma fault_free_frame (st st' : State) :
  frame st st' -> fault_free st -> fault_free st'.
Proof. intros F H n op. rewrite (frame_fault _ _ F). apply H. Qed.

(** *** What the methods leave alone *)

Create HintDb frame.

Lemma frame_logger lvl msg subject : preserves frame (logger lvl msg subject).
Proof.
  apply preserves_modify. intros st. constructor; simpl; try reflexivity.
  exists [(lvl, msg, subject)]. reflexivity.
Qed.

Lemma frame_fs_call op : preserves frame (fs_call op).
Proof.
  intros st r st'. unfold fs_call.
  destruct (fault _ _ _); intros [= <- <-];
    (constructor; simpl; try reflexivity; exists []; reflexivity).
Qed.

Lemma frame_completes st l : frame st (with_world (set_completes l) st).
Proof. constructor; try reflexivity. exists []. reflexivity. Qed.

Lemma frame_inflight st l : frame st (with_world (set_inflight l) st).
Proof. constructor; try reflexivity. exists []. reflexivity. Qed.

#[local] Hint Resolve frame_logger frame_fs_call : frame.

Ltac frame_tac :=
  repeat match goal with
  | |- preserves frame (bind _ _) =>
      apply (preserves_bind frame frame_trans); [| intros ?]
  | |- preserves frame (try_catch _ _) =>
      apply (preserves_try_catch frame frame_trans); [| intros ?]
  | |- preserves frame (ret _) => apply (preserves_ret frame frame_refl)
  | |- preserves frame (throw _) => apply (preserves_throw frame frame_refl)
  | |- preserves frame (gets _) => apply (preserves_gets frame frame_refl)
  | |- preserves frame (promise_all _ _) =>
      apply (preserves_promise_all frame frame_refl frame_trans
               frame_completes frame_inflight); intros ?; simpl
  | |- preserves frame (attempt _) =>
      apply (preserves_attempt frame)
  | |- preserves frame (settled _) =>
      apply (preserves_settled frame frame_refl)
  | |- preserves frame (for_each _ _) =>
      apply (preserves_for_each frame frame_refl frame_trans); intros ?
  | |- preserves frame (modify _) =>
      apply preserves_modify; intros ?;
      constructor; simpl; try reflexivity; exists []; reflexivity
  | |- preserves frame (match ?x with _ => _ end) => destruct x
  | |- preserves frame _ => solve [auto with frame]
  end.

Lemma frame_fs_mkdir dir : preserves frame (fs_mkdir dir).
Proof. apply frame_fs_call. Qed.

Lemma frame_fs_writeFile file content : preserves frame (fs_writeFile file content).
Proof. unfold fs_writeFile. frame_tac. Qed.

Lemma frame_fs_readFile file : preserves frame (fs_readFile file).
Proof. unfold fs_readFile. frame_tac. Qed.

#[local] Hint Resolve frame_fs_mkdir frame_fs_writeFile frame_fs_readFile : frame.

Lemma frame_ensureDirectory dir : preserves frame (ensureDirectory dir).
Proof. unfold ensureDirectory. frame_tac. Qed.

Lemma frame_ensureDirectory_start dir : preserves frame (ensureDirectory_start dir).
Proof. unfold ensureDirectory_start. frame_tac. Qed.

Lemma frame_ensureDirectory_resume c : preserves frame (ensureDirectory_resume c).
Proof. unfold ensureDirectory_resume. frame_tac. Qed.

#[local] Hint Resolve frame_ensureDirectory frame_ensureDirectory_start
  frame_ensureDirectory_resume : frame.

Lemma frame_ensureDirectories : preserves frame ensureDirectories.
Proof. unfold ensureDirectories. frame_tac. Qed.

Lemma frame_specCache_set id d : preserves frame (specCache_set id d).
Proof. unfold specCache_set. frame_tac. Qed.

Lemma frame_specCache_get id : preserves frame (specCache_get id).
Proof. unfold specCache_get. frame_tac. Qed.

#[local] Hint Resolve frame_ensureDirectories frame_specCache_set
  frame_specCache_get : frame.

Lemma frame_saveSpec d id : preserves frame (saveSpec d id).
Proof. unfold saveSpec. frame_tac. Qed.

Lemma frame_saveSpec_start d id : preserves frame (saveSpec_start d id).
Proof. unfold saveSpec_start. frame_tac. Qed.

Lemma frame_saveSpec_resume c : preserves frame (saveSpec_resume c).
Proof. unfold saveSpec_resume, saveSpec_failed. frame_tac. Qed.

Lemma frame_loadSpec_start id : preserves frame (loadSpec_start id).
Proof. unfold loadSpec_start. frame_tac. Qed.

Lemma frame_loadSpec_resume c : preserves frame (loadSpec_resume c).
Proof. unfold loadSpec_resume, loadSpec_failed. frame_tac. Qed.

Lemma frame_saveSpecCatalog c : preserves frame (saveSpecCatalog c).
Proof. unfold saveSpecCatalog. frame_tac. Qed.

Lemma frame_loadSpec id : preserves frame (loadSpec id).
Proof. unfold loadSpec. frame_tac. Qed.

Lemma frame_scan_loop items pending : preserves frame (scan_loop items pending).
Proof.
  revert pending. induction items as [|r rest IH]; intros pending; simpl.
  - frame_tac.
  - destruct (error r); frame_tac; apply IH.
Qed.

#[local] Hint Resolve frame_saveSpec frame_saveSpecCatalog frame_loadSpec
  frame_scan_loop frame_saveSpec_start frame_saveSpec_resume
  frame_loadSpec_start frame_loadSpec_resume : frame.

Lemma on_throw_preserves R {A} (m : M A) : preserves R m -> on_throw R m.
Proof. intros H st e st' E. exact (H _ _ _ E). Qed.

Lemma on_throw_bind R {A B} (m : M A) (k : A -> M B) :
  (forall a b c, R a b -> R b c -> R a c) ->
  preserves R m -> (forall a, on_throw R (k a)) -> on_throw R (bind m k).
Proof.
  intros Htrans Hm Hk st e st'. unfold bind.
  destruct (m st) as [[a|e0] s] eqn:E.
  - intros H. exact (Htrans _ _ _ (Hm _ _ _ E) (Hk _ _ _ _ H)).
  - intros [= <- <-]. exact (Hm _ _ _ E).
Qed.

(** X20, the part of C1 that holds: a failed build has code [SCAN_ERROR]
    and leaves the readonly fields and the catalog as they were. *)
Lemma scanAndSave_try_on_throw (folder : string) :
  on_throw frame (scanAndSave_try folder).
Proof.
  unfold scanAndSave_try.
  apply (on_throw_bind frame _ _ frame_trans); [frame_tac | intros stream].
  apply (on_throw_bind frame _ _ frame_trans); [frame_tac | intros pending].
  apply (on_throw_bind frame _ _ frame_trans); [frame_tac | intros _].
  apply (on_throw_bind frame _ _ frame_trans); [frame_tac | intros _].
  apply (on_throw_bind frame _ _ frame_trans); [frame_tac | intros tempCatalog].
  apply (on_throw_bind frame _ _ frame_trans); [frame_tac | intros _].
  intros s0 e0 s. discriminate.
Qed.

(** The part of C1 that holds: a failed build has code [SCAN_ERROR] and
    leaves the readonly fields and the catalog as they were. *)
Lemma scanAndSave_failure_keeps_catalog (folder : string) (st st' : State)
    (e : JsError) :
  scanAndSave folder st = (Throw e, st') ->
  error_code e = Some SCAN_ERROR /\ frame st st'.
Proof.
  unfold scanAndSave. unfold bind at 1. unfold logger at 1, modify at 1.
  intros H. apply try_catch_Throw in H as (e0 & s & Hbody & Hh).
  injection Hh as <- <-. split; [reflexivity |].
  apply scanAndSave_try_on_throw in Hbody.
  eapply frame_trans;
    [apply (frame_logger Debug "Starting scan and persist operation"
              (Some folder) st (Ok tt)); reflexivity |].
  eapply frame_trans; [exact Hbody |].
  apply (frame_logger Err "Failed to scan and persist specifications" None
           s (Ok tt)). reflexivity.
Qed.

(** *** A build on a disk without failures *)

Lemma truthy_path_join (a b : string) : truthy_string (path_join a b) = true.
Proof. destruct a; reflexivity. Qed.

Ltac run_ok H :=
  repeat progress
    (unfold ensureDirectories, saveSpec, saveSpecCatalog, ensureDirectory,
       fs_writeFile, fs_mkdir, fs_call, specCache_set, try_catch, bind, logger,
       modify, gets, ret, throw; simpl;
     rewrite ?H; simpl).

(** *** The three asynchronous functions *)

Ltac run_call :=
  unfold saveSpec_resume, saveSpec_start, saveSpec_failed, loadSpec_resume,
    loadSpec_start, loadSpec_failed, ensureDirectory_resume,
    ensureDirectory_start, fs_writeFile, fs_readFile, fs_mkdir, fs_call,
    specCache_set, specCache_get, attempt, settled, try_catch, bind, logger,
    modify, gets, ret, throw; simpl.

Lemma ensureDirectory_async_bounded : bounded ensureDirectory_async.
Proof.
  split; [intros c; simpl; lia |]. intros c st c' st'. simpl.
  run_call. destruct (dc_mkdir c); discriminate.
Qed.

Lemma loadSpec_async_bounded : bounded loadSpec_async.
Proof.
  split; [intros c; simpl; lia |]. intros c st c' st'. simpl.
  run_call.
  destruct (lc_read c) as [[d|cat|]|e]; simpl;
    try discriminate; destruct (is_ENOENT _); discriminate.
Qed.

(** The stretch of [saveSpec] after the directory: the write is issued,
    and the store is as before. *)
Lemma saveSpec_resume_dir (spec : Document) (id : string) (inner : DirCall)
    (st : State) (r : Result (Step SaveCall unit)) (st' : State) :
  saveSpec_resume (SaveAwaitsDir spec id inner) st = (r, st') ->
  specs (this st') = specs (this st) /\
  ((exists written,
      r = Ok (Await (SaveAwaitsWrite spec id written)) /\
      dc_mkdir inner = Ok tt /\
      (fault_free st -> written = Ok tt)) \/
   (exists e cause, r = Throw e /\ dc_mkdir inner = Throw cause)).
Proof.
  run_call. destruct (dc_mkdir inner) as [[]|e]; simpl.
  - destruct (fault (world st) _ _) eqn:Hf; simpl; intros [= <- <-];
      (split; [reflexivity | left; eexists; repeat split]).
    intros Hff. rewrite Hff in Hf. discriminate Hf.
  - intros [= <- <-]. split; [reflexivity | right; eauto].
Qed.

(** The last stretch of [saveSpec]: the document enters the store, if
    the write went well. *)
Lemma saveSpec_resume_write (spec : Document) (id : string)
    (written : Result unit) (st : State) (r : Result (Step SaveCall unit))
    (st' : State) :
  saveSpec_resume (SaveAwaitsWrite spec id written) st = (r, st') ->
  (written = Ok tt /\ r = Ok (Return tt) /\
   specs (this st') = <[id := spec]> (specs (this st))) \/
  (exists e cause,
     r = Throw e /\ written = Throw cause /\
     specs (this st') = specs (this st)).
Proof.
  run_call. destruct written as [[]|e]; simpl; intros [= <- <-].
  - left. auto.
  - right. eauto.
Qed.

Lemma persist_async_bounded : bounded persist_async.
Proof.
  split; [intros [entry []]; simpl; lia |].
  intros [entry c] st [entry' c'] st'. simpl. unfold bind at 1.
  destruct c as [spec id inner|spec id written];
    destruct (saveSpec_resume _ st) as [r s] eqn:Hr.
  - apply saveSpec_resume_dir in Hr as (_ & [(w & -> & _)|(e & ? & -> & _)]);
      [| discriminate].
    intros [= <- <- <-]. simpl. lia.
  - apply saveSpec_resume_write in Hr as [(_ & -> & _)|(e & ? & -> & _)];
      discriminate.
Qed.

(** Awaited on its own, each of the three functions runs its stretches
    one after the other, and ends as the function written in one piece
    does, in the same state. *)
Lemma ensureDirectory_stretches (dir : string) (st : State) :
  (c <- ensureDirectory_start dir ;; ensureDirectory_resume c) st
  = ensureDirectory dir st.
Proof.
  unfold ensureDirectory. run_call. destruct (fault _ _ _); reflexivity.
Qed.

Lemma saveSpec_stretches (spec : Document) (id : string) (st : State) :
  let run := (c <- saveSpec_start spec id ;;
              r <- saveSpec_resume c ;;
              finish saveSpec_resume r) st in
  outcome (fst run) = Some (fst (saveSpec spec id st)) /\
  snd run = snd (saveSpec spec id st).
Proof.
  unfold saveSpec, ensureDirectory, finish. run_call.
  destruct (fault (world st) _ (Mkdir _)); simpl; [split; reflexivity |].
  destruct (fault (world st) _ (WriteFile _)); simpl; split; reflexivity.
Qed.

Lemma loadSpec_stretches (id : string) (st : State) :
  let run := (r <- loadSpec_start id ;; finish loadSpec_resume r) st in
  outcome (fst run) = Some (fst (loadSpec id st)) /\
  snd run = snd (loadSpec id st).
Proof.
  unfold loadSpec, finish. run_call.
  destruct (SimpleCache.get _ _ _) as [[d|] c]; simpl; [split; reflexivity |].
  destruct (fault _ _ _) as [e|]; simpl.
  - destruct (is_ENOENT e); split; reflexivity.
  - destruct (files (world st) !! _) as [[d|cat|]|]; simpl; split; reflexivity.
Qed.

(** *** Directories *)

Lemma start_directories (dirs : list string) (st : State) :
  exists slots0 s0,
    start_all ensureDirectory_async dirs st = (Ok slots0, s0) /\
    this s0 = this st /\
    files (world s0) = files (world st) /\
    fault (world s0) = fault (world st) /\
    trace (world s0) = rev (map Mkdir dirs) ++ trace (world st) /\
    omap fulfilled slots0 = [] /\
    length slots0 = length dirs /\
    forall i dir,
      dirs !! i = Some dir ->
      exists s, slots0 !! i = Some s /\
                dir_slot (fault (world st)) (length (trace (world st)) + i) dir s.
Proof.
  revert st. induction dirs as [|dir0 rest IH]; intros st.
  - exists [], st. repeat split. intros i dir. destruct i; discriminate.
  - cbn [start_all]. unfold bind at 1.
    destruct (attempt (start ensureDirectory_async dir0) st) as [r s1] eqn:E1.
    assert (H1 : r = Ok (Ok (Await {| dc_dir := dir0;
                   dc_mkdir := match fault (world st) (length (trace (world st)))
                                       (Mkdir dir0) with
                               | Some e => Throw e
                               | None => Ok tt
                               end |})) /\
                 s1 = with_world (set_trace (Mkdir dir0 :: trace (world st))) st).
    { revert E1. simpl. run_call.
      destruct (fault _ _ _); intros [= <- <-]; split; reflexivity. }
    destruct H1 as [-> ->].
    destruct (IH (with_world (set_trace (Mkdir dir0 :: trace (world st))) st))
      as (slots & s0 & E & Hthis & Hfiles & Hfault & Htrace & Hful & Hlen & Hslots).
    unfold bind at 1. rewrite E. unfold ret.
    eexists _, _. split; [reflexivity |]. simpl in *.
    split; [exact Hthis |]. split; [exact Hfiles |]. split; [exact Hfault |].
    split; [rewrite Htrace, <- app_assoc; reflexivity |].
    split; [exact Hful |]. split; [f_equal; exact Hlen |].
    intros [|i] dir; simpl.
    + intros [= <-]. eexists. split; [reflexivity |]. simpl.
      rewrite Nat.add_0_r. split; reflexivity.
    + intros Hi. destruct (Hslots i dir Hi) as (s & Hs & Hd).
      exists s. split; [exact Hs |].
      rewrite Nat.add_succ_r. exact Hd.
Qed.

(** [ensureDirectories] asks for the three directories at once, touches
    neither the service nor a file, and succeeds exactly when none of
    the three calls of [fs.mkdir] fails; when it fails it names a
    directory that could not be created, with the failure of that very
    [fs.mkdir] as cause. *)
Lemma ensureDirectories_run (st st' : State) (r : Result unit) :
  let mkdir i dir :=
    fault (world st) (length (trace (world st)) + i) (Mkdir dir) in
  ensureDirectories st = (r, st') ->
  this st' = this st /\
  files (world st') = files (world st) /\
  trace (world st')
  = [Mkdir (dereferencedPath (this st)); Mkdir (catalogPath (this st));
     Mkdir (folderPath (this st))] ++ trace (world st) /\
  match r with
  | Ok _ =>
      forall i dir, directories (this st) !! i = Some dir -> mkdir i dir = None
  | Throw e =>
      exists i dir cause,
        directories (this st) !! i = Some dir /\
        mkdir i dir = Some cause /\
        e = SpecServiceError ("Failed to create directory " +:+ dir)
              INIT_ERROR (Some cause)
  end.
Proof.
  intros mkdir. unfold ensureDirectories. unfold bind at 1.
  unfold logger at 1, modify at 1. unfold bind at 1. unfold gets at 1.
  set (s := with_world _ st). simpl this.
  change [folderPath (this st); catalogPath (this st); dereferencedPath (this st)]
    with (directories (this st)).
  destruct (start_directories (directories (this st)) s)
    as (slots0 & s0 & Hstart & Hthis & Hfiles & Hfault & Htrace & Hful & Hlen & Hslots).
  pose (P := fun (slots : list (Slot DirCall unit)) (_ : list unit) (s1 : State) =>
    this s1 = this s0 /\ files (world s1) = files (world s0) /\
    trace (world s1) = trace (world s0) /\
    length slots = length (directories (this st)) /\
    forall i dir,
      directories (this st) !! i = Some dir ->
      exists sl, slots !! i = Some sl /\
                 dir_slot (fault (world st)) (length (trace (world st)) + i) dir sl).
  destruct (promise_all_invariant ensureDirectory_async P) with
    (l := directories (this st)) (st := s) (slots0 := slots0) (s0 := s0)
    as (slots & order & s1 & (H1 & H2 & H3 & H4 & H5) & Hend).
  - intros slots order s1 l (? & ? & ? & ? & ?). repeat split; assumption.
  - intros slots order s1 i c r1 s2 (? & ? & ? & Hl & Hs) _ Hi Hr.
    assert (Hres : s2 = s1 /\
                   r1 = match dc_mkdir c with
                        | Ok _ => Ok (Return tt)
                        | Throw e =>
                            Throw (SpecServiceError
                                     ("Failed to create directory " +:+ dc_dir c)
                                     INIT_ERROR (Some e))
                        end).
    { revert Hr. simpl. run_call.
      destruct (dc_mkdir c) as [[]|e]; intros [= <- <-]; split; reflexivity. }
    destruct Hres as [-> ->].
    repeat split; try assumption; [rewrite length_insert; exact Hl |].
    intros j dir Hj. destruct (Hs j dir Hj) as (sl & Hsl & Hd).
    destruct (decide (i = j)) as [->|Hne].
    + rewrite Hsl in Hi. injection Hi as ->. simpl in Hd. destruct Hd as [Hd1 Hd2].
      eexists. split; [apply list_lookup_insert_eq; eapply lookup_lt_Some, Hsl |].
      rewrite Hd1, Hd2. unfold dir_slot.
      destruct (fault (world st) _ _); simpl; eauto.
    + exists sl. split; [| exact Hd]. rewrite list_lookup_insert_ne; assumption.
  - apply ensureDirectory_async_bounded.
  - exact Hstart.
  - repeat split; first [assumption | exact Hslots].
  - assert (Hstate : this s1 = this st /\ files (world s1) = files (world st) /\
                     trace (world s1)
                     = [Mkdir (dereferencedPath (this st));
                        Mkdir (catalogPath (this st));
                        Mkdir (folderPath (this st))] ++ trace (world st)).
    { rewrite H1, H2, H3, Hthis, Hfiles, Htrace. repeat split. }
    destruct Hstate as (Ha & Hb & Hc).
    destruct Hend as [(Hrej & Hw & E)|(e & rest & Hrej & E)];
      unfold bind; rewrite E.
    + unfold ret. intros [= <- <-].
      split; [exact Ha |]. split; [exact Hb |]. split; [exact Hc |].
      intros i dir Hi. destruct (H5 i dir Hi) as (sl & Hsl & Hd).
      destruct (proj2 (all_fulfilled _ Hrej Hw) i sl Hsl) as [b ->]. exact Hd.
    + intros [= <- <-].
      split; [exact Ha |]. split; [exact Hb |]. split; [exact Hc |].
      assert (He : e ∈ omap rejected slots) by (rewrite Hrej; apply list_elem_of_here).
      apply list_elem_of_omap in He as (sl & Hin & Hsl).
      apply list_elem_of_lookup in Hin as [i Hi].
      destruct (lookup_lt_is_Some_2 (directories (this st)) i) as [dir Hdir].
      { rewrite <- H4. eapply lookup_lt_Some, Hi. }
      destruct (H5 i dir Hdir) as (sl' & Hsl' & Hd).
      rewrite Hi in Hsl'. injection Hsl' as <-.
      destruct sl as [b|e'|c]; try discriminate. injection Hsl as ->.
      destruct Hd as (cause & Hcause & ->). exists i, dir, cause. auto.
Qed.

Lemma ensureDirectories_ok (st : State) :
  fault_free st ->
  exists st', ensureDirectories st = (Ok tt, st') /\
              specs (this st') = specs (this st).
Proof.
  intros Hff. destruct (ensureDirectories st) as [r st'] eqn:E.
  destruct (ensureDirectories_run _ _ _ E) as (Hthis & _ & _ & Hr).
  destruct r as [[]|e].
  - exists st'. split; [reflexivity |]. rewrite Hthis. reflexivity.
  - destruct Hr as (i & dir & cause & _ & Hf & _). rewrite Hff in Hf.
    discriminate Hf.
Qed.

(** *** The documents of a build *)

Lemma omap_nil {X Y} (g : X -> option Y) (l : list X) :
  (forall x, x ∈ l -> g x = None) -> omap g l = [].
Proof.
  induction l as [|a l IH]; intros H; simpl; [reflexivity |].
  rewrite (H a (list_elem_of_here _ _)). apply IH.
  intros x Hx. apply H, list_elem_of_further, Hx.
Qed.

Lemma omap_insert_same {X Y} (g : X -> option Y) (l : list X) (i : nat) (x y : X) :
  l !! i = Some x -> g y = g x -> omap g (<[i := y]> l) = omap g l.
Proof.
  revert i. induction l as [|a l IH]; intros [|i]; simpl; try discriminate.
  - intros [= ->] ->. reflexivity.
  - intros H Hy. pose proof (IH _ H Hy) as IH'.
    destruct (g a); [f_equal |]; exact IH'.
Qed.

Lemma omap_insert_taken {X Y} (g : X -> option Y) (l : list X) (i : nat)
    (x y : X) (v : Y) :
  l !! i = Some x -> g x = Some v -> g y = None ->
  omap g l ≡ₚ v :: omap g (<[i := y]> l).
Proof.
  revert i. induction l as [|a l IH]; intros [|i]; simpl; try discriminate.
  - intros [= ->] -> ->. reflexivity.
  - intros H Hx Hy. pose proof (IH _ H Hx Hy) as IH'.
    destruct (g a) as [w|]; [| exact IH'].
    rewrite IH'. apply Permutation_swap.
Qed.

Lemma store_all_snoc (saved : list (Document * SpecCatalogEntry)) (d : Document)
    (e : SpecCatalogEntry) (m : gmap string Document) :
  store_all (saved ++ [(d, e)]) m = <[specId (uri e) := d]> (store_all saved m).
Proof. unfold store_all. rewrite fold_left_app. reflexivity. Qed.

Lemma call_ok_not_rejected
    (slots : list (Slot (SpecCatalogEntry * SaveCall) SpecCatalogEntry)) :
  Forall call_ok slots -> omap rejected slots = [].
Proof.
  induction 1 as [|s rest Hs _ IH]; [reflexivity |].
  destruct s as [b|e|c]; simpl; [exact IH | contradiction | exact IH].
Qed.

Lemma frame_persist_start x : preserves frame (start persist_async x).
Proof. destruct x as [spec entry]. simpl. frame_tac. Qed.

Lemma frame_persist_resume c : preserves frame (resume persist_async c).
Proof. destruct c as [entry c]. simpl. frame_tac. Qed.

Lemma frame_persist pending : preserves frame (promise_all persist_async pending).
Proof.
  apply (preserves_promise_all frame frame_refl frame_trans frame_completes
           frame_inflight).
  - apply frame_persist_start.
  - apply frame_persist_resume.
Qed.

Lemma start_persist (pending : list (Document * SpecCatalogEntry)) (st : State) :
  exists slots0 s0,
    start_all persist_async pending st = (Ok slots0, s0) /\
    specs (this s0) = specs (this st) /\
    omap call_item slots0 = pending /\
    Forall call_keyed slots0 /\
    omap rejected slots0 = [] /\
    omap fulfilled slots0 = [] /\
    frame st s0 /\
    (fault_free st -> Forall call_ok slots0).
Proof.
  revert st. induction pending as [|[spec entry] rest IH]; intros st.
  - exists [], st. split; [reflexivity |]. split; [reflexivity |].
    split; [reflexivity |]. split; [constructor |]. split; [reflexivity |].
    split; [reflexivity |]. split; [apply frame_refl |]. intros _. constructor.
  - cbn [start_all]. unfold bind at 1.
    destruct (attempt (start persist_async (spec, entry)) st) as [r s1] eqn:E1.
    assert (F1 : frame st s1).
    { revert E1. apply (preserves_attempt frame), frame_persist_start. }
    assert (H1 : exists inner,
              r = Ok (Ok (Await (entry, SaveAwaitsDir spec (specId (uri entry)) inner))) /\
              specs (this s1) = specs (this st) /\
              (fault_free st -> dc_mkdir inner = Ok tt)).
    { revert E1. simpl. run_call.
      destruct (fault (world st) _ _) eqn:Hf; intros [= <- <-];
        (eexists; split; [reflexivity |]; split; [reflexivity |]); simpl;
        [| reflexivity].
      intros Hff. rewrite Hff in Hf. discriminate Hf. }
    destruct H1 as (inner & -> & Hs1 & Hok).
    destruct (IH s1) as (slots & s0 & E & Hs & Hitems & Hkeyed & Hrej & Hful & F & Hoks).
    unfold bind at 1. rewrite E. unfold ret.
    eexists _, _. split; [reflexivity |]. simpl.
    split; [congruence |]. split; [f_equal; exact Hitems |].
    split; [constructor; [reflexivity | exact Hkeyed] |].
    split; [exact Hrej |]. split; [exact Hful |].
    split; [exact (frame_trans _ _ _ F1 F) |].
    intros Hff. constructor; [exact (Hok Hff) |].
    apply Hoks. exact (fault_free_frame _ _ F1 Hff).
Qed.

(** The calls of [saveSpec] made by a build return in some order, and
    [Promise.all] is fulfilled once all of them have: the store is then
    the earlier one with the pending documents written over it in that
    order, which is also the order of the entries pushed.  Without a
    failing file system call all of them return. *)
Lemma persist_settles (pending : list (Document * SpecCatalogEntry))
    (st : State) :
  exists r st',
    promise_all persist_async pending st = (r, st') /\
    frame st st' /\
    (forall values order,
       r = Ok (values, order) ->
       exists saved,
         saved ≡ₚ pending /\
         order = map snd saved /\
         specs (this st') = store_all saved (specs (this st))) /\
    (fault_free st -> exists v, r = Ok v).
Proof.
  destruct (promise_all persist_async pending st) as [r st'] eqn:Hrun.
  exists r, st'. split; [reflexivity |].
  split; [exact (frame_persist _ _ _ _ Hrun) |].
  destruct (start_persist pending st)
    as (slots0 & s0 & Hstart & Hs0 & Hitems & Hkeyed & Hrej0 & Hful & F0 & Hok0).
  pose (P := fun (slots : list (Slot (SpecCatalogEntry * SaveCall) SpecCatalogEntry))
                 (order : list SpecCatalogEntry) (s : State) =>
    (omap rejected slots = [] ->
     Forall call_keyed slots /\
     exists saved,
       order = map snd saved /\
       specs (this s) = store_all saved (specs (this st)) /\
       saved ++ omap call_item slots ≡ₚ pending) /\
    (fault_free st -> fault_free s /\ Forall call_ok slots)).
  destruct (promise_all_invariant persist_async P) with
    (l := pending) (st := st) (slots0 := slots0) (s0 := s0)
    as (slots & order & s1 & [HP HQ] & Hend).
  - intros slots order s l [HP HQ]. split; [exact HP | exact HQ].
  - intros slots order s i [entry c] r1 s2 [HP HQ] Hrej Hi Hr.
    assert (F : frame s s2) by exact (frame_persist_resume _ _ _ _ Hr).
    destruct (HP Hrej) as (Hkey & saved & Horder & Hspecs & Hperm).
    pose proof (proj1 (Forall_lookup _ _) Hkey i _ Hi) as Hid.
    simpl in Hr. unfold bind at 1 in Hr.
    destruct (saveSpec_resume c s) as [r0 s'] eqn:Hr0.
    destruct c as [spec id inner|spec id written].
    + apply saveSpec_resume_dir in Hr0
        as (Hsame & [(written & -> & Hin & Hw)|(e & cause & -> & Hin)]);
        injection Hr as <- <-; simpl.
      * split.
        -- intros _. split; [apply Forall_insert; [exact Hkey | exact Hid] |].
           exists saved. rewrite app_nil_r.
           split; [exact Horder |]. split; [congruence |].
           rewrite (omap_insert_same call_item _ _ _ _ Hi); [exact Hperm |].
           reflexivity.
        -- intros Hff. destruct (HQ Hff) as [Hffs Hoks].
           split; [exact (fault_free_frame _ _ F Hffs) |].
           apply Forall_insert; [exact Hoks |]. exact (Hw Hffs).
      * split.
        -- intros Hno. exfalso. revert Hno.
           exact (omap_insert_Some rejected slots i _ (Rejected e) e Hi eq_refl).
        -- intros Hff. destruct (HQ Hff) as [_ Hoks]. exfalso.
           pose proof (proj1 (Forall_lookup _ _) Hoks i _ Hi) as Hc.
           simpl in Hc. congruence.
    + apply saveSpec_resume_write in Hr0
        as [(-> & -> & Hstore)|(e & cause & -> & -> & Hsame)];
        injection Hr as <- <-; simpl.
      * split.
        -- intros _. split; [apply Forall_insert; [exact Hkey | exact I] |].
           exists (saved ++ [(spec, entry)]).
           split; [rewrite map_app, Horder; reflexivity |].
           split.
           { rewrite store_all_snoc, Hstore, Hspecs. simpl in Hid.
             rewrite Hid. reflexivity. }
           rewrite <- Hperm.
           rewrite (omap_insert_taken call_item slots i _
                      (Fulfilled entry) (spec, entry) Hi eq_refl eq_refl).
           rewrite <- app_assoc. reflexivity.
        -- intros Hff. destruct (HQ Hff) as [Hffs Hoks].
           split; [exact (fault_free_frame _ _ F Hffs) |].
           apply Forall_insert; [exact Hoks | exact I].
      * split.
        -- intros Hno. exfalso. revert Hno.
           exact (omap_insert_Some rejected slots i _ (Rejected e) e Hi eq_refl).
        -- intros Hff. destruct (HQ Hff) as [_ Hoks]. exfalso.
           pose proof (proj1 (Forall_lookup _ _) Hoks i _ Hi) as Hc.
           simpl in Hc. discriminate Hc.
  - apply persist_async_bounded.
  - exact Hstart.
  - split.
    + intros _. split; [exact Hkeyed |]. exists []. rewrite Hful, Hitems.
      split; [reflexivity |]. split; [exact Hs0 | reflexivity].
    + intros Hff. split; [exact (fault_free_frame _ _ F0 Hff) | exact (Hok0 Hff)].
  - destruct Hend as [(Hrej & Hw & E)|(e & rest & Hrej & E)];
      rewrite E in Hrun; injection Hrun as <- <-.
    + split; [| eauto]. intros values order' [= <- <-].
      destruct (HP Hrej) as (_ & saved & Horder & Hspecs & Hperm).
      exists saved. split; [| split; assumption].
      rewrite <- Hperm.
      assert (Hnone : omap call_item slots = []).
      { apply omap_nil. intros s Hin.
        apply list_elem_of_lookup in Hin as [i Hi].
        destruct (proj2 (all_fulfilled _ Hrej Hw) i s Hi) as [b ->].
        reflexivity. }
      rewrite Hnone, app_nil_r. reflexivity.
    + split; [discriminate |]. intros Hff. exfalso.
      destruct (HQ Hff) as [_ Hoks].
      rewrite (call_ok_not_rejected _ Hoks) in Hrej. discriminate Hrej.
Qed.

Lemma saveSpecCatalog_ok (st : State) (c : list SpecCatalogEntry) :
  fault_free st ->
  truthy_string (catalogPath (this st)) = true ->
  exists st', saveSpecCatalog c st = (Ok tt, st') /\
              specs (this st') = specs (this st).
Proof.
  intros H Hp. run_ok H. rewrite Hp. simpl. rewrite H. simpl.
  eexists. split; reflexivity.
Qed.

Lemma scan_loop_ok (items : list ScanResult)
    (pending : list (Document * SpecCatalogEntry)) (st : State) :
  exists st',
    scan_loop items pending st = (Ok (pending ++ accepted items), st') /\
    specs (this st') = specs (this st) /\
    forall r, r ∈ items -> has_error r = true ->
              scan_warning r ∈ log (world st').
Proof.
  revert pending st. induction items as [|r rest IH]; intros pending st; simpl.
  - exists st. rewrite app_nil_r. repeat split. intros r Hr. inversion Hr.
  - unfold has_error in *. destruct (error r) as [err|] eqn:Herr.
    + unfold bind at 1. unfold logger at 1, modify at 1.
      match goal with |- context [scan_loop rest pending ?s] =>
        destruct (IH pending s) as (st' & E & Hs & Hlog);
        pose proof (frame_scan_loop _ _ _ _ _ E) as F
      end.
      exists st'. split; [exact E |]. split; [exact Hs |].
      intros r' Hr' He. apply elem_of_cons in Hr' as [->|Hr'].
      * destruct (frame_log _ _ F) as [l ->]. apply elem_of_app. right.
        simpl. apply list_elem_of_here.
      * exact (Hlog r' Hr' He).
    + destruct (spec r) as [d|]; unfold bind at 1, try_catch, ret at 1, throw;
        simpl.
      * destruct (IH (pending ++ [(d, make_entry (sr_specId r) d)]) st)
          as (st' & E & Hs & Hlog).
        exists st'. rewrite E, <- app_assoc. repeat split; [exact Hs |].
        intros r' Hr' He. apply elem_of_cons in Hr' as [->|Hr'].
        -- rewrite Herr in He. discriminate.
        -- exact (Hlog r' Hr' He).
      * match goal with |- context [scan_loop rest pending ?s] =>
          destruct (IH pending s) as (st' & E & Hs & Hlog)
        end.
        exists st'. split; [exact E |]. split; [exact Hs |].
        intros r' Hr' He. apply elem_of_cons in Hr' as [->|Hr'].
        -- rewrite Herr in He. discriminate.
        -- exact (Hlog r' Hr' He).
Qed.

Lemma accepted_elem (items : list ScanResult) (d : Document) (e : SpecCatalogEntry) :
  (d, e) ∈ accepted items ->
  exists r, r ∈ items /\ has_error r = false /\ spec r = Some d /\
            e = make_entry (sr_specId r) d.
Proof.
  unfold has_error.
  induction items as [|r rest IH]; simpl; [intros H; inversion H |].
  destruct (error r) eqn:Herr; [| destruct (spec r) as [d'|] eqn:Hspec].
  - intros H. destruct (IH H) as (r' & ? & ?). exists r'.
    split; [apply list_elem_of_further |]; assumption.
  - intros H. apply elem_of_cons in H as [[= -> ->]|H].
    + exists r. rewrite Herr. repeat split; auto. apply list_elem_of_here.
    + destruct (IH H) as (r' & ? & ?). exists r'.
      split; [apply list_elem_of_further |]; assumption.
  - intros H. destruct (IH H) as (r' & ? & ?). exists r'.
    split; [apply list_elem_of_further |]; assumption.
Qed.

Lemma accepted_length (items : list ScanResult) :
  (forall r, r ∈ items -> has_error r = false -> is_Some (spec r)) ->
  (length (accepted items) + length (List.filter has_error items))%nat
  = length items.
Proof.
  unfold has_error.
  induction items as [|r rest IH]; simpl; [reflexivity |]. intros H.
  assert (IH' := IH (fun r' Hr' => H r' (list_elem_of_further _ _ _ Hr'))).
  specialize (H r (list_elem_of_here _ _)).
  destruct (error r); simpl; [lia |].
  destruct (H eq_refl) as [d ->]. simpl. lia.
Qed.

Lemma store_all_other (pending : list (Document * SpecCatalogEntry))
    (m : gmap string Document) (id : string) :
  (forall d e, (d, e) ∈ pending -> specId (uri e) <> id) ->
  store_all pending m !! id = m !! id.
Proof.
  unfold store_all. revert m.
  induction pending as [|[d e] rest IH]; intros m H; simpl; [reflexivity |].
  rewrite IH.
  - apply lookup_insert_ne. apply (H d e), list_elem_of_here.
  - intros d' e' Hin. apply (H d' e'), list_elem_of_further, Hin.
Qed.

Lemma scanAndSave_ok (st : State) (folder : string) :
  fault_free st ->
  constructed (this st) ->
  failure (scanner (world st) folder) = None ->
  exists st' saved,
    scanAndSave folder st = (Ok tt, st') /\
    saved ≡ₚ accepted (yielded (scanner (world st) folder)) /\
    catalog (this st') = map snd saved /\
    specs (this st') = store_all saved (specs (this st)) /\
    forall r, r ∈ yielded (scanner (world st) folder) -> has_error r = true ->
              scan_warning r ∈ log (world st').
Proof.
  intros Hff [Hcat _] Hfail.
  unfold scanAndSave. unfold bind at 1. unfold logger at 1, modify at 1.
  unfold try_catch, scanAndSave_try. unfold bind at 1. unfold gets at 1.
  simpl scanner. unfold bind at 1.
  match goal with |- context [scan_loop ?i [] ?s] =>
    destruct (scan_loop_ok i [] s) as (s1 & E1 & Hs1 & Hlog1);
    pose proof (frame_scan_loop _ _ _ _ _ E1) as F1
  end.
  rewrite E1. simpl app. rewrite Hfail. unfold bind at 1. unfold ret at 1.
  assert (Hff1 : fault_free s1) by (apply (fault_free_frame _ _ F1); exact Hff).
  destruct (ensureDirectories_ok s1 Hff1) as (s2 & E2 & Hs2).
  pose proof (frame_ensureDirectories _ _ _ E2) as F2.
  unfold bind at 1. rewrite E2.
  assert (Hff2 : fault_free s2) by (apply (fault_free_frame _ _ F2); exact Hff1).
  destruct (persist_settles (accepted (yielded (scanner (world st) folder))) s2)
    as (r & s3 & E3 & F3 & Hsaved & Htotal).
  destruct (Htotal Hff2) as [[values order] ->].
  destruct (Hsaved _ _ eq_refl) as (saved & Hperm & -> & Hs3).
  unfold bind at 1. rewrite E3. cbn [snd].
  assert (Hff3 : fault_free s3) by (apply (fault_free_frame _ _ F3); exact Hff2).
  destruct (saveSpecCatalog_ok s3 (map snd saved) Hff3) as (s4 & E4 & Hs4).
  { rewrite (frame_catalogPath _ _ F3), (frame_catalogPath _ _ F2),
      (frame_catalogPath _ _ F1). simpl. rewrite Hcat. apply truthy_path_join. }
  pose proof (frame_saveSpecCatalog _ _ _ _ E4) as F4.
  unfold bind at 1. rewrite E4.
  unfold bind, modify, logger. simpl.
  eexists _, saved. split; [reflexivity |]. simpl.
  split; [exact Hperm |]. split; [reflexivity |]. split.
  - rewrite Hs4, Hs3, Hs2, Hs1. reflexivity.
  - intros r Hr He.
    destruct (frame_log _ _ (frame_trans _ _ _ F2 (frame_trans _ _ _ F3 F4)))
      as [l ->].
    apply elem_of_cons. right. apply elem_of_app. right.
    exact (Hlog1 r Hr He).
Qed.

(** The part of C7 that holds: on a disk without failures and a scan
    that ends normally, the build succeeds whatever items have [error]
    set; each such item is logged with a warning and contributes
    nothing: the catalog is made of the entries of the other items, in
    the order in which their documents were saved, so that three items
    of which one has [error] set give 2 entries; an item with [error]
    set whose specId no other item shares is not in the catalog, and
    the build leaves the store as it was at that specId. *)
Lemma scanAndSave_skips_items_with_error (st : State) (folder : string) :
  let items := yielded (scanner (world st) folder) in
  fault_free st ->
  constructed (this st) ->
  failure (scanner (world st) folder) = None ->
  exists st',
    scanAndSave folder st = (Ok tt, st') /\
    catalog (this st') ≡ₚ map snd (accepted items) /\
    (forall r, r ∈ items -> has_error r = true ->
       scan_warning r ∈ log (world st') /\
       ((forall r', r' ∈ items -> has_error r' = false ->
           sr_specId r' <> sr_specId r) ->
        (sr_specId r ∉ catalog_ids (catalog (this st'))) /\
        specs (this st') !! sr_specId r = specs (this st) !! sr_specId r)) /\
    (length items = 3%nat ->
     length (List.filter has_error items) = 1%nat ->
     (forall r, r ∈ items -> has_error r = false -> is_Some (spec r)) ->
     length (catalog (this st')) = 2%nat).
Proof.
  intros items Hff Hc Hfail.
  destruct (scanAndSave_ok st folder Hff Hc Hfail)
    as (st' & saved & E & Hperm & Hcat & Hspecs & Hlog).
  fold items in Hperm, Hlog.
  exists st'. split; [exact E |]. split; [rewrite Hcat, Hperm; reflexivity |].
  split.
  - intros r Hr He. split; [exact (Hlog r Hr He) |]. intros Huniq.
    assert (Hother : forall d e, (d, e) ∈ saved -> specId (uri e) <> sr_specId r).
    { intros d e Hin. rewrite Hperm in Hin.
      destruct (accepted_elem _ _ _ Hin) as (r' & Hr' & He' & _ & ->).
      simpl. exact (Huniq r' Hr' He'). }
    split.
    + rewrite Hcat. unfold catalog_ids. rewrite map_map.
      intros Hin. apply list_elem_of_In, in_map_iff in Hin as ([d e] & Heq & Hin).
      apply list_elem_of_In in Hin. exact (Hother d e Hin Heq).
    + rewrite Hspecs. apply store_all_other. exact Hother.
  - intros Hlen Herr Hdocs. rewrite Hcat, length_map, Hperm.
    pose proof (accepted_length items Hdocs). lia.
Qed.

(** C7 at a failing input: an earlier build stored a document under
    [broken]; the scanner now yields three files, of which the one of
    [broken] cannot be read.  The build succeeds and the catalog has
    exactly the 2 other entries, but the store still holds the document
    of [broken], and lookups under that specId still answer from it. *)
Theorem scanAndSave_keeps_failed_document :
  map has_error three_files = [false; true; false] /\
  map sr_specId three_files = ["petstore"; "broken"; "orders"] /\
  exists st',
    scanAndSave "specs" stale_state = (Ok tt, st') /\
    catalog_ids (catalog (this st')) = ["petstore"; "orders"] /\
    specs (this st') !! "broken" = Some orders /\
    exists res,
      findOperationById "broken" "listOrders" st' = (Ok (Some res), st').
Proof.
  split; [reflexivity |]. split; [reflexivity |].
  pose (built := scanAndSave "specs" stale_state).
  exists (snd built).
  split; [vm_compute; reflexivity |].
  split; [vm_compute; reflexivity |].
  split; [vm_compute; reflexivity |].
  eexists. vm_compute. reflexivity.
Qed.

(** ** Schema search *)

(** The candidates of [searchSchemas]: the schema entries of the catalog
    entries in scope, in catalog order, each with the [specId] of its
    entry.  What Fuse keeps of them, and in which order, is the
    library's matter. *)
Lemma schemaEntries_candidates (s : Service) (id : option string) :
  schemaEntries s id
  = flat_map (fun e =>
      map (fun sch => {| se_name := se_name sch;
                         se_description := se_description sch;
                         se_specId := Some (specId (uri e)) |}) (schemas e))
      (targetSpecs s id).
Proof.
  unfold schemaEntries.
  change (flat_map ?g ?l) with ([] ++ flat_map g l).
  apply for_of_flat_map. reflexivity.
Qed.

Lemma searchSchemas_candidates
    (fuse_search : list SpecSchemaEntry -> string -> list SpecSchemaEntry)
    (st : State) (query : string) (id : option string) :
  searchSchemas fuse_search query id st
  = (Ok (fuse_search (schemaEntries (this st) id) query), st).
Proof. reflexivity. Qed.

(** ** What a successful build guarantees *)

Lemma same_store_refl (st : State) : same_store st st.
Proof. reflexivity. Qed.

Lemma same_store_trans (a b c : State) :
  same_store a b -> same_store b c -> same_store a c.
Proof. unfold same_store. congruence. Qed.

Create HintDb store.

Lemma store_logger lvl msg subject : preserves same_store (logger lvl msg subject).
Proof. apply preserves_modify. reflexivity. Qed.

Lemma store_fs_call op : preserves same_store (fs_call op).
Proof.
  intros st r st'. unfold fs_call.
  destruct (fault _ _ _); intros [= <- <-]; reflexivity.
Qed.

#[local] Hint Resolve store_logger store_fs_call : store.

Ltac store_tac :=
  repeat match goal with
  | |- preserves same_store (bind _ _) =>
      apply (preserves_bind same_store same_store_trans); [| intros ?]
  | |- preserves same_store (try_catch _ _) =>
      apply (preserves_try_catch same_store same_store_trans); [| intros ?]
  | |- preserves same_store (ret _) =>
      apply (preserves_ret same_store same_store_refl)
  | |- preserves same_store (throw _) =>
      apply (preserves_throw same_store same_store_refl)
  | |- preserves same_store (gets _) =>
      apply (preserves_gets same_store same_store_refl)
  | |- preserves same_store (modify _) =>
      apply preserves_modify; intros ?; reflexivity
  | |- preserves same_store (match ?x with _ => _ end) => destruct x
  | |- preserves same_store _ => solve [auto with store]
  end.

Lemma store_ensureDirectories : preserves same_store ensureDirectories.
Proof.
  intros st r st' E. destruct (ensureDirectories_run _ _ _ E) as (H & _).
  unfold same_store. rewrite H. reflexivity.
Qed.

Lemma store_saveSpecCatalog c : preserves same_store (saveSpecCatalog c).
Proof. unfold saveSpecCatalog, fs_writeFile. store_tac. Qed.

Lemma store_scan_loop items pending : preserves same_store (scan_loop items pending).
Proof.
  revert pending. induction items as [|r rest IH]; intros pending; simpl.
  - store_tac.
  - destruct (error r); store_tac; apply IH.
Qed.

Lemma bind_Ok {A B} (m : M A) (k : A -> M B) st b st' :
  bind m k st = (Ok b, st') ->
  exists a s, m st = (Ok a, s) /\ k a s = (Ok b, st').
Proof.
  unfold bind. destruct (m st) as [[a|e] s]; [eauto | discriminate].
Qed.

Lemma store_all_elem (pending : list (Document * SpecCatalogEntry))
    (m : gmap string Document) (id : string) :
  is_Some (m !! id) \/ id ∈ map (fun p => specId (uri (snd p))) pending ->
  is_Some (store_all pending m !! id).
Proof.
  unfold store_all. revert m.
  induction pending as [|[d e] rest IH]; intros m; simpl.
  - intros [H|H]; [exact H | inversion H].
  - intros H. apply IH.
    destruct (decide (specId (uri e) = id)) as [<-|Hne].
    + left. rewrite lookup_insert_eq. eauto.
    + destruct H as [H|H].
      * left. rewrite lookup_insert_ne; assumption.
      * apply elem_of_cons in H as [H|H]; [congruence | right; exact H].
Qed.

Lemma same_inflight_refl (st : State) : same_inflight st st.
Proof. reflexivity. Qed.

Lemma same_inflight_trans (a b c : State) :
  same_inflight a b -> same_inflight b c -> same_inflight a c.
Proof. unfold same_inflight. congruence. Qed.

Lemma same_inflight_completes st l :
  same_inflight st (with_world (set_completes l) st).
Proof. reflexivity. Qed.

Lemma inflight_fs_call op : preserves same_inflight (fs_call op).
Proof.
  intros st r st'. unfold fs_call.
  destruct (fault _ _ _); intros [= <- <-]; reflexivity.
Qed.

Ltac inflight_tac :=
  repeat match goal with
  | |- preserves same_inflight (bind _ _) =>
      apply (preserves_bind same_inflight same_inflight_trans); [| intros ?]
  | |- preserves same_inflight (try_catch _ _) =>
      apply (preserves_try_catch same_inflight same_inflight_trans); [| intros ?]
  | |- preserves same_inflight (ret _) =>
      apply (preserves_ret same_inflight same_inflight_refl)
  | |- preserves same_inflight (throw _) =>
      apply (preserves_throw same_inflight same_inflight_refl)
  | |- preserves same_inflight (gets _) =>
      apply (preserves_gets same_inflight same_inflight_refl)
  | |- preserves same_inflight (attempt _) =>
      apply (preserves_attempt same_inflight)
  | |- preserves same_inflight (settled _) =>
      apply (preserves_settled same_inflight same_inflight_refl)
  | |- preserves same_inflight (modify _) =>
      apply preserves_modify; intros ?; reflexivity
  | |- preserves same_inflight (fs_call _) => apply inflight_fs_call
  | |- preserves same_inflight (match ?x with _ => _ end) => destruct x
  end.

Lemma inflight_saveSpecCatalog c : preserves same_inflight (saveSpecCatalog c).
Proof. unfold saveSpecCatalog, fs_writeFile. inflight_tac. Qed.

Lemma inflight_scan_loop items pending :
  preserves same_inflight (scan_loop items pending).
Proof.
  revert pending. induction items as [|r rest IH]; intros pending; simpl.
  - inflight_tac.
  - unfold logger. destruct (error r); inflight_tac; apply IH.
Qed.

(** A fulfilled [ensureDirectories] leaves no call in flight, and
    neither do the calls of [saveSpec] once all have returned. *)
Lemma inflight_ensureDirectories (st st' : State) :
  ensureDirectories st = (Ok tt, st') -> same_inflight st st'.
Proof.
  unfold ensureDirectories. intros H.
  apply bind_Ok in H as ([] & s0 & H0 & H). injection H0 as <-.
  apply bind_Ok in H as (s & s1 & H1 & H). injection H1 as <- <-.
  apply bind_Ok in H as (v & s2 & H2 & H). injection H as <-.
  revert H2. apply (promise_all_Ok_keeps same_inflight same_inflight_refl
                      same_inflight_trans same_inflight_completes).
  - intros dir. simpl.
    unfold ensureDirectory_start, fs_mkdir. inflight_tac.
  - intros c. simpl. unfold ensureDirectory_resume. inflight_tac.
Qed.

Lemma inflight_persist (pending : list (Document * SpecCatalogEntry))
    (st st' : State) (v : list SpecCatalogEntry * list SpecCatalogEntry) :
  promise_all persist_async pending st = (Ok v, st') -> same_inflight st st'.
Proof.
  apply (promise_all_Ok_keeps same_inflight same_inflight_refl
           same_inflight_trans same_inflight_completes).
  - intros [spec entry]. simpl.
    unfold saveSpec_start, ensureDirectory_start, fs_mkdir, logger. inflight_tac.
  - intros [entry c]. simpl.
    unfold saveSpec_resume, saveSpec_failed, ensureDirectory_resume,
      fs_writeFile, specCache_set, logger.
    inflight_tac.
Qed.

(** A successful build, step by step: the documents of the accepted
    items were saved in some order, the catalog lists their entries in
    that order, and the store is the earlier one with the documents
    written over it in that order. *)
Lemma scanAndSave_Ok (folder : string) (st st' : State) :
  scanAndSave folder st = (Ok tt, st') ->
  same_inflight st st' /\
  exists saved,
    saved ≡ₚ accepted (yielded (scanner (world st) folder)) /\
    catalog (this st') = map snd saved /\
    specs (this st') = store_all saved (specs (this st)).
Proof.
  intros H.
  unfold scanAndSave in H. apply bind_Ok in H as ([] & s0 & H0 & H).
  injection H0 as <-.
  unfold try_catch in H.
  destruct (scanAndSave_try folder _) as [[[]|e0] s] eqn:Hbody;
    [| discriminate H].
  injection H as <-. unfold scanAndSave_try in Hbody.
  apply bind_Ok in Hbody as (stream & s1 & H1 & Hbody). injection H1 as <- <-.
  apply bind_Ok in Hbody as (pend & s2 & H2 & Hbody).
  destruct (scan_loop_ok (yielded (scanner (world st) folder)) []
              (with_world (fun w => set_log
                 ((Debug, "Starting scan and persist operation", Some folder)
                  :: log w) w) st)) as (s2' & E2 & Hs2 & _).
  pose proof (inflight_scan_loop _ _ _ _ _ E2) as I2.
  simpl scanner in H2. rewrite E2 in H2. injection H2 as <- <-.
  simpl app in Hbody.
  apply bind_Ok in Hbody as ([] & s3 & H3 & Hbody).
  assert (s3 = s2') as ->
    by (destruct (failure _); [discriminate H3 | injection H3 as <-; reflexivity]).
  apply bind_Ok in Hbody as ([] & s4 & H4 & Hbody).
  pose proof (inflight_ensureDirectories _ _ H4) as I4.
  apply store_ensureDirectories in H4.
  apply bind_Ok in Hbody as ([values order] & s5 & H5 & Hbody).
  pose proof (inflight_persist _ _ _ _ H5) as I5.
  destruct (persist_settles (accepted (yielded (scanner (world st) folder))) s4)
    as (r & s5' & E5 & _ & Hsaved & _).
  rewrite H5 in E5. injection E5 as <- <-.
  destruct (Hsaved _ _ eq_refl) as (saved & Hperm & -> & Hs5).
  cbn [snd] in Hbody.
  apply bind_Ok in Hbody as ([] & s6 & H6 & Hbody).
  pose proof (inflight_saveSpecCatalog _ _ _ _ H6) as I6.
  apply store_saveSpecCatalog in H6.
  injection Hbody as <-. simpl. split.
  - unfold same_inflight in *. simpl in *. congruence.
  - exists saved. split; [exact Hperm |]. split; [reflexivity |].
    unfold same_store in *. simpl in Hs2. congruence.
Qed.

(** X21, the half of C3 that holds: a build that starts with no call
    left in flight and succeeds leaves none in flight.  The catalog then
    lists the entries of the accepted items, in the order in which
    their documents were saved; the store is the earlier store with
    these documents written over it in that order; and so every catalog
    entry has a stored document.  No scanned specId is [__proto__], the
    one key under which an assignment adds no property. *)
Lemma scanAndSave_catalog_in_store (folder : string) (st st' : State) :
  inflight (world st) = [] ->
  (forall r, r ∈ yielded (scanner (world st) folder) ->
             sr_specId r <> "__proto__") ->
  scanAndSave folder st = (Ok tt, st') ->
  let pending := accepted (yielded (scanner (world st) folder)) in
  inflight (world st') = [] /\
  exists saved,
    saved ≡ₚ pending /\
    catalog (this st') = map snd saved /\
    specs (this st') = store_all saved (specs (this st)) /\
    forall e, e ∈ catalog (this st') -> is_Some (specs (this st') !! specId (uri e)).
Proof.
  intros Hquiet _ H pending.
  destruct (scanAndSave_Ok _ _ _ H) as (Hsame & saved & Hperm & Hcat & Hspecs).
  split; [rewrite Hsame; exact Hquiet |].
  exists saved. split; [exact Hperm |]. split; [exact Hcat |].
  split; [exact Hspecs |].
  intros e He. rewrite Hspecs. apply store_all_elem. right.
  rewrite Hcat in He. apply list_elem_of_In, in_map_iff in He as (p & <- & Hp).
  apply list_elem_of_In, in_map_iff. exists p. split; [reflexivity | exact Hp].
Qed.

(** * Further properties of the service *)

(** ** Lookups by operationId and by name *)

Lemma prop_unique {A} (obj : list (string * A)) (k : string) (v : A) :
  unique_keys obj -> (k, v) ∈ obj -> prop obj k = Some v.
Proof.
  unfold unique_keys.
  induction obj as [|[k' v'] rest IH]; simpl; intros Hnd Hin.
  - inversion Hin.
  - apply NoDup_cons in Hnd as [Hk' Hnd].
    apply elem_of_cons in Hin as [[= -> ->]|Hin].
    + rewrite String.eqb_refl. reflexivity.
    + destruct (String.eqb_spec k' k) as [->|Hne]; [| exact (IH Hnd Hin)].
      exfalso. apply Hk'. apply list_elem_of_In, in_map_iff.
      exists (k, v). split; [reflexivity | apply list_elem_of_In, Hin].
Qed.

Lemma for_return_Some {A R} (l : list A) (body : A -> option R) (r : R) :
  for_return l body = Some r ->
  exists l1 x l2,
    l = l1 ++ x :: l2 /\ body x = Some r /\
    forall y, y ∈ l1 -> body y = None.
Proof.
  induction l as [|x rest IH]; simpl; [discriminate |].
  destruct (body x) as [r'|] eqn:Hx.
  - intros [= ->]. exists [], x, rest. repeat split; [exact Hx |].
    intros y Hy. inversion Hy.
  - intros H. destruct (IH H) as (l1 & y & l2 & -> & Hy & Hl1).
    exists (x :: l1), y, l2. repeat split; [exact Hy |].
    intros z Hz. apply elem_of_cons in Hz as [->|Hz]; [exact Hx | exact (Hl1 z Hz)].
Qed.

(** X1: [findOperationById] returns the first operation, in the
    document's path and method order, whose operationId is the one asked
    for: everything before it has another operationId or none.  The
    result carries the path and method where it was found and the uri
    ["apis://" + specId + "/operations/" + operationId].  It returns
    [null] exactly when the spec is not stored or no key of any path
    item holds such an operation. *)
Theorem findOperationById_first_match (st : State) (id operationId : string) :
  exists r,
    findOperationById id operationId st = (Ok r, st) /\
    (forall res, r = Some res ->
       lo_specId res = id /\
       get_operationId (lo_operation res) = Some operationId /\
       lo_uri res = "apis://" +:+ id +:+ "/operations/" +:+ operationId /\
       exists d before pathItem after earlier later,
         specs (this st) !! id = Some d /\
         paths d = before ++ (lo_path res, pathItem) :: after /\
         pathItem = earlier ++ (lo_method res, lo_operation res) :: later /\
         (forall m v, (m, v) ∈ earlier -> get_operationId v <> Some operationId) /\
         (forall p item m v, (p, item) ∈ before -> (m, v) ∈ item ->
            get_operationId v <> Some operationId)) /\
    (r = None <->
     forall d, specs (this st) !! id = Some d ->
       forall path pathItem method v,
         (path, pathItem) ∈ paths d -> (method, v) ∈ pathItem ->
         get_operationId v <> Some operationId).
Proof.
  unfold findOperationById, bind, gets, ret, store_get, lookup_chain.
  destruct (specs (this st) !! id) as [d|] eqn:Hd.
  2:{ exists None. split; [destruct (inherited id); reflexivity |].
      split; [discriminate |].
      split; [intros _ d' [=] | reflexivity]. }
  eexists. split; [reflexivity |]. split.
  - intros res Hres.
    apply for_return_Some in Hres as (before & [path pathItem] & after & Hp & Hres & Hb).
    apply for_return_Some in Hres as (earlier & [method v] & later & Hm & Hres & He).
    destruct (strict_eq (get_operationId v) operationId) eqn:E; [| discriminate].
    injection Hres as <-. simpl. apply strict_eq_true in E.
    repeat split; [exact E |].
    exists d, before, pathItem, after, earlier, later.
    repeat split; [exact Hp | exact Hm | |].
    + intros m v' Hin Hv'. specialize (He _ Hin). simpl in He.
      apply strict_eq_true in Hv'. rewrite Hv' in He. discriminate.
    + intros p item m v' Hin Hin' Hv'. specialize (Hb _ Hin). simpl in Hb.
      rewrite for_return_None in Hb. specialize (Hb _ Hin'). simpl in Hb.
      apply strict_eq_true in Hv'. rewrite Hv' in Hb. discriminate.
  - rewrite for_return_None. split.
    + intros H d' [= <-] path pathItem method v Hp Hm Hv.
      specialize (H _ Hp). simpl in H. rewrite for_return_None in H.
      specialize (H _ Hm). simpl in H.
      apply strict_eq_true in Hv. rewrite Hv in H. discriminate.
    + intros H [path pathItem] Hp. apply for_return_None.
      intros [method v] Hm.
      destruct (strict_eq (get_operationId v) operationId) eqn:E; [| reflexivity].
      apply strict_eq_true in E. exfalso. exact (H d eq_refl _ _ _ _ Hp Hm E).
Qed.

(** X2: [findSchemaByName] never throws.  It returns a result exactly
    when the stored document has component schemas and either they have
    the key [schemaName], or they have not but [Object.prototype] has a
    member of that name.  In the first case the result holds that
    schema and its description, in the second the built-in and no
    description; in both, the name asked for and the uri
    ["apis://" + specId + "/schemas/" + schemaName]. *)
Theorem findSchemaByName_exact (st : State) (id name : string) :
  exists r,
    findSchemaByName id name st = (Ok r, st) /\
    (forall res,
       r = Some res <->
       exists d ss,
         specs (this st) !! id = Some d /\
         components_schemas d = Some ss /\
         ((exists sch,
             prop ss name = Some sch /\
             res = {| ls_name := name;
                      ls_description := sch_description sch;
                      ls_schema := SSchema sch;
                      ls_uri := "apis://" +:+ id +:+ "/schemas/" +:+ name |}) \/
          (prop ss name = None /\
           inherited name = true /\
           res = {| ls_name := name;
                    ls_description := None;
                    ls_schema := SBuiltin name;
                    ls_uri := "apis://" +:+ id +:+ "/schemas/" +:+ name |}))) /\
    (forall res sch, r = Some res -> ls_schema res = SSchema sch ->
       exists d ss, specs (this st) !! id = Some d /\
                    components_schemas d = Some ss /\
                    (name, sch) ∈ ss).
Proof.
  unfold findSchemaByName, bind, gets, ret, store_get, js_get, lookup_chain.
  destruct (specs (this st) !! id) as [d|] eqn:Hd.
  2:{ exists None. split; [destruct (inherited id); reflexivity |].
      split; [| discriminate]. intros res. split; [discriminate |].
      intros (? & ? & [=] & _). }
  destruct (components_schemas d) as [ss|] eqn:Hss.
  2:{ exists None. split; [reflexivity |].
      split; [| discriminate]. intros res. split; [discriminate |].
      intros (? & ? & [= <-] & Hss' & _). congruence. }
  destruct (prop ss name) as [sch|] eqn:Hs.
  - eexists. split; [reflexivity |]. split.
    + intros res. split.
      * intros [= <-]. exists d, ss. eauto 6.
      * intros (d' & ss' & [= <-] & Hss' & H).
        rewrite Hss in Hss'. injection Hss' as <-.
        destruct H as [(sch' & Hs' & ->)|(Hs' & _)]; [| congruence].
        rewrite Hs in Hs'. injection Hs' as <-. reflexivity.
    + intros res sch' [= <-] [= <-]. exists d, ss. auto using prop_Some_elem.
  - destruct (inherited name) eqn:Hname.
    + eexists. split; [reflexivity |]. split.
      * intros res. split.
        -- intros [= <-]. exists d, ss. auto 6.
        -- intros (d' & ss' & [= <-] & Hss' & H).
           rewrite Hss in Hss'. injection Hss' as <-.
           destruct H as [(sch' & Hs' & _)|(_ & _ & ->)]; [congruence |].
           reflexivity.
      * intros res sch' [= <-]. discriminate.
    + exists None. split; [reflexivity |].
      split; [| discriminate]. intros res. split; [discriminate |].
      intros (d' & ss' & [= <-] & Hss' & H).
      rewrite Hss in Hss'. injection Hss' as <-.
      destruct H as [(sch' & Hs' & _)|(_ & Hn & _)]; congruence.
Qed.

Lemma operation_is_truthy (v : PathItemValue) (operationId : string) :
  get_operationId v = Some operationId -> truthy_value v = true.
Proof. destruct v; simpl; try reflexivity; discriminate. Qed.

(** X3: on a stored document whose objects have each key once, the
    operation [findOperationById] returns is the very result
    [findOperationByPathAndMethod] gives for its path and method, uri
    included. *)
Theorem findOperationById_agrees_with_path_lookup (st : State)
    (id operationId : string) (d : Document) (res : LoadOperationResult) :
  specs (this st) !! id = Some d ->
  well_keyed d ->
  findOperationById id operationId st = (Ok (Some res), st) ->
  findOperationByPathAndMethod id (lo_path res) (lo_method res) st
  = (Ok (Some res), st).
Proof.
  intros Hd [Hpaths Hitems].
  unfold findOperationById, findOperationByPathAndMethod, bind, gets, ret,
    store_get, js_get, lookup_chain.
  rewrite Hd. intros [= Hres].
  apply for_return_Some in Hres as (before & [path pathItem] & after & Hp & Hres & _).
  apply for_return_Some in Hres as (earlier & [method v] & later & Hm & Hres & _).
  destruct (strict_eq (get_operationId v) operationId) eqn:E; [| discriminate].
  injection Hres as <-. simpl. apply strict_eq_true in E.
  assert (Hin : (path, pathItem) ∈ paths d).
  { rewrite Hp. apply elem_of_app. right. apply list_elem_of_here. }
  assert (Hin' : (method, v) ∈ pathItem).
  { rewrite Hm. apply elem_of_app. right. apply list_elem_of_here. }
  rewrite (prop_unique _ _ _ Hpaths Hin).
  rewrite (prop_unique _ _ _ (Hitems _ _ Hin) Hin').
  rewrite (operation_is_truthy _ _ E). simpl.
  unfold operation_uri. rewrite E. reflexivity.
Qed.

Lemma petstore_well_keyed : well_keyed petstore.
Proof.
  split.
  - unfold unique_keys. simpl. apply NoDup_singleton.
  - intros path pathItem Hin.
    apply list_elem_of_singleton in Hin as [= -> ->].
    unfold unique_keys. simpl.
    repeat (apply NoDup_cons; split;
            [intros Hin; repeat (apply elem_of_cons in Hin as [[=]|Hin]);
             inversion Hin |]).
    apply NoDup_nil. exact I.
Qed.

Lemma findOperationById_agrees_with_path_lookup_witness :
  exists res,
    findOperationById "petstore" "createPet" petstore_state
      = (Ok (Some res), petstore_state) /\
    lo_method res = "post" /\
    findOperationByPathAndMethod "petstore" "/pets" "post" petstore_state
      = (Ok (Some res), petstore_state).
Proof.
  eexists. split; [reflexivity |]. split; [reflexivity |].
  exact (findOperationById_agrees_with_path_lookup petstore_state "petstore"
           "createPet" petstore _ eq_refl petstore_well_keyed eq_refl).
Defined.

(** ** More on operation search *)

Lemma searchOperations_as_filter (st : State) (query : string) (id : option string) :
  searchOperations query id st
  = (Ok (search_by corpus_joined (this st) query id), st).
Proof.
  unfold searchOperations, bind, gets, ret, search_by. do 2 f_equal.
  change (flat_map ?g ?l) with ([] ++ flat_map g l).
  apply for_of_flat_map. intros acc e.
  unfold store_get, lookup_chain.
  destruct (specs (this st) !! specId (uri e)) as [d|].
  - apply searchOperations_document.
  - destruct (inherited _); symmetry; apply app_nil_r.
Qed.

Lemma document_operations_elem (d : Document) (path method : string)
    (v : PathItemValue) :
  (path, method, v) ∈ document_operations d <->
  exists pathItem,
    (path, pathItem) ∈ paths d /\ (method, v) ∈ pathItem /\
    is_pseudo_method method = false /\ truthy_value v = true.
Proof.
  unfold document_operations.
  rewrite list_elem_of_In, in_flat_map. split.
  - intros ([p item] & Hp & Hin). apply in_flat_map in Hin as ([m v'] & Hm & Hin).
    destruct (is_pseudo_method m) eqn:Hps; simpl in Hin; [contradiction |].
    destruct (truthy_value v') eqn:Htr; simpl in Hin; [| contradiction].
    destruct Hin as [[= -> -> ->]|[]].
    exists item. rewrite !list_elem_of_In. auto.
  - intros (item & Hp & Hm & Hps & Htr). exists (path, item).
    split; [apply list_elem_of_In, Hp |].
    apply in_flat_map. exists (method, v).
    split; [apply list_elem_of_In, Hm |]. rewrite Hps, Htr. simpl. auto.
Qed.

Lemma search_by_elem (corpus : PathItemValue -> string) (s : Service)
    (query : string) (id : option string) (res : LoadOperationResult) :
  res ∈ search_by corpus s query id <->
  exists e d x,
    e ∈ targetSpecs s id /\
    specs s !! specId (uri e) = Some d /\
    x ∈ document_operations d /\
    matches corpus query x = true /\
    res = operation_result (specId (uri e)) x.
Proof.
  unfold search_by. rewrite list_elem_of_In, in_flat_map. split.
  - intros (e & He & Hin).
    destruct (specs s !! specId (uri e)) as [d|] eqn:Hd; [| contradiction].
    apply in_map_iff in Hin as (x & <- & Hx). apply filter_In in Hx as [Hx Hm].
    exists e, d, x. rewrite !list_elem_of_In. auto.
  - intros (e & d & x & He & Hd & Hx & Hm & ->). exists e.
    split; [apply list_elem_of_In, He |]. rewrite Hd.
    apply in_map, filter_In. split; [apply list_elem_of_In, Hx | exact Hm].
Qed.

(** X4: every result of [searchOperations] can be loaded again: on
    documents whose objects have each key once,
    [findOperationByPathAndMethod] at the result's specId, path and
    method returns that same result. *)
Theorem searchOperations_results_load (st : State) (query : string)
    (id : option string) (results : list LoadOperationResult)
    (res : LoadOperationResult) :
  searchOperations query id st = (Ok results, st) ->
  res ∈ results ->
  (forall d, specs (this st) !! lo_specId res = Some d -> well_keyed d) ->
  findOperationByPathAndMethod (lo_specId res) (lo_path res) (lo_method res) st
  = (Ok (Some res), st).
Proof.
  rewrite searchOperations_as_filter. intros [= <-] Hin Hkeys.
  apply search_by_elem in Hin as (e & d & [[path method] v] & _ & Hd & Hx & _ & ->).
  simpl in *. destruct (Hkeys d Hd) as [Hpaths Hitems].
  apply document_operations_elem in Hx as (item & Hp & Hm & _ & Htr).
  unfold findOperationByPathAndMethod, bind, gets, ret, store_get, js_get,
    lookup_chain.
  rewrite Hd.
  rewrite (prop_unique _ _ _ Hpaths Hp), (prop_unique _ _ _ (Hitems _ _ Hp) Hm).
  rewrite Htr. reflexivity.
Qed.

Lemma searchOperations_results_load_witness :
  exists r1 r2,
    searchOperations "pet" None petstore_state = (Ok [r1; r2], petstore_state) /\
    findOperationByPathAndMethod "petstore" "/pets" "post" petstore_state
      = (Ok (Some r2), petstore_state).
Proof.
  exists (operation_result "petstore" ("/pets", "get", VOperation listPets)),
         (operation_result "petstore" ("/pets", "post", VOperation createPet)).
  split; [reflexivity |].
  apply (searchOperations_results_load petstore_state "pet" None
           [operation_result "petstore" ("/pets", "get", VOperation listPets);
            operation_result "petstore" ("/pets", "post", VOperation createPet)]
           (operation_result "petstore" ("/pets", "post", VOperation createPet))
           eq_refl).
  - apply list_elem_of_further, list_elem_of_here.
  - intros d [= <-]. exact petstore_well_keyed.
Defined.

Lemma targetSpecs_elem (s : Service) (scope : option string) (e : SpecCatalogEntry) :
  e ∈ targetSpecs s scope ->
  e ∈ catalog s /\
  forall id, scope = Some id -> truthy_string id = true -> specId (uri e) = id.
Proof.
  unfold targetSpecs. destruct scope as [i|].
  - destruct (truthy_string i) eqn:Hi.
    + destruct (List.find _ (catalog s)) as [e'|] eqn:Hf; [| intros H; inversion H].
      intros H. apply list_elem_of_singleton in H as ->.
      apply find_some in Hf as [Hin Heq]. apply String.eqb_eq in Heq.
      split; [apply list_elem_of_In, Hin |]. intros id [= <-] _. exact Heq.
    + intros H. split; [exact H |]. intros id [= <-]. congruence.
  - intros H. split; [exact H | discriminate].
Qed.

Lemma targetSpecs_unknown (s : Service) (id : string) :
  truthy_string id = true ->
  id ∉ catalog_ids (catalog s) ->
  targetSpecs s (Some id) = [].
Proof.
  intros Hid Hno. unfold targetSpecs. rewrite Hid.
  destruct (List.find _ (catalog s)) as [e|] eqn:Hf; [| reflexivity].
  apply find_some in Hf as [Hin Heq]. apply String.eqb_eq in Heq.
  exfalso. apply Hno. unfold catalog_ids. apply list_elem_of_In, in_map_iff.
  exists e. split; assumption.
Qed.

(** X5: the scope of [searchOperations].  An empty [specId] searches
    every spec, like no [specId]; a [specId] that is not in the catalog
    gives no result; every result comes from a catalog entry that has a
    stored document, the one asked for when a non-empty [specId] is
    given. *)
Theorem searchOperations_scope (st : State) (query : string) :
  searchOperations query (Some "") st = searchOperations query None st /\
  (forall id, truthy_string id = true ->
     id ∉ catalog_ids (catalog (this st)) ->
     searchOperations query (Some id) st = (Ok [], st)) /\
  (forall scope results res,
     searchOperations query scope st = (Ok results, st) ->
     res ∈ results ->
     lo_specId res ∈ catalog_ids (catalog (this st)) /\
     is_Some (specs (this st) !! lo_specId res) /\
     forall id, scope = Some id -> truthy_string id = true -> lo_specId res = id).
Proof.
  split; [reflexivity |]. split.
  - intros id Hid Hno. rewrite searchOperations_as_filter.
    unfold search_by. rewrite (targetSpecs_unknown _ _ Hid Hno). reflexivity.
  - intros scope results res. rewrite searchOperations_as_filter.
    intros [= <-] Hin.
    apply search_by_elem in Hin as (e & d & [[path method] v] & He & Hd & _ & _ & ->).
    apply targetSpecs_elem in He as [He Hscope]. simpl.
    split; [| split; [rewrite Hd; eauto | exact Hscope]].
    unfold catalog_ids. apply list_elem_of_In, in_map_iff.
    exists e. split; [reflexivity | apply list_elem_of_In, He].
Qed.

Lemma includes_empty (s : string) : includes s "" = true.
Proof. destruct s; reflexivity. Qed.

Lemma filter_all {A} (p : A -> bool) (l : list A) :
  (forall x, p x = true) -> List.filter p l = l.
Proof.
  intros H. induction l as [|x rest IH]; simpl; [reflexivity |].
  rewrite H, IH. reflexivity.
Qed.

(** X6: the empty query matches everything: [searchOperations("")]
    returns every operation of every document in scope, also those
    without operationId, summary, description and tags. *)
Theorem searchOperations_empty_query (st : State) (id : option string) :
  searchOperations "" id st = (Ok (all_operations (this st) id), st).
Proof.
  rewrite searchOperations_as_filter. unfold search_by, all_operations.
  do 2 f_equal. apply flat_map_ext. intros e.
  destruct (specs (this st) !! specId (uri e)); [| reflexivity].
  rewrite filter_all; [reflexivity |]. intros x. apply includes_empty.
Qed.

Lemma lower_ascii_idempotent (c : ascii) :
  lower_ascii (lower_ascii c) = lower_ascii c.
Proof. destruct c as [[] [] [] [] [] [] [] []]; reflexivity. Qed.

Lemma toLowerCase_idempotent (s : string) :
  toLowerCase (toLowerCase s) = toLowerCase s.
Proof.
  induction s as [|c s IH]; simpl; [reflexivity |].
  rewrite lower_ascii_idempotent, IH. reflexivity.
Qed.

(** X7: [searchOperations] reads its query through [toLowerCase] only:
    two queries with the same lower-case form give the same answer, and
    so a query and its lower-case form do. *)
Theorem searchOperations_case_insensitive (st : State) (id : option string)
    (q q' : string) :
  (toLowerCase q = toLowerCase q' ->
   searchOperations q id st = searchOperations q' id st) /\
  searchOperations (toLowerCase q) id st = searchOperations q id st.
Proof.
  assert (H : forall a b, toLowerCase a = toLowerCase b ->
                          searchOperations a id st = searchOperations b id st).
  { intros a b Hab. unfold searchOperations. rewrite Hab. reflexivity. }
  split; [apply H |]. apply H, toLowerCase_idempotent.
Qed.

(** ** The catalog entry of a document *)

Lemma extract_operations_enumeration (d : Document) :
  extract_operations d
  = flat_map (fun '(path, pathItem) =>
      flat_map (fun '(method, v) =>
        if is_pseudo_method method then []
        else [operation_entry path method v]) pathItem) (paths d).
Proof.
  unfold extract_operations.
  change (flat_map ?g (paths d)) with ([] ++ flat_map g (paths d)).
  apply for_of_flat_map. intros acc [path pathItem].
  apply for_of_flat_map. intros acc' [method v].
  destruct (is_pseudo_method method); [symmetry; apply app_nil_r | reflexivity].
Qed.

(** X8: the catalog entry built for a document lists, in the document's
    order, one operation for every key of every path item other than
    [parameters] and [$ref], with the summary as title, the first tag as
    group and the operationId of the value under the key; every
    operation that [searchOperations] can return for the document is
    among them. *)
Theorem catalog_entry_lists_operations (id : string) (d : Document) :
  operations (make_entry id d)
  = flat_map (fun '(path, pathItem) =>
      flat_map (fun '(method, v) =>
        if is_pseudo_method method then []
        else [operation_entry path method v]) pathItem) (paths d) /\
  forall path method v,
    (path, method, v) ∈ document_operations d ->
    operation_entry path method v ∈ operations (make_entry id d).
Proof.
  split; [apply extract_operations_enumeration |].
  intros path method v Hin. simpl. rewrite extract_operations_enumeration.
  apply document_operations_elem in Hin as (item & Hp & Hm & Hps & _).
  apply list_elem_of_In, in_flat_map. exists (path, item).
  split; [apply list_elem_of_In, Hp |].
  apply in_flat_map. exists (method, v).
  split; [apply list_elem_of_In, Hm |]. rewrite Hps. simpl. auto.
Qed.

Lemma flat_map_singleton {A B} (f : A -> B) (l : list A) :
  flat_map (fun x => [f x]) l = map f l.
Proof. induction l as [|x rest IH]; simpl; [| rewrite IH]; reflexivity. Qed.

Lemma extract_schemas_enumeration (d : Document) :
  extract_schemas d
  = match components_schemas d with
    | Some ss => map (fun '(name, sch) =>
                        {| se_name := name;
                           se_description := sch_description sch;
                           se_specId := None |}) ss
    | None => []
    end.
Proof.
  unfold extract_schemas. destruct (components_schemas d) as [ss|]; [| reflexivity].
  rewrite <- flat_map_singleton.
  change (flat_map ?g ss) with ([] ++ flat_map g ss).
  apply for_of_flat_map. intros acc [name sch]. reflexivity.
Qed.

(** X9: the schema names listed in the catalog entry of a stored
    document are exactly the names under which [findSchemaByName] finds
    a schema of the document.  Where it finds a built-in instead, the
    name is the one of a member of [Object.prototype] and is not
    listed. *)
Theorem catalog_schemas_are_found (st : State) (id name : string) (d : Document) :
  specs (this st) !! id = Some d ->
  ((exists se, se ∈ schemas (make_entry id d) /\ se_name se = name) <->
   (exists res sch,
      findSchemaByName id name st = (Ok (Some res), st) /\
      ls_schema res = SSchema sch)) /\
  (forall res,
     findSchemaByName id name st = (Ok (Some res), st) ->
     ls_schema res = SBuiltin name ->
     inherited name = true /\
     ~ exists se, se ∈ schemas (make_entry id d) /\ se_name se = name).
Proof.
  intros Hd. simpl. rewrite extract_schemas_enumeration.
  unfold findSchemaByName, bind, gets, ret, store_get, js_get, lookup_chain.
  rewrite Hd.
  destruct (components_schemas d) as [ss|].
  2:{ split; [| intros res [=]].
      split; [intros (se & Hin & _); inversion Hin | intros (res & sch & [=] & _)]. }
  assert (Hlisted : (exists se,
              se ∈ map (fun '(name, sch) =>
                          {| se_name := name;
                             se_description := sch_description sch;
                             se_specId := None |}) ss /\ se_name se = name) <->
            exists sch, prop ss name = Some sch).
  { split.
    - intros (se & Hin & Hname).
      apply list_elem_of_In, in_map_iff in Hin as ([n sch] & <- & Hin).
      simpl in Hname. subst n.
      destruct (prop ss name) as [sch'|] eqn:Hs; [eauto |].
      rewrite prop_None_iff in Hs. exfalso.
      apply (Hs sch), list_elem_of_In, Hin.
    - intros [sch Hs]. apply prop_Some_elem in Hs.
      exists {| se_name := name;
                se_description := sch_description sch;
                se_specId := None |}.
      split; [| reflexivity].
      apply list_elem_of_In, in_map_iff. exists (name, sch).
      split; [reflexivity | apply list_elem_of_In, Hs]. }
  rewrite Hlisted.
  destruct (prop ss name) as [sch|] eqn:Hs.
  - split.
    + split; [intros _; eexists _, sch; split; reflexivity | eauto].
    + intros res [= <-]. discriminate.
  - destruct (inherited name).
    + split.
      * split; [intros [sch [=]] |].
        intros (res & sch & [= <-] & H). simpl in H. discriminate H.
      * intros res _ _. split; [reflexivity |].
        rewrite Hlisted. intros [sch [=]].
    + split; [| intros res [=]].
      split; [intros [sch [=]] | intros (res & sch & [=] & _)].
Qed.

Lemma catalog_schemas_are_found_witness :
  exists res sch,
    findSchemaByName "petstore" "Pet" petstore_state
    = (Ok (Some res), petstore_state) /\
    ls_schema res = SSchema sch.
Proof.
  apply (catalog_schemas_are_found petstore_state "petstore" "Pet" petstore eq_refl).
  eexists. split; [apply list_elem_of_here | reflexivity].
Defined.

(** ** Saving and loading *)

Ltac run_storage :=
  unfold saveSpec, saveSpecCatalog, loadSpecCatalog, loadSpec, resetState,
    ensureDirectory, fs_writeFile, fs_readFile, fs_mkdir, fs_call,
    specCache_set, specCache_get, try_catch, bind, logger, modify, gets, ret,
    throw; simpl.

(** X10: when [saveSpec] fails, the error is PERSIST_ERROR and nothing
    was stored: the service's fields (store, cache, catalog) and the
    files are as before.  Its cause is what made it fail: either the
    INIT_ERROR of [ensureDirectory], itself caused by the failure of
    [fs.mkdir] on the folder of dereferenced documents, or, that
    directory made, the failure of [fs.writeFile] on the file of the
    document. *)
Theorem saveSpec_failure_changes_nothing (d : Document) (id : string)
    (st st' : State) (e : JsError) :
  let n := length (trace (world st)) in
  let dir := dereferencedPath (this st) in
  saveSpec d id st = (Throw e, st') ->
  (exists cause,
     e = SpecServiceError ("Failed to persist specification " +:+ id)
           PERSIST_ERROR (Some cause) /\
     ((exists failure,
         fault (world st) n (Mkdir dir) = Some failure /\
         cause = SpecServiceError ("Failed to create directory " +:+ dir)
                   INIT_ERROR (Some failure)) \/
      (fault (world st) n (Mkdir dir) = None /\
       fault (world st) (S n) (WriteFile (spec_file (this st) id)) = Some cause))) /\
  this st' = this st /\
  files (world st') = files (world st).
Proof.
  intros n dir. subst n dir. unfold spec_file. run_storage.
  destruct (fault (world st) _ (Mkdir _)) as [failure|] eqn:Hmkdir; simpl.
  - intros [= <- <-]. split; [| split; reflexivity].
    eexists. split; [reflexivity |]. left. eauto.
  - destruct (fault (world st) _ (WriteFile _)) as [cause|] eqn:Hwrite; simpl;
      [| discriminate].
    intros [= <- <-]. split; [| split; reflexivity].
    eexists. split; [reflexivity |]. right. auto.
Qed.

Lemma saveSpec_failure_changes_nothing_witness :
  exists st',
    saveSpec petstore "petstore" readonly_state
    = (Throw (SpecServiceError "Failed to persist specification petstore"
                PERSIST_ERROR
                (Some (SpecServiceError
                         "Failed to create directory specs/_dereferenced"
                         INIT_ERROR (Some (ErrnoException "EACCES"))))), st') /\
    specs (this st') = ∅.
Proof.
  destruct (saveSpec petstore "petstore" readonly_state) as [[[]|e] st'] eqn:H;
    [vm_compute in H; discriminate H |].
  exists st'.
  destruct (saveSpec_failure_changes_nothing _ _ _ _ _ H)
    as ((cause & -> & [(failure & Hf & ->)|[Hf _]]) & Hthis & _);
    [| discriminate Hf].
  injection Hf as <-. split; [reflexivity |]. rewrite Hthis. reflexivity.
Defined.




(** X12: a successful [saveSpecCatalog] writes the catalog file and
    changes no field of the service; [loadSpecCatalog] then reads the
    same catalog back when the read does not fail. *)
Theorem saveSpecCatalog_then_loadSpecCatalog (c : list SpecCatalogEntry)
    (st s1 : State) :
  saveSpecCatalog c st = (Ok tt, s1) ->
  this s1 = this st /\
  files (world s1) = <[catalog_file (this st) := FCatalog c]> (files (world st)) /\
  (fault (world s1) (length (trace (world s1))) (ReadFile (catalog_file (this st)))
   = None ->
   exists s2, loadSpecCatalog s1 = (Ok c, s2) /\ this s2 = this st).
Proof.
  unfold catalog_file. run_storage.
  destruct (truthy_string (catalogPath (this st))); simpl; [| discriminate].
  destruct (fault _ _ _); simpl; [discriminate |].
  intros [= <-]. simpl. repeat split.
  intros Hf. rewrite Hf. simpl. rewrite lookup_insert_eq. simpl.
  eexists. split; reflexivity.
Qed.

Lemma saveSpecCatalog_then_loadSpecCatalog_witness :
  exists s1 s2,
    saveSpecCatalog [make_entry "petstore" petstore] fresh_state = (Ok tt, s1) /\
    loadSpecCatalog s1 = (Ok [make_entry "petstore" petstore], s2).
Proof.
  destruct (saveSpecCatalog [make_entry "petstore" petstore] fresh_state)
    as [[[]|e] s1] eqn:H1; [| vm_compute in H1; discriminate H1].
  destruct (saveSpecCatalog_then_loadSpecCatalog _ _ _ H1) as (_ & _ & Hload).
  destruct Hload as (s2 & H2 & _).
  - revert H1. run_storage. intros [= <-]. reflexivity.
  - exists s1, s2. auto.
Defined.

(** X13: [loadSpecCatalog] returns the empty catalog when the catalog
    file does not exist (also when the read fails with code ENOENT); any
    other failure of the read, and a file that does not parse, is thrown
    as it is, not wrapped in a service error; in no case does it change
    a field of the service or a file. *)
Theorem loadSpecCatalog_missing_or_failing (st : State) :
  let file := catalog_file (this st) in
  let reading := fault (world st) (length (trace (world st))) (ReadFile file) in
  (reading = None -> files (world st) !! file = None ->
     exists st', loadSpecCatalog st = (Ok [], st')) /\
  (forall e, reading = Some e -> is_ENOENT e = true ->
     exists st', loadSpecCatalog st = (Ok [], st')) /\
  (forall e, reading = Some e -> is_ENOENT e = false ->
     exists st', loadSpecCatalog st = (Throw e, st')) /\
  (reading = None -> files (world st) !! file = Some FCorrupt ->
     exists st', loadSpecCatalog st = (Throw SyntaxError, st')) /\
  (forall r st', loadSpecCatalog st = (r, st') ->
     this st' = this st /\ files (world st') = files (world st)).
Proof.
  unfold catalog_file. simpl. repeat split.
  - intros Hf Hfile. run_storage. rewrite Hf. simpl. rewrite Hfile. simpl. eauto.
  - intros e Hf He. run_storage. rewrite Hf. simpl. rewrite He. eauto.
  - intros e Hf He. run_storage. rewrite Hf. simpl. rewrite He. eauto.
  - intros Hf Hfile. run_storage. rewrite Hf. simpl. rewrite Hfile. simpl. eauto.
  - revert H. run_storage. destruct (fault _ _ _) as [e|]; simpl.
    + destruct (is_ENOENT e); intros [= <- <-]; reflexivity.
    + destruct (files (world st) !! _) as [[d|c|]|]; simpl;
        intros [= <- <-]; reflexivity.
  - revert H. run_storage. destruct (fault _ _ _) as [e|]; simpl.
    + destruct (is_ENOENT e); intros [= <- <-]; reflexivity.
    + destruct (files (world st) !! _) as [[d|c|]|]; simpl;
        intros [= <- <-]; reflexivity.
Qed.

(** X14: whatever [loadSpec] returns or throws, it changes neither the
    store nor the catalog nor any file, and it makes at most one file
    system call, the read of the document's file; every error it throws
    is a LOAD_ERROR. *)
Theorem loadSpec_reads_at_most_once (id : string) (st st' : State)
    (r : Result Document) :
  loadSpec id st = (r, st') ->
  specs (this st') = specs (this st) /\
  catalog (this st') = catalog (this st) /\
  files (world st') = files (world st) /\
  (trace (world st') = trace (world st) \/
   trace (world st') = ReadFile (spec_file (this st) id) :: trace (world st)) /\
  (forall e, r = Throw e -> error_code e = Some LOAD_ERROR).
Proof.
  unfold spec_file. run_storage.
  destruct (SimpleCache.get _ _ _) as [[d|] c']; simpl.
  - intros [= <- <-]. simpl. repeat split; auto. discriminate.
  - destruct (fault _ _ _) as [e0|]; simpl.
    + destruct (is_ENOENT e0); intros [= <- <-]; simpl; repeat split; auto;
        intros e [= <-]; reflexivity.
    + destruct (files (world st) !! _) as [[d|c|]|]; simpl;
        intros [= <- <-]; simpl; repeat split; auto;
        try discriminate; intros e [= <-]; reflexivity.
Qed.

Lemma loadSpec_reads_at_most_once_witness :
  exists r st',
    loadSpec "orders" stored_state = (r, st') /\
    specs (this st') = ∅ /\
    (forall e, r = Throw e -> error_code e = Some LOAD_ERROR).
Proof.
  destruct (loadSpec "orders" stored_state) as [r st'] eqn:H.
  exists r, st'. split; [reflexivity |].
  destruct (loadSpec_reads_at_most_once _ _ _ _ H) as (Hs & _ & _ & _ & He).
  split; [rewrite Hs; reflexivity | exact He].
Defined.

(** ** Directories and the persisted catalog at start-up *)

(** X15: [ensureDirectories] changes no field of the service and no
    file, and asks for exactly three directories at once: the base
    folder, the catalog folder and the folder of dereferenced documents,
    in this order, whether it then succeeds or fails.  It succeeds
    exactly when none of the three calls of [fs.mkdir] fails.  When it
    fails, the error is INIT_ERROR, names one of the three directories
    and has as cause the failure of [fs.mkdir] on that very
    directory. *)
Theorem ensureDirectories_outcomes (st st' : State) (r : Result unit) :
  let mkdir i dir :=
    fault (world st) (length (trace (world st)) + i) (Mkdir dir) in
  ensureDirectories st = (r, st') ->
  this st' = this st /\
  files (world st') = files (world st) /\
  trace (world st')
  = [Mkdir (dereferencedPath (this st)); Mkdir (catalogPath (this st));
     Mkdir (folderPath (this st))] ++ trace (world st) /\
  match r with
  | Ok _ =>
      forall i dir,
        [folderPath (this st); catalogPath (this st);
         dereferencedPath (this st)] !! i = Some dir ->
        mkdir i dir = None
  | Throw e =>
      exists i dir cause,
        [folderPath (this st); catalogPath (this st);
         dereferencedPath (this st)] !! i = Some dir /\
        mkdir i dir = Some cause /\
        e = SpecServiceError ("Failed to create directory " +:+ dir)
              INIT_ERROR (Some cause)
  end.
Proof. exact (ensureDirectories_run st st' r). Qed.

Lemma ensureDirectories_outcomes_witness :
  exists st',
    ensureDirectories readonly_state
    = (Throw (SpecServiceError "Failed to create directory specs"
                INIT_ERROR (Some (ErrnoException "EACCES"))), st') /\
    this st' = this readonly_state.
Proof.
  destruct (ensureDirectories readonly_state) as [[[]|e] st'] eqn:H;
    [vm_compute in H; discriminate H |].
  exists st'.
  destruct (ensureDirectories_outcomes _ _ _ H) as (Hthis & _ & _ & Hr).
  split; [| exact Hthis]. vm_compute in H. injection H as <- _. reflexivity.
Defined.

Lemma setting_refl (st : State) : setting st st.
Proof. constructor; reflexivity. Qed.

Lemma setting_trans (a b c : State) : setting a b -> setting b c -> setting a c.
Proof. intros [] []. constructor; congruence. Qed.

Lemma frame_setting (st st' : State) : frame st st' -> setting st st'.
Proof. intros []. constructor; assumption. Qed.

Lemma preserves_weaken (R R' : State -> State -> Prop) {A} (m : M A) :
  (forall a b, R a b -> R' a b) -> preserves R m -> preserves R' m.
Proof. intros HR Hm st r st' E. exact (HR _ _ (Hm _ _ _ E)). Qed.

Lemma frame_loadSpecCatalog : preserves frame loadSpecCatalog.
Proof. unfold loadSpecCatalog. frame_tac. Qed.

Lemma setting_resetState : preserves setting resetState.
Proof.
  unfold resetState, bind, logger, modify. intros st r st' [= <- <-].
  constructor; reflexivity.
Qed.

Lemma setting_loadExistingCatalog : preserves setting loadExistingCatalog.
Proof.
  unfold loadExistingCatalog.
  apply (preserves_try_catch setting setting_trans).
  - apply (preserves_bind setting setting_trans);
      [apply (preserves_weaken frame), frame_logger; apply frame_setting |].
    intros _. apply (preserves_bind setting setting_trans);
      [apply (preserves_weaken frame), frame_loadSpecCatalog; apply frame_setting |].
    intros c. apply (preserves_bind setting setting_trans).
    { apply preserves_modify. intros st. constructor; reflexivity. }
    intros _. apply (preserves_bind setting setting_trans).
    { apply (preserves_weaken frame); [apply frame_setting | frame_tac]. }
    intros loaded. apply (preserves_bind setting setting_trans).
    { apply (preserves_weaken frame); [apply frame_setting | frame_tac]. }
    intros _. apply (preserves_weaken frame); [apply frame_setting | frame_tac].
  - intros e. apply (preserves_bind setting setting_trans);
      [apply (preserves_weaken frame), frame_logger; apply frame_setting |].
    intros _. apply (preserves_bind setting setting_trans);
      [apply setting_resetState |].
    intros _. apply (preserves_ret setting setting_refl).
Qed.

Lemma combine_fst {A B} (l1 : list A) (l2 : list B) :
  length l2 = length l1 -> map fst (combine l1 l2) = l1.
Proof.
  revert l2. induction l1 as [|x rest IH]; intros [|y l2]; simpl;
    try discriminate; try reflexivity.
  intros [= H]. f_equal. exact (IH _ H).
Qed.

(** The loop of [loadExistingCatalog] over the loaded documents. *)
Lemma load_loop_run (pairs : list (SpecCatalogEntry * Document)) (st : State) :
  exists st',
    for_each pairs (fun '(e, spec) =>
      let id := specId (uri e) in
      modify (with_this (fun s => set_specs (<[id := spec]> (specs s)) s)) ;;
      specCache_set id spec) st = (Ok tt, st') /\
    catalog (this st') = catalog (this st) /\
    forall id,
      is_Some (specs (this st) !! id) \/
      id ∈ map (fun p => specId (uri (fst p))) pairs ->
      is_Some (specs (this st') !! id).
Proof.
  revert st. induction pairs as [|[e d] rest IH]; intros st; simpl.
  - exists st. repeat split. intros id [H|H]; [exact H | inversion H].
  - unfold bind at 1. unfold bind at 1. unfold modify at 1.
    unfold specCache_set at 1. unfold bind at 1. unfold gets at 1.
    unfold modify at 1.
    match goal with |- context [for_each rest _ ?s] =>
      destruct (IH s) as (st' & E & Hcat & Hspecs)
    end.
    exists st'. split; [exact E |]. split; [exact Hcat |].
    intros id H. apply Hspecs. simpl.
    destruct (decide (specId (uri e) = id)) as [<-|Hne].
    + left. rewrite lookup_insert_eq. eauto.
    + destruct H as [H|H].
      * left. rewrite lookup_insert_ne; assumption.
      * apply elem_of_cons in H as [H|H]; [congruence | right; exact H].
Qed.

Lemma loadExistingCatalog_run (st : State) :
  exists b st', loadExistingCatalog st = (Ok b, st') /\ setting st st'.
Proof.
  destruct (loadExistingCatalog st) as [r st'] eqn:Hrun.
  pose proof (setting_loadExistingCatalog _ _ _ Hrun) as Hset.
  revert Hrun. unfold loadExistingCatalog, try_catch.
  match goal with |- context [match ?body st with _ => _ end] =>
    destruct (body st) as [[b|e] s]
  end.
  - intros [= <- <-]. eauto.
  - unfold bind, logger, modify, resetState, ret. simpl.
    intros [= <- <-]. eauto.
Qed.

(** X16: [loadExistingCatalog] never throws and never changes the
    readonly fields.  When it returns [false] the catalog, the store and
    the cache are empty.  When it returns [true] every entry of the
    catalog it loaded has a document in the store. *)
Theorem loadExistingCatalog_never_throws (st : State) :
  exists b st',
    loadExistingCatalog st = (Ok b, st') /\
    setting st st' /\
    (b = false ->
       catalog (this st') = [] /\
       specs (this st') = ∅ /\
       SimpleCache.entries (specCache (this st')) = []) /\
    (b = true ->
       forall e, e ∈ catalog (this st') ->
                 is_Some (specs (this st') !! specId (uri e))).
Proof.
  destruct (loadExistingCatalog st) as [r st'] eqn:Hrun.
  pose proof (setting_loadExistingCatalog _ _ _ Hrun) as Hset.
  revert Hrun. unfold loadExistingCatalog, try_catch.
  match goal with |- context [match ?body st with _ => _ end] =>
    destruct (body st) as [[b|e] s] eqn:Hbody
  end.
  - intros [= <- <-]. exists b, s. split; [reflexivity |]. split; [exact Hset |].
    apply bind_Ok in Hbody as ([] & s0 & _ & Hbody).
    apply bind_Ok in Hbody as (c & s1 & _ & Hbody).
    apply bind_Ok in Hbody as ([] & s2 & H2 & Hbody). injection H2 as <-.
    apply bind_Ok in Hbody as (loaded & s3 & H3 & Hbody).
    apply bind_Ok in Hbody as ([] & s4 & H4 & Hbody).
    apply bind_Ok in Hbody as ([] & s5 & H5 & Hbody).
    injection H5 as <-. injection Hbody as <- <-.
    split; [discriminate |]. intros _ e He. simpl.
    assert (F3 : frame (with_this (set_catalog c) s1) s3).
    { revert H3. apply (preserves_promise_all frame frame_refl frame_trans
                          frame_completes frame_inflight).
      - intros x. apply frame_loadSpec_start.
      - intros x. apply frame_loadSpec_resume. }
    destruct loaded as [loaded order]. cbn [fst] in H4.
    assert (Hlen : length loaded = length c).
    { rewrite (promise_all_length _ _ _ _ _ _ loadSpec_async_bounded H3).
      apply length_map. }
    destruct (load_loop_run (combine c loaded) s3) as (s4' & E4 & Hcat & Hspecs).
    pose proof (eq_trans (eq_sym H4) E4) as Heq. injection Heq as <-.
    simpl in He. rewrite Hcat, (frame_catalog _ _ F3) in He. simpl in He.
    apply Hspecs. right.
    assert (Hm : map (fun p : SpecCatalogEntry * Document => specId (uri (fst p)))
                   (combine c loaded)
                 = map (fun e : SpecCatalogEntry => specId (uri e)) c).
    { rewrite <- (combine_fst c loaded Hlen) at 2.
      rewrite map_map. reflexivity. }
    rewrite Hm. apply list_elem_of_In.
    apply (in_map (fun e : SpecCatalogEntry => specId (uri e)) c e).
    apply list_elem_of_In, He.
  - unfold bind, logger, modify, resetState, ret. simpl.
    intros [= <- <-]. eexists false, _. split; [reflexivity |].
    split; [exact Hset |]. split; [repeat split | discriminate].
Qed.

(** ** Builds *)

(** X17: on a disk without failures, with a scanner that ends normally,
    [initialize] succeeds whatever was persisted before; the catalog is
    then made of the entries of the scanned items that have a document
    and no error, one entry for each such item, in the order in which
    their documents were saved, and every entry has a document in the
    store.  No scanned specId is [__proto__], the one key under which
    an assignment adds no property. *)
Theorem initialize_succeeds_without_faults (st : State) :
  fault_free st ->
  constructed (this st) ->
  failure (scanner (world st) (folderPath (this st))) = None ->
  (forall r, r ∈ yielded (scanner (world st) (folderPath (this st))) ->
             sr_specId r <> "__proto__") ->
  exists st' saved,
    initialize st = (Ok tt, st') /\
    saved ≡ₚ accepted (yielded (scanner (world st) (folderPath (this st)))) /\
    catalog (this st') = map snd saved /\
    forall e, e ∈ catalog (this st') ->
              is_Some (specs (this st') !! specId (uri e)).
Proof.
  intros Hff [Hc1 Hc2] Hfail _.
  unfold initialize. unfold bind at 1. unfold logger at 1, modify at 1.
  unfold try_catch.
  set (s0 := with_world _ st).
  assert (F0 : frame st s0)
    by (apply (frame_logger Debug "Initializing FileSystemSpecService" None
                 st (Ok tt)); reflexivity).
  assert (Hff0 : fault_free s0) by exact (fault_free_frame _ _ F0 Hff).
  destruct (ensureDirectories_ok s0 Hff0) as (s1 & E1 & _).
  pose proof (frame_setting _ _ (frame_trans _ _ _ F0
                (frame_ensureDirectories _ _ _ E1))) as S1.
  destruct (loadExistingCatalog_run s1) as (b & s2 & E2 & S2).
  pose proof (setting_trans _ _ _ S1 S2) as S.
  assert (Hfolder : folderPath (this s2) = folderPath (this st))
    by apply (setting_folderPath _ _ S).
  destruct (scanAndSave_ok s2 (folderPath (this s2)))
    as (s3 & saved & E3 & Hperm & Hcat & Hspecs & _).
  { intros n op. rewrite (setting_fault _ _ S). apply Hff. }
  { split.
    - rewrite (setting_catalogPath _ _ S), Hfolder, (setting_config _ _ S).
      exact Hc1.
    - rewrite (setting_dereferencedPath _ _ S), Hfolder, (setting_config _ _ S).
      exact Hc2. }
  { rewrite (setting_scanner _ _ S), Hfolder. exact Hfail. }
  unfold bind at 1. rewrite E1. unfold bind at 1. rewrite E2.
  unfold bind at 1. unfold gets at 1. unfold bind at 1. rewrite E3.
  unfold logger, modify.
  eexists _, saved. split; [reflexivity |]. simpl.
  rewrite (setting_scanner _ _ S), Hfolder in Hperm.
  split; [exact Hperm |]. split; [exact Hcat |].
  intros e He. rewrite Hspecs. apply store_all_elem. right.
  rewrite Hcat in He. apply list_elem_of_In, in_map_iff in He as (p & <- & Hp).
  apply list_elem_of_In, in_map_iff. exists p. split; [reflexivity | exact Hp].
Qed.

Lemma initialize_succeeds_without_faults_witness :
  exists st',
    initialize restart_state = (Ok tt, st') /\
    catalog_ids (catalog (this st')) = ["petstore"].
Proof.
  assert (Hff : fault_free restart_state) by (intros n op; reflexivity).
  assert (Hc : constructed (this restart_state)) by (split; reflexivity).
  assert (Hids : forall r, r ∈ [scanned "petstore" petstore] ->
                            sr_specId r <> "__proto__").
  { intros r Hr. apply list_elem_of_singleton in Hr as ->. discriminate. }
  destruct (initialize_succeeds_without_faults restart_state Hff Hc eq_refl Hids)
    as (st' & saved & E & Hperm & Hcat & _).
  exists st'. split; [exact E |]. rewrite Hcat.
  apply Permutation_singleton_r in Hperm. rewrite Hperm. reflexivity.
Defined.

Lemma only_logged_refl (st : State) : only_logged st st.
Proof. repeat split. Qed.

Lemma only_logged_trans (a b c : State) :
  only_logged a b -> only_logged b c -> only_logged a c.
Proof.
  unfold only_logged. intros (? & ? & ? & ? & ? & ?) (? & ? & ? & ? & ? & ?).
  repeat split; congruence.
Qed.

Lemma only_logged_logger lvl msg subject :
  preserves only_logged (logger lvl msg subject).
Proof. apply preserves_modify. intros st. repeat split. Qed.

Lemma only_logged_scan_loop items pending :
  preserves only_logged (scan_loop items pending).
Proof.
  revert pending. induction items as [|r rest IH]; intros pending; simpl.
  - apply (preserves_ret _ only_logged_refl).
  - destruct (error r).
    + apply (preserves_bind _ only_logged_trans);
        [apply only_logged_logger | intros _; apply IH].
    + apply (preserves_bind _ only_logged_trans); [| intros p; apply IH].
      apply (preserves_try_catch _ only_logged_trans).
      * destruct (spec r);
          [apply (preserves_ret _ only_logged_refl)
          | apply (preserves_throw _ only_logged_refl)].
      * intros _. apply (preserves_bind _ only_logged_trans);
          [apply only_logged_logger |].
        intros _. apply (preserves_ret _ only_logged_refl).
Qed.

(** X18: when the scanner throws, the build fails with SCAN_ERROR and
    the scanner's error as cause, before anything is touched: no file
    system call is made, and store, cache, catalog and files are as
    before; only the log has grown. *)
Theorem scanAndSave_scanner_failure (st : State) (folder : string) (e : JsError) :
  failure (scanner (world st) folder) = Some e ->
  exists st',
    scanAndSave folder st
    = (Throw (SpecServiceError "Failed to scan and persist specifications"
                SCAN_ERROR (Some e)), st') /\
    only_logged st st'.
Proof.
  intros Hfail.
  unfold scanAndSave. unfold bind at 1. unfold logger at 1, modify at 1.
  unfold try_catch, scanAndSave_try. unfold bind at 1. unfold gets at 1.
  simpl scanner. unfold bind at 1.
  match goal with |- context [scan_loop ?i [] ?s] =>
    destruct (scan_loop_ok i [] s) as (s1 & E1 & _);
    pose proof (only_logged_scan_loop _ _ _ _ _ E1) as L1
  end.
  rewrite E1, Hfail. unfold bind at 1. unfold throw at 1.
  unfold bind, logger, modify, throw.
  eexists. split; [reflexivity |].
  eapply only_logged_trans; [| eapply only_logged_trans; [exact L1 |]];
    repeat split.
Qed.

Lemma scanAndSave_scanner_failure_witness :
  exists st',
    scanAndSave "specs" broken_scan_state
    = (Throw (SpecServiceError "Failed to scan and persist specifications"
                SCAN_ERROR (Some (ErrnoException "EIO"))), st') /\
    trace (world st') = [] /\
    specs (this st') = ∅.
Proof.
  destruct (scanAndSave_scanner_failure broken_scan_state "specs"
              (ErrnoException "EIO") eq_refl) as (st' & E & Hthis & _ & Htrace & _).
  exists st'. split; [exact E |]. split; [exact Htrace |].
  rewrite Hthis. reflexivity.
Defined.

Lemma saveSpecCatalog_writes (c : list SpecCatalogEntry) (st s1 : State) :
  saveSpecCatalog c st = (Ok tt, s1) ->
  this s1 = this st /\
  fault (world s1) = fault (world st) /\
  files (world s1) = <[catalog_file (this st) := FCatalog c]> (files (world st)).
Proof.
  unfold catalog_file. run_storage.
  destruct (truthy_string (catalogPath (this st))); simpl; [| discriminate].
  destruct (fault _ _ _); simpl; [discriminate |].
  intros [= <-]. repeat split.
Qed.

(** A successful build ends with the write of the catalog file, the
    swap of the catalog and a log entry. *)
Lemma scanAndSave_last_steps (folder : string) (st st' : State) :
  scanAndSave folder st = (Ok tt, st') ->
  exists before written,
    saveSpecCatalog (catalog (this st')) before = (Ok tt, written) /\
    this st' = set_catalog (catalog (this st')) (this written) /\
    files (world st') = files (world written) /\
    fault (world st') = fault (world written) /\
    trace (world st') = trace (world written).
Proof.
  intros H. unfold scanAndSave in H. apply bind_Ok in H as ([] & s0 & _ & H).
  unfold try_catch in H.
  destruct (scanAndSave_try folder s0) as [[[]|e0] s] eqn:Hbody; [| discriminate H].
  injection H as <-. unfold scanAndSave_try in Hbody.
  apply bind_Ok in Hbody as (stream & s1 & _ & Hbody).
  apply bind_Ok in Hbody as (pend & s2 & _ & Hbody).
  apply bind_Ok in Hbody as ([] & s3 & _ & Hbody).
  apply bind_Ok in Hbody as ([] & s4 & _ & Hbody).
  apply bind_Ok in Hbody as (saved & s5 & _ & Hbody).
  apply bind_Ok in Hbody as ([] & s6 & H6 & Hbody).
  injection Hbody as <-. simpl.
  exists s5, s6. repeat split. exact H6.
Qed.

(** X19: after a successful build the catalog file holds exactly the
    catalog in memory, so [loadSpecCatalog] returns what
    [getApiCatalog] returns whenever its read does not fail. *)
Theorem scanAndSave_persists_catalog (folder : string) (st st' : State) :
  scanAndSave folder st = (Ok tt, st') ->
  files (world st') !! catalog_file (this st')
  = Some (FCatalog (catalog (this st'))) /\
  (fault (world st') (length (trace (world st')))
     (ReadFile (catalog_file (this st'))) = None ->
   exists s c,
     loadSpecCatalog st' = (Ok c, s) /\
     getApiCatalog st' = (Ok c, st')).
Proof.
  intros H.
  destruct (scanAndSave_last_steps _ _ _ H)
    as (before & written & Hw & Hthis & Hfiles & _ & _).
  apply saveSpecCatalog_writes in Hw as (Hthis' & _ & Hfiles').
  assert (Hpath : catalog_file (this st') = catalog_file (this before)).
  { unfold catalog_file. rewrite Hthis. simpl. rewrite Hthis'. reflexivity. }
  assert (Hfile : files (world st') !! catalog_file (this st')
                  = Some (FCatalog (catalog (this st')))).
  { rewrite Hfiles, Hfiles', Hpath. apply lookup_insert_eq. }
  split; [exact Hfile |].
  intros Hf. exists (with_world (set_trace (ReadFile (catalog_file (this st'))
                                            :: trace (world st'))) st'),
               (catalog (this st')).
  split; [| reflexivity].
  revert Hf Hfile. unfold catalog_file. run_storage.
  intros Hf Hfile. rewrite Hf. simpl. rewrite Hfile. reflexivity.
Qed.

Lemma scanAndSave_persists_catalog_witness :
  exists st' s c,
    scanAndSave "specs" petstore_scan_state = (Ok tt, st') /\
    loadSpecCatalog st' = (Ok c, s) /\
    getApiCatalog st' = (Ok c, st').
Proof.
  destruct (scanAndSave "specs" petstore_scan_state) as [r st'] eqn:H.
  pose proof H as H'. vm_compute in H'. injection H' as Hr Hst.
  subst r.
  destruct (scanAndSave_persists_catalog _ _ _ H) as [_ Hload].
  destruct Hload as (s & c & H1 & H2).
  - rewrite <- Hst. reflexivity.
  - exists st', s, c. auto.
Defined.

Lemma scanAndSave_failure_keeps_catalog_witness :
  exists e st',
    scanAndSave "specs" failing_commit_state = (Throw e, st') /\
    error_code e = Some SCAN_ERROR /\
    catalog_ids (catalog (this st')) = ["orders"].
Proof.
  destruct (scanAndSave "specs" failing_commit_state) as [[[]|e] st'] eqn:H;
    [vm_compute in H; discriminate H |].
  exists e, st'. split; [reflexivity |].
  destruct (scanAndSave_failure_keeps_catalog _ _ _ _ H) as [He F].
  split; [exact He |]. rewrite (frame_catalog _ _ F). reflexivity.
Defined.

Lemma scanAndSave_catalog_in_store_witness :
  exists st',
    scanAndSave "specs" petstore_scan_state = (Ok tt, st') /\
    catalog_ids (catalog (this st')) = ["petstore"] /\
    specs (this st') !! "petstore" = Some petstore.
Proof.
  destruct (scanAndSave "specs" petstore_scan_state) as [[[]|e] st'] eqn:H;
    [| vm_compute in H; discriminate H].
  exists st'. split; [reflexivity |].
  destruct (scanAndSave_catalog_in_store "specs" petstore_scan_state st' eq_refl)
    as (_ & saved & Hperm & Hcat & Hspecs & _); [| exact H |].
  { intros r Hr. apply list_elem_of_singleton in Hr as ->. discriminate. }
  apply Permutation_singleton_r in Hperm.
  rewrite Hcat, Hspecs, Hperm. split; reflexivity.
Defined.

(** ** Candidates of the schema search *)

(** X22: the candidates [searchSchemas] hands to Fuse are taken from the
    catalog alone: each is a schema entry of a catalog entry in scope,
    with that entry's specId added.  An empty [specId] means every spec,
    and a [specId] that is not in the catalog leaves no candidate. *)
Theorem schemaEntries_scope (s : Service) (scope : option string) :
  (forall c,
     c ∈ schemaEntries s scope <->
     exists e sch,
       e ∈ targetSpecs s scope /\ sch ∈ schemas e /\
       c = {| se_name := se_name sch;
              se_description := se_description sch;
              se_specId := Some (specId (uri e)) |}) /\
  schemaEntries s (Some "") = schemaEntries s None /\
  (forall id, truthy_string id = true ->
     id ∉ catalog_ids (catalog s) ->
     schemaEntries s (Some id) = []).
Proof.
  split; [| split; [reflexivity |]].
  - intros c. rewrite schemaEntries_candidates, list_elem_of_In, in_flat_map.
    split.
    + intros (e & He & Hin). apply in_map_iff in Hin as (sch & <- & Hsch).
      exists e, sch. rewrite !list_elem_of_In. auto.
    + intros (e & sch & He & Hsch & ->). exists e.
      split; [apply list_elem_of_In, He |].
      apply in_map_iff. exists sch.
      split; [reflexivity | apply list_elem_of_In, Hsch].
  - intros id Hid Hno. rewrite schemaEntries_candidates.
    rewrite (targetSpecs_unknown _ _ Hid Hno). reflexivity.
Qed.
